(** * Logo generator CLI: retry wrapper, cache, prompt engines, batch runner

    A shallow embedding of the TypeScript sources of the logo generator
    (retry strategy, cache manager, the two prompt engines, the generator,
    the batch and generate commands, the image downloader and the
    identifiers) together with the properties the specification states
    about them and further properties read off the code.

    Conventions of the embedding.
    - A JavaScript string is a [string] that holds the bytes of its UTF-8
      encoding, which is how the program reads and writes its text (text
      is well formed: files and arguments are decoded into it); for ASCII
      text these are the code units. Splitting, joining, searching and
      replacing on ASCII separators and literal patterns act alike on
      both; [trim] removes the white space of ECMAScript by its
      encodings; [toLowerCase] lowers what ASCII text can tell apart;
      [sort] compares as code units do; slices by length are taken of
      ASCII text (digests, dates, identifiers).
    - An optional field ([style?: ...]) is an [option]; JavaScript
      truthiness is written out ([truthy], [str_or]).
    - [Math.random()], [Date.now()] and the answers of the image API are
      read from explicit oracles that the functions take as arguments.
    - A [throw] is the [Threw] outcome of a result type; observable effects
      (operation invocations, warnings, sleeps, API calls) are recorded in
      an event trace. *)

From Stdlib Require Import ZArith QArith Qminmax Qround Qpower Lia Bool.
From Stdlib Require Import Strings.String Strings.Ascii.
From Stdlib Require Import Sorting.Permutation.
From stdpp Require Import gmap strings pretty.
Import ListNotations.

Open Scope string_scope.

#[global] Arguments String.append !_ _ / : simpl nomatch.

(** ** JavaScript string primitives used by the sources *)

Module Js.

(** [x || d] on an optional string: [undefined] and the empty string are
    falsy. *)
Definition truthy (s : string) : bool := negb (String.eqb s "").

Definition opt_truthy (o : option string) : bool :=
  match o with
  | Some s => truthy s
  | None => false
  end.

Definition str_or (o : option string) (d : string) : string :=
  match o with
  | Some s => if truthy s then s else d
  | None => d
  end.

(** [a || b] where both sides are optional strings. *)
Definition opt_or (a b : option string) : option string :=
  if opt_truthy a then a else b.

Definition lower_ascii (c : ascii) : ascii :=
  let n := nat_of_ascii c in
  if (65 <=? n)%nat && (n <=? 90)%nat then ascii_of_nat (n + 32) else c.

Definition is_byte (n : nat) (c : ascii) : bool := Nat.eqb (nat_of_ascii c) n.

(** [s.toLowerCase()] as far as ASCII text can tell: the letters [A-Z]
    are lowered, and so are the two characters outside ASCII whose lower
    case has an ASCII letter, U+0130 (bytes 196 176), which becomes "i"
    followed by U+0307 (bytes 204 135), and the Kelvin sign U+212A (bytes
    226 132 170), which becomes "k". Every other character is kept: its
    lower case has no ASCII letter, and the sources only search the
    lowered text for ASCII words, compare it with ASCII names, or
    replace whatever is not in [a-z0-9]. *)
Fixpoint toLowerCase (s : string) : string :=
  match s with
  | EmptyString => EmptyString
  | String c s1 =>
      let kept := String (lower_ascii c) (toLowerCase s1) in
      match s1 with
      | String d s2 =>
          if is_byte 196 c && is_byte 176 d
          then String "i" (String (ascii_of_nat 204)
                             (String (ascii_of_nat 135) (toLowerCase s2)))
          else match s2 with
               | String e s3 =>
                   if is_byte 226 c && is_byte 132 d && is_byte 170 e
                   then String "k" (toLowerCase s3)
                   else kept
               | EmptyString => kept
               end
      | EmptyString => kept
      end
  end.

(** [s.includes(needle)] *)
Fixpoint includes (needle s : string) : bool :=
  String.prefix needle s ||
  match s with
  | EmptyString => false
  | String _ s' => includes needle s'
  end.

Fixpoint drop (n : nat) (s : string) : string :=
  match n, s with
  | O, _ => s
  | S n', String _ s' => drop n' s'
  | S _, EmptyString => EmptyString
  end.

(** [s.endsWith(suffix)] *)
Definition endsWith (suffix s : string) : bool :=
  (String.length suffix <=? String.length s)%nat &&
  String.eqb (drop (String.length s - String.length suffix) s) suffix.

(** [strip_prefix p s] is the rest of [s] after [p] when [s] starts with
    [p]. *)
Fixpoint strip_prefix (p s : string) : option string :=
  match p, s with
  | EmptyString, _ => Some s
  | String a p', String b s' =>
      if Ascii.eqb a b then strip_prefix p' s' else None
  | String _ _, EmptyString => None
  end.

Definition of_bytes (bytes : list nat) : string :=
  string_of_list_ascii (map ascii_of_nat bytes).

(** The characters [trim] removes, each by the bytes of its UTF-8
    encoding: the WhiteSpace and LineTerminator code points of ECMAScript,
    that is TAB, LF, VT, FF, CR, SPACE, U+00A0, U+1680, U+2000 to U+200A,
    U+2028, U+2029, U+202F, U+205F, U+3000 and U+FEFF. *)
Definition white_space : list string := map of_bytes [
  [9]; [10]; [11]; [12]; [13]; [32];
  [194; 160];
  [225; 154; 128];
  [226; 128; 128]; [226; 128; 129]; [226; 128; 130]; [226; 128; 131];
  [226; 128; 132]; [226; 128; 133]; [226; 128; 134]; [226; 128; 135];
  [226; 128; 136]; [226; 128; 137]; [226; 128; 138];
  [226; 128; 168]; [226; 128; 169];
  [226; 128; 175];
  [226; 129; 159];
  [227; 128; 128];
  [239; 187; 191]
]%nat.

(** The rest of [s] after one of [chars], when [s] starts with one. *)
Fixpoint strip_one (chars : list string) (s : string) : option string :=
  match chars with
  | [] => None
  | c :: rest =>
      match strip_prefix c s with
      | Some r => Some r
      | None => strip_one rest s
      end
  end.

(** Strips leading [chars] as long as there is one; [fuel] bounds the
    number of rounds (every round removes at least one byte). *)
Fixpoint strip_leading (chars : list string) (fuel : nat) (s : string) : string :=
  match fuel with
  | O => s
  | S fuel' =>
      match strip_one chars s with
      | Some rest => strip_leading chars fuel' rest
      | None => s
      end
  end.

Fixpoint reverse (s : string) : string :=
  match s with
  | EmptyString => EmptyString
  | String c s' => reverse s' +:+ String c EmptyString
  end.

Definition trimStart (s : string) : string :=
  strip_leading white_space (String.length s) s.

(** Trailing white space is leading white space of the reversed text. In
    well-formed UTF-8 the bytes of a character occur only where that
    character stands, so a match at either end is a white-space
    character of the text. *)
Definition trimEnd (s : string) : string :=
  reverse (strip_leading (map reverse white_space) (String.length s) (reverse s)).

Definition trim (s : string) : string := trimEnd (trimStart s).

(** [s.split(sep)] for a one-character separator: the result is never
    empty (one empty string for the empty string). *)
Fixpoint split (sep : ascii) (s : string) : list string :=
  match s with
  | EmptyString => [EmptyString]
  | String c s' =>
      if Ascii.eqb c sep then EmptyString :: split sep s'
      else match split sep s' with
           | [] => [String c EmptyString]
           | w :: ws => String c w :: ws
           end
  end.

(** [xs.join(sep)] *)
Fixpoint join (sep : string) (xs : list string) : string :=
  match xs with
  | [] => EmptyString
  | [x] => x
  | x :: rest => x +:+ sep +:+ join sep rest
  end.

(** The replacement-string patterns of [String.prototype.replace] for a
    pattern without capture groups: [$$], [$&], [$`] and [$']; any other
    [$] is literal. *)
Fixpoint getSubstitution (matched before after replacement : string) : string :=
  match replacement with
  | EmptyString => EmptyString
  | String "$" (String "$" r) =>
      String "$" (getSubstitution matched before after r)
  | String "$" (String "&" r) =>
      matched +:+ getSubstitution matched before after r
  | String "$" (String "`" r) =>
      before +:+ getSubstitution matched before after r
  | String "$" (String "'" r) =>
      after +:+ getSubstitution matched before after r
  | String c r => String c (getSubstitution matched before after r)
  end.

(** [s.replace(/pat/g, replacement)] for a literal, non-empty pattern:
    scan left to right, [before] being the text of the original string in
    front of the cursor. *)
Fixpoint replace_go (fuel : nat) (pat replacement before s : string) : string :=
  match fuel with
  | O => s
  | S fuel' =>
      match strip_prefix pat s with
      | Some rest =>
          getSubstitution pat before rest replacement
          +:+ replace_go fuel' pat replacement (before +:+ pat) rest
      | None =>
          match s with
          | EmptyString => EmptyString
          | String c s' =>
              String c (replace_go fuel' pat replacement
                          (before +:+ String c EmptyString) s')
          end
      end
  end.

Definition replaceAll (pat replacement s : string) : string :=
  match pat with
  | EmptyString => s
  | _ => replace_go (S (String.length s)) pat replacement EmptyString s
  end.

(** [s.slice(0, n)] *)
Fixpoint take (n : nat) (s : string) : string :=
  match n, s with
  | S n', String c s' => String c (take n' s')
  | _, _ => EmptyString
  end.

End Js.

(** ** Retry wrapper ([RetryStrategy]) *)

Module Retry.

(** A thrown value: whether it is an instance of [RateLimitError], and its
    [message] property when it has one. *)
Record JsError := mkError {
  is_RateLimitError : bool;
  message : option string
}.

Definition error_text (e : JsError) : string :=
  Js.toLowerCase (Js.str_or (message e) "").

Definition isRateLimitError (e : JsError) : bool :=
  if is_RateLimitError e then true
  else
    let errorMessage := error_text e in
    Js.includes "rate limit" errorMessage ||
    Js.includes "too many requests" errorMessage ||
    Js.includes "quota exceeded" errorMessage.

Definition isRetryableError (e : JsError) : bool :=
  let errorMessage := error_text e in
  Js.includes "network" errorMessage ||
  Js.includes "timeout" errorMessage ||
  Js.includes "connection" errorMessage ||
  Js.includes "econnreset" errorMessage ||
  Js.includes "socket hang up" errorMessage.

(** [calculateBackoffDelay(attempt)], the value of [Math.random()] being
    [r]. Arithmetic is exact (rationals stand for the doubles). *)
Definition jitter (r : Q) : Q := (r * 1000)%Q.

Definition calculateBackoffDelay (attempt : Z) (r : Q) : Q :=
  let baseDelay := 1000%Q in
  let exponentialDelay := (baseDelay * 2 ^ (attempt - 1))%Q in
  let maxDelay := 30000%Q in
  Qmin (exponentialDelay + jitter r) maxDelay.

(** What [execute] does that an observer can see. *)
Inductive Event :=
| Invoke
| WarnRateLimited (delay : Q) (attempt maxRetries : Z)
| WarnTemporary (delay : Q) (attempt maxRetries : Z)
| Sleep (delay : Q).

Inductive Outcome (T : Type) :=
| Returned (v : T)
| Threw (e : JsError)
| ThrewUndefined.
Arguments Returned {T} v.
Arguments Threw {T} e.
Arguments ThrewUndefined {T}.

(** The state [execute] threads: the state of whatever the operation
    closes over, the number of [Math.random()] values consumed so far and
    the events so far (oldest first). *)
Record Run (S : Type) := mkRun {
  op_state : S;
  draws : nat;
  trace : list Event
}.
Arguments mkRun {S} _ _ _.
Arguments op_state {S} _.
Arguments draws {S} _.
Arguments trace {S} _.

Section Execute.
Context {S T : Type}.
(** The operation: a result or a thrown value, and the new state. *)
Variable operation : S -> (JsError + T) * S.
(** [random k] is the value of the [k]-th call of [Math.random()]. *)
Variable random : nat -> Q.
Variable maxRetries : Z.

(** The backoff branch shared by the two retry cases: draw the jitter,
    warn, sleep. *)
Definition backoff (warn : Q -> Z -> Z -> Event) (attempt : Z) (st : Run S)
  : Run S :=
  let delay := calculateBackoffDelay attempt (random (draws st)) in
  mkRun (op_state st) (Datatypes.S (draws st))
        (trace st ++ [warn delay attempt maxRetries; Sleep delay]).

(** The [for] loop from [attempt], with [remaining] iterations left
    ([remaining = maxRetries - attempt + 1]). *)
Fixpoint loop (remaining : nat) (attempt : Z) (lastError : option JsError)
         (st : Run S) : Outcome T * Run S :=
  match remaining with
  | O =>
      (match lastError with
       | Some e => Threw e
       | None => ThrewUndefined
       end, st)
  | Datatypes.S remaining' =>
      let (res, s') := operation (op_state st) in
      let st1 := mkRun s' (draws st) (trace st ++ [Invoke]) in
      match res with
      | inr v => (Returned v, st1)
      | inl error =>
          if isRateLimitError error then
            loop remaining' (attempt + 1) (Some error)
                 (backoff WarnRateLimited attempt st1)
          else if isRetryableError error && (attempt <? maxRetries)%Z then
            loop remaining' (attempt + 1) (Some error)
                 (backoff WarnTemporary attempt st1)
          else (Threw error, st1)
      end
  end.

Definition execute (s : S) : Outcome T * Run S :=
  loop (Z.to_nat maxRetries) 1 None (mkRun s 0 []).
End Execute.

Definition invocations (tr : list Event) : nat :=
  List.length
    (List.filter (fun ev => match ev with Invoke => true | _ => false end) tr).

Definition sleeps (tr : list Event) : list Q :=
  omap (fun ev => match ev with Sleep d => Some d | _ => None end) tr.

End Retry.

(** ** SHA-256 and hexadecimal encoding

    [crypto.subtle.digestSync("SHA-256", data)] and [encodeHex] come from
    the Deno standard library; they are written out here (FIPS 180-4) so
    that the cache key can be computed. Words are integers below [2^32],
    bytes integers below [256]. *)

Module Sha256.
Local Open Scope Z_scope.

Definition w32 (x : Z) : Z := x mod 2 ^ 32.
Definition add32 (a b : Z) : Z := w32 (a + b).
Definition rotr (n x : Z) : Z :=
  Z.lor (Z.shiftr x n) (w32 (Z.shiftl x (32 - n))).
Definition Ch (x y z : Z) : Z :=
  Z.lxor (Z.land x y) (Z.land (w32 (Z.lnot x)) z).
Definition Maj (x y z : Z) : Z :=
  Z.lxor (Z.lxor (Z.land x y) (Z.land x z)) (Z.land y z).
Definition bsig0 (x : Z) : Z := Z.lxor (Z.lxor (rotr 2 x) (rotr 13 x)) (rotr 22 x).
Definition bsig1 (x : Z) : Z := Z.lxor (Z.lxor (rotr 6 x) (rotr 11 x)) (rotr 25 x).
Definition ssig0 (x : Z) : Z := Z.lxor (Z.lxor (rotr 7 x) (rotr 18 x)) (Z.shiftr x 3).
Definition ssig1 (x : Z) : Z := Z.lxor (Z.lxor (rotr 17 x) (rotr 19 x)) (Z.shiftr x 10).

(** The first [n] primes are those among [2 .. 311]. *)
Definition is_prime (p : nat) : bool :=
  forallb (fun d => negb (Nat.eqb (p mod d) 0)) (seq 2 (p - 2)).

Definition primes : list Z :=
  map Z.of_nat (List.filter is_prime (seq 2 310)).

(** Integer cube root, one bit at a time from bit [bits - 1] down. *)
Fixpoint cube_root (bits : nat) (n r : Z) : Z :=
  match bits with
  | O => r
  | S b =>
      let c := r + 2 ^ Z.of_nat b in
      if c * c * c <=? n then cube_root b n c else cube_root b n r
  end.

(** The round constants: the first 32 bits of the fractional parts of the
    cube roots of the first 64 primes. *)
Definition K : list Z :=
  map (fun p => w32 (cube_root 36 (p * 2 ^ 96) 0)) primes.

(** The eight working variables / chaining values. *)
Record State := mkState {
  ha : Z; hb : Z; hc : Z; hd : Z; he : Z; hf : Z; hg : Z; hh : Z
}.

(** The initial hash value: the first 32 bits of the fractional parts of
    the square roots of the first 8 primes. *)
Definition frac_sqrt (p : Z) : Z := w32 (Z.sqrt (p * 2 ^ 64)).

Definition H0 : State :=
  mkState (frac_sqrt 2) (frac_sqrt 3) (frac_sqrt 5) (frac_sqrt 7)
          (frac_sqrt 11) (frac_sqrt 13) (frac_sqrt 17) (frac_sqrt 19).

(** Message schedule, most recent word first. *)
Fixpoint extend (n : nat) (ws : list Z) : list Z :=
  match n with
  | O => ws
  | S n' =>
      let w := add32 (add32 (ssig1 (nth 1 ws 0)) (nth 6 ws 0))
                     (add32 (ssig0 (nth 14 ws 0)) (nth 15 ws 0)) in
      extend n' (w :: ws)
  end.

Definition schedule (block : list Z) : list Z := rev (extend 48 (rev block)).

Definition round (st : State) (kw : Z * Z) : State :=
  let t1 := add32 (add32 (add32 (hh st) (bsig1 (he st)))
                         (add32 (Ch (he st) (hf st) (hg st)) (fst kw))) (snd kw) in
  let t2 := add32 (bsig0 (ha st)) (Maj (ha st) (hb st) (hc st)) in
  mkState (add32 t1 t2) (ha st) (hb st) (hc st)
          (add32 (hd st) t1) (he st) (hf st) (hg st).

Definition compress (h : State) (block : list Z) : State :=
  let r := fold_left round (combine K (schedule block)) h in
  mkState (add32 (ha h) (ha r)) (add32 (hb h) (hb r)) (add32 (hc h) (hc r))
          (add32 (hd h) (hd r)) (add32 (he h) (he r)) (add32 (hf h) (hf r))
          (add32 (hg h) (hg r)) (add32 (hh h) (hh r)).

(** Big-endian bytes of a word and back. *)
Definition word_bytes (w : Z) : list Z :=
  [Z.shiftr w 24 mod 256; Z.shiftr w 16 mod 256; Z.shiftr w 8 mod 256; w mod 256].

Fixpoint words_of (bytes : list Z) : list Z :=
  match bytes with
  | b0 :: b1 :: b2 :: b3 :: rest =>
      (Z.shiftl b0 24 + Z.shiftl b1 16 + Z.shiftl b2 8 + b3) :: words_of rest
  | _ => []
  end.

Definition pad (msg : list Z) : list Z :=
  let len := Z.of_nat (List.length msg) in
  let bits := 8 * len in
  msg ++ [0x80] ++ repeat 0 (Z.to_nat ((55 - len) mod 64))
      ++ word_bytes (Z.shiftr bits 32) ++ word_bytes (w32 bits).

Fixpoint blocks (n : nat) (ws : list Z) : list (list Z) :=
  match n with
  | O => []
  | S n' => firstn 16 ws :: blocks n' (skipn 16 ws)
  end.

Definition digest_bytes (st : State) : list Z :=
  word_bytes (ha st) ++ word_bytes (hb st) ++ word_bytes (hc st) ++
  word_bytes (hd st) ++ word_bytes (he st) ++ word_bytes (hf st) ++
  word_bytes (hg st) ++ word_bytes (hh st).

Definition sha256 (msg : list Z) : list Z :=
  let ws := words_of (pad msg) in
  digest_bytes (fold_left compress (blocks (List.length ws / 16) ws) H0).

(** [new TextEncoder().encode(s)]: the bytes of the UTF-8 encoding, which
    are what the string holds. *)
Fixpoint encode (s : string) : list Z :=
  match s with
  | EmptyString => []
  | String c s' => Z.of_nat (nat_of_ascii c) :: encode s'
  end.

Definition hex_digit (d : Z) : ascii :=
  if d <? 10 then ascii_of_nat (Z.to_nat (48 + d))
  else ascii_of_nat (Z.to_nat (87 + d)).

Fixpoint encodeHex (bytes : list Z) : string :=
  match bytes with
  | [] => EmptyString
  | b :: rest =>
      String (hex_digit (b / 16)) (String (hex_digit (b mod 16)) (encodeHex rest))
  end.

End Sha256.

(** ** Shared result types ([core/types.ts]) *)

Module Types.

Record LogoRequest := mkRequest {
  company : string;
  prompt : string;
  style : option string;
  industry : option string;
  colors : option (list string);
  size : option string;
  quality : option string
}.

Record GenerationOptions := mkOptions {
  o_style : option string;
  o_industry : option string;
  o_colors : option (list string);
  o_size : option string;
  o_quality : option string;
  o_template : option string;
  o_negativePrompts : option (list string);
  o_customElements : option (list string)
}.

(** [{}], the default of [generate]'s second argument. *)
Definition no_options : GenerationOptions :=
  mkOptions None None None None None None None None.

Record LogoMetadata := mkMetadata {
  m_id : string;
  m_timestamp : Z;
  m_company : string;
  m_originalPrompt : string;
  m_finalPrompt : string;
  m_style : string;
  m_industry : option string;
  m_size : string;
  m_quality : string;
  m_cost : Q
}.

Record LogoResult := mkResult {
  url : string;
  revisedPrompt : option string;
  metadata : LogoMetadata;
  localPath : option string
}.

(** [CachedLogo]: a [LogoResult] spread into an object with the two extra
    fields. *)
Record CachedLogo := mkCached {
  payload : LogoResult;
  expiresAt : Z;
  hit : bool
}.

End Types.

(** ** Cache manager ([CacheManager])

    The cache directory is part of the state: [None] when it does not
    exist, else its entries in the order [Deno.readDir] yields them. A file
    holds either an entry as [saveToFile] wrote it or text that
    [JSON.parse] rejects. Every function reads the clock once, through its
    [now] argument. Reads and removals succeed; [saveToFile] takes the
    outcome of its write, since the source only logs a failed one (a
    failed write leaves the directory as it was). *)

Module Cache.
Import Types.
Local Open Scope Z_scope.

Inductive FileContent :=
| Entry (c : CachedLogo)
| Unparsable.

Record DirEntry := mkEntry {
  name : string;
  isFile : bool;
  content : FileContent;
  fsize : Z;
  mtime : option Z
}.

Record CacheManager := mkManager {
  memoryCache : gmap string CachedLogo;
  cacheDir : option (list DirEntry);
  ttl : Z;
  maxSize : Z
}.

(** The constructor, on a given state of the directory. *)
Definition new (dir : option (list DirEntry)) (ttlSeconds maxSizeMB : Z)
  : CacheManager :=
  mkManager ∅ dir (ttlSeconds * 1000) (maxSizeMB * 1024 * 1024).

Definition with_memory (m : gmap string CachedLogo) (st : CacheManager) :=
  mkManager m (cacheDir st) (ttl st) (maxSize st).

Definition with_dir (d : option (list DirEntry)) (st : CacheManager) :=
  mkManager (memoryCache st) d (ttl st) (maxSize st).

Definition isExpired (now : Z) (cached : CachedLogo) : bool :=
  now >? expiresAt cached.

(** [{ ...cached, hit: true }] *)
Definition as_hit (cached : CachedLogo) : CachedLogo :=
  mkCached (payload cached) (expiresAt cached) true.

Definition file_name (promptHash : string) : string := promptHash +:+ ".json".

Fixpoint lookup_file (n : string) (entries : list DirEntry) : option DirEntry :=
  match entries with
  | [] => None
  | e :: rest => if String.eqb (name e) n then Some e else lookup_file n rest
  end.

Definition getFromFile (promptHash : string) (st : CacheManager)
  : option CachedLogo :=
  match cacheDir st with
  | None => None
  | Some entries =>
      match lookup_file (file_name promptHash) entries with
      | Some e =>
          if isFile e then
            match content e with
            | Entry c => Some c
            | Unparsable => None
            end
          else None
      | None => None
      end
  end.

Definition get (now : Z) (promptHash : string) (st : CacheManager)
  : option CachedLogo * CacheManager :=
  let fromFile :=
    match getFromFile promptHash st with
    | Some fileCached =>
        if negb (isExpired now fileCached) then
          (Some (as_hit fileCached),
           with_memory (<[promptHash := fileCached]> (memoryCache st)) st)
        else (None, st)
    | None => (None, st)
    end in
  match memoryCache st !! promptHash with
  | Some memCached =>
      if negb (isExpired now memCached) then (Some (as_hit memCached), st)
      else fromFile
  | None => fromFile
  end.

(** [Deno.writeTextFile]: replaces the file of that name, or adds it. *)
Fixpoint write_file (f : DirEntry) (entries : list DirEntry) : list DirEntry :=
  match entries with
  | [] => [f]
  | e :: rest =>
      if String.eqb (name e) (name f) then f :: rest
      else e :: write_file f rest
  end.

(** [Deno.remove] *)
Definition remove_file (n : string) (entries : list DirEntry) : list DirEntry :=
  List.filter (fun e => negb (String.eqb (name e) n)) entries.

Definition is_cache_file (e : DirEntry) : bool :=
  isFile e && Js.endsWith ".json" (name e).

Definition total_size (entries : list DirEntry) : Z :=
  fold_left (fun sum e => sum + fsize e) entries 0.

(** The entries [readDir] yields that pass the [isFile && endsWith] test. *)
Definition cache_files (entries : list DirEntry) : list DirEntry :=
  List.filter is_cache_file entries.

(** [stat.mtime || new Date(0)], as a time in milliseconds. *)
Definition mtime_of (e : DirEntry) : Z :=
  match mtime e with
  | Some t => t
  | None => 0
  end.

(** [files.sort((a, b) => a.mtime - b.mtime)]: the sort is stable. *)
Fixpoint insert_by_mtime (f : DirEntry) (sorted : list DirEntry) : list DirEntry :=
  match sorted with
  | [] => [f]
  | g :: rest =>
      if mtime_of f <? mtime_of g then f :: g :: rest
      else g :: insert_by_mtime f rest
  end.

Definition sort_by_mtime (files : list DirEntry) : list DirEntry :=
  fold_left (fun acc f => insert_by_mtime f acc) files [].

(** [currentSize <= this.maxSize * 0.8], in exact arithmetic. *)
Definition within_headroom (currentSize max : Z) : bool :=
  5 * currentSize <=? 4 * max.

(** The eviction loop: the files to remove, oldest first. *)
Fixpoint evict (max : Z) (files : list DirEntry) (currentSize : Z)
  : list DirEntry :=
  match files with
  | [] => []
  | file :: rest =>
      if within_headroom currentSize max then []
      else file :: evict max rest (currentSize - fsize file)
  end.

Definition cleanupBySize (max : Z) (entries : list DirEntry) : list DirEntry :=
  let files := sort_by_mtime (cache_files entries) in
  let currentSize := total_size files in
  fold_left (fun d file => remove_file (name file) d)
            (evict max files currentSize) entries.

(** The scan of [cleanup]: a file is marked when its entry is expired or
    when it does not parse. *)
Definition marked (now : Z) (e : DirEntry) : bool :=
  match content e with
  | Entry cached => isExpired now cached
  | Unparsable => true
  end.

Definition scan (now : Z) (entries : list DirEntry) : list string * Z :=
  fold_left
    (fun (acc : list string * Z) e =>
       if is_cache_file e then
         (if marked now e then (fst acc ++ [name e])%list else fst acc,
          snd acc + fsize e)
       else acc)
    entries ([], 0).

Definition cleanup (now : Z) (st : CacheManager) : CacheManager :=
  match cacheDir st with
  | None => st
  | Some entries =>
      let '(expiredFiles, totalSize) := scan now entries in
      let entries1 := fold_left (fun d n => remove_file n d) expiredFiles entries in
      let entries2 :=
        if totalSize >? maxSize st then cleanupBySize (maxSize st) entries1
        else entries1 in
      mkManager (filter (fun kv => isExpired now (snd kv) = false) (memoryCache st))
                (Some entries2) (ttl st) (maxSize st)
  end.

Section Store.
(** The byte length of [JSON.stringify(cached, null, 2)]. *)
Variable json_size : CachedLogo -> Z.

Definition saveToFile (now : Z) (write_ok : bool) (promptHash : string)
           (cached : CachedLogo) (st : CacheManager) : CacheManager :=
  if write_ok then
    let f := mkEntry (file_name promptHash) true (Entry cached)
                     (json_size cached) (Some now) in
    let entries := match cacheDir st with Some d => d | None => [] end in
    with_dir (Some (write_file f entries)) st
  else st.

(** [set], [r] being the value of [Math.random()]. *)
Definition set (now : Z) (r : Q) (write_ok : bool) (promptHash : string)
           (result : LogoResult) (st : CacheManager) : CacheManager :=
  let cached := mkCached result (now + ttl st) false in
  let st1 := with_memory (<[promptHash := cached]> (memoryCache st)) st in
  let st2 := saveToFile now write_ok promptHash cached st1 in
  if Qlt_le_dec r (1 # 10) then cleanup now st2 else st2.
End Store.

(** [clear]: the memory map is emptied and every cache file the listing
    yields is removed. *)
Definition clear (st : CacheManager) : CacheManager :=
  mkManager ∅
    (option_map
       (fun entries =>
          fold_left (fun d e => if is_cache_file e then remove_file (name e) d else d)
                    entries entries)
       (cacheDir st))
    (ttl st) (maxSize st).




(** [colors.sort()] orders by UTF-16 code units. On UTF-8 text that is
    the order of the bytes, except that a character of U+E000 to U+FFFF
    (lead byte 238 or 239) comes after the characters beyond U+FFFF (lead
    bytes 240 to 244): [unit_key] moves those two lead bytes to the top,
    in exchange for 254 and 255, which no UTF-8 text holds. *)
Definition unit_key (c : ascii) : ascii :=
  let n := nat_of_ascii c in
  if (n =? 238)%nat || (n =? 239)%nat then ascii_of_nat (n + 16)
  else if (n =? 254)%nat || (n =? 255)%nat then ascii_of_nat (n - 16)
  else c.

Fixpoint unit_keys (s : string) : string :=
  match s with
  | EmptyString => EmptyString
  | String c s' => String (unit_key c) (unit_keys s')
  end.

Definition code_unit_leb (x y : string) : bool :=
  String.leb (unit_keys x) (unit_keys y).

Fixpoint insert_sorted (x : string) (sorted : list string) : list string :=
  match sorted with
  | [] => [x]
  | y :: rest =>
      if code_unit_leb x y then x :: y :: rest else y :: insert_sorted x rest
  end.

Fixpoint sort (xs : list string) : list string :=
  match xs with
  | [] => []
  | x :: rest => insert_sorted x (sort rest)
  end.

(** The template literal of [createPromptHash]. *)
Definition canonical (company prompt : string) (style : option string)
           (colors : option (list string)) : string :=
  company +:+ ":" +:+ prompt +:+ ":" +:+ Js.str_or style "default" +:+ ":" +:+
  Js.str_or (option_map (fun cs => Js.join "," (sort cs)) colors) "".

Definition createPromptHash (company prompt : string) (style : option string)
           (colors : option (list string)) : string :=
  let input := canonical company prompt style colors in
  let data := Sha256.encode input in
  let hashBuffer := Sha256.sha256 data in
  Js.take 16 (Sha256.encodeHex hashBuffer).

End Cache.

(** ** Free-form prompt engine ([PromptEngine]) *)

Module Prompts.
Import Types.

Record PromptTemplate := mkPromptTemplate {
  base : string;
  modifiers : list string;
  negative : list string;
  styleElements : list string
}.

(** [new Map()] filled by successive [set] calls. *)
Definition map_of {V : Type} (kvs : list (string * V)) : gmap string V :=
  fold_left (fun m kv => <[fst kv := snd kv]> m) kvs ∅.

(** [initializeTemplates] *)
Definition templates : gmap string PromptTemplate := map_of [
  ("technology", mkPromptTemplate "minimalist tech logo with geometric elements"
     ["circuit patterns"; "digital aesthetic"; "innovation theme"]
     ["no photorealistic details"; "no complex shading"]
     ["clean lines"; "modern typography"; "tech symbols"]);
  ("healthcare", mkPromptTemplate "medical logo with caring symbolism"
     ["calming presence"; "trustworthy design"; "health-focused"]
     ["no aggressive imagery"; "no dark themes"]
     ["medical cross"; "heart symbol"; "caring hands"]);
  ("finance", mkPromptTemplate "financial services logo conveying trust"
     ["stability"; "growth"; "security"]
     ["no playful elements"; "no informal styling"]
     ["upward arrows"; "shield symbols"; "professional typography"]);
  ("retail", mkPromptTemplate "retail brand logo appealing to customers"
     ["approachable"; "shopping-focused"; "brand recognition"]
     ["no corporate coldness"; "no complexity"]
     ["shopping symbols"; "friendly typography"; "retail colors"]);
  ("food", mkPromptTemplate "food and beverage logo with appetite appeal"
     ["appetizing"; "fresh"; "quality ingredients"]
     ["no industrial look"; "no cold colors"]
     ["food symbols"; "warm colors"; "inviting design"]);
  ("education", mkPromptTemplate "educational logo promoting learning"
     ["knowledge"; "growth"; "academic excellence"]
     ["no childish elements"; "no outdated symbols"]
     ["book symbols"; "graduation caps"; "learning icons"])
].

(** [initializeStyleModifiers] *)
Definition styleModifiers : gmap string string := map_of [
  ("modern", "contemporary design, sleek lines, current trends");
  ("vintage", "retro aesthetic, classic elements, nostalgic feel");
  ("minimal", "simple clean design, essential elements only, whitespace");
  ("playful", "vibrant colors, dynamic composition, fun elements");
  ("classic", "timeless design, traditional elements, elegant");
  ("bold", "strong visual impact, dramatic elements, confident");
  ("elegant", "refined aesthetics, sophisticated, premium feel");
  ("tech", "futuristic elements, digital theme, innovation")
].

Definition buildBasePrompt (request : LogoRequest) (style : string)
           (industry : option string) : string :=
  let template :=
    if Js.opt_truthy industry then
      match industry with
      | Some i => templates !! i
      | None => None
      end
    else None in
  let baseDescription := Js.str_or (option_map base template) "professional logo" in
  style +:+ " " +:+ baseDescription +:+ " for " +:+ company request +:+ ": "
        +:+ prompt request.

Definition addStyleElements (prompt style : string) : string :=
  let styleElements := Js.str_or (styleModifiers !! style) "" in
  prompt +:+ ", " +:+ styleElements.

(** A colour list in words: [colors.slice(0, -1).join(", ")] and the last
    element. *)
Definition conjunction (colors : list string) : string :=
  "using " +:+ Js.join ", " (removelast colors) +:+ " and "
           +:+ List.last colors "" +:+ " colors".

Definition addColorGuidance (prompt : string) (colors : option (list string))
  : string :=
  match colors with
  | None | Some [] => prompt
  | Some cs =>
      let colorGuidance :=
        match cs with
        | [c] => "primarily " +:+ c +:+ " color scheme"
        | _ => conjunction cs
        end in
      prompt +:+ ", " +:+ colorGuidance
  end.

Definition qualityModifiers : list string := [
  "clean geometric shapes";
  "scalable vector design";
  "professional quality";
  "suitable for branding";
  "on white background";
  "high contrast";
  "memorable and distinctive"
].

Definition addQualityModifiers (prompt : string) : string :=
  prompt +:+ ", " +:+ Js.join ", " qualityModifiers.

(** [options.colors || request.colors]: an array, even an empty one, is
    truthy. *)
Definition colors_or (a b : option (list string)) : option (list string) :=
  match a with
  | Some cs => Some cs
  | None => b
  end.

Definition optimize (request : LogoRequest) (options : GenerationOptions)
  : string :=
  let style := Js.str_or (Js.opt_or (o_style options) (style request)) "modern" in
  let industry := Js.opt_or (o_industry options) (industry request) in
  let optimizedPrompt := buildBasePrompt request style industry in
  let optimizedPrompt := addStyleElements optimizedPrompt style in
  let optimizedPrompt :=
    addColorGuidance optimizedPrompt (colors_or (o_colors options) (colors request)) in
  let optimizedPrompt := addQualityModifiers optimizedPrompt in
  optimizedPrompt.

End Prompts.

(** ** Template prompt engine ([ProfessionalPromptEngine]) *)

Module Professional.
Import Types.

Inductive TemplateCategory := Minimal | Corporate | Creative | IndustrySpecific.
Inductive TemplateComplexity := Basic | Intermediate | Advanced.
Inductive QualityTier := Preview | Web | Print.

Record ProfessionalTemplate := mkTemplate {
  id : string;
  name : string;
  category : TemplateCategory;
  complexity : TemplateComplexity;
  basePrompt : string;
  negativePrompts : list string;
  industryFit : list string;
  costTier : QualityTier
}.

(** [initializeProfessionalTemplates], in the order of the [set] calls. A
    character outside ASCII stands as its UTF-8 bytes. *)
Definition catalog : list ProfessionalTemplate := [
  mkTemplate "minimal-geometric" "Clean Geometric"
    Minimal Basic
    "Minimalist geometric logo, [SHAPE] form, flat vector design, [PRIMARY_COLOR] on white background, sharp edges, scalable"
    ["no gradients"; "no 3D effects"; "no ornate details"]
    [] Web;
  mkTemplate "minimal-lettermark" "Simple Lettermark"
    Minimal Basic
    "Single letter [LETTER] logo, sans-serif, bold weight, flat design, [PRIMARY_COLOR] monochrome, centered composition on white background"
    ["no decorative elements"; "no complex styling"; "no shadows"]
    [] Web;
  mkTemplate "corporate-tech" "Tech Startup Modern"
    Corporate Intermediate
    "Modern tech company logo featuring [ELEMENT], clean minimalist style, [PRIMARY_COLOR] and [SECONDARY_COLOR] color scheme, vector design, professional, white background"
    ["no realistic details"; "no ornate elements"; "no vintage styling"]
    ["technology"] Web;
  mkTemplate "corporate-finance" "Financial Trust"
    Corporate Intermediate
    "Conservative financial logo, [SYMBOL] emblem, navy blue and gray palette, professional grade, symmetric composition, trustworthy design"
    ["no casual elements"; "no bright colors"; "no playful styling"]
    ["finance"] Web;
  mkTemplate "industry-healthcare" "Healthcare Professional"
    IndustrySpecific Intermediate
    "Medical [SPECIALTY] logo, [MEDICAL_SYMBOL], calming [PRIMARY_COLOR] palette, rounded shapes, trustworthy design, clean vector on white"
    ["no sharp angles"; "no aggressive imagery"; "no dark themes"]
    ["healthcare"] Web;
  mkTemplate "creative-abstract" "Artistic Abstract"
    Creative Advanced
    "Abstract creative logo inspired by [ART_MOVEMENT], bold [COLOR_PALETTE], dynamic composition, artistic expression, vector style"
    ["no photorealistic elements"; "no literal imagery"]
    ["creative"] Web;
  mkTemplate "minimal-abstract" "Abstract Minimal"
    Minimal Intermediate
    "Abstract minimal logo, flowing [SHAPE] design, [PRIMARY_COLOR] gradient, artistic simplicity, vector style on white background"
    ["no complex details"; "no realistic elements"; "no busy patterns"]
    [] Web;
  mkTemplate "corporate-consulting" "Professional Consulting"
    Corporate Basic
    "Professional consulting logo, clean [SYMBOL], sophisticated [PRIMARY_COLOR] and gray palette, business-grade typography, trustworthy design"
    ["no casual styling"; "no playful elements"; "no bright colors"]
    ["consulting"] Web;
  mkTemplate "corporate-professional" "General Professional"
    Corporate Basic
    "Clean professional business logo, [ELEMENT] symbol, modern [PRIMARY_COLOR] palette, scalable design, corporate identity"
    ["no informal elements"; "no artistic flourishes"; "no complex imagery"]
    ["consulting"; "finance"; "technology"] Web;
  mkTemplate "creative-artistic" "Artistic Expression"
    Creative Advanced
    "Artistic logo inspired by [ART_STYLE], creative expression, bold [COLOR_PALETTE], dynamic visual impact, artistic vector design"
    ["no corporate styling"; "no conservative colors"; "no rigid structure"]
    ["creative"; "entertainment"] Web;
  mkTemplate "creative-playful" "Playful Creative"
    Creative Intermediate
    "Playful creative logo, fun [ELEMENT], bright [COLOR_PALETTE], friendly design, approachable aesthetic, vector style"
    ["no serious tone"; "no dark colors"; "no formal structure"]
    ["creative"; "education"] Web;
  mkTemplate "industry-tech" "Technology Focus"
    IndustrySpecific Intermediate
    "Technology logo featuring [TECH_ELEMENT], innovative design, [PRIMARY_COLOR] tech palette, modern digital aesthetic, scalable vector"
    ["no outdated styling"; "no organic elements"; "no handwritten fonts"]
    ["technology"] Web;
  mkTemplate "industry-finance" "Financial Services"
    IndustrySpecific Basic
    "Financial services logo, [SYMBOL] emblem, trustworthy [PRIMARY_COLOR] palette, stable design, professional banking aesthetic"
    ["no risky imagery"; "no bright colors"; "no playful elements"]
    ["finance"] Web;
  mkTemplate "industry-food" "Food & Beverage"
    IndustrySpecific Intermediate
    "Food and beverage logo, [FOOD_ELEMENT], appetizing [COLOR_PALETTE], warm inviting design, culinary aesthetic, vector style"
    ["no cold colors"; "no industrial look"; "no tech elements"]
    ["food"] Web;
  mkTemplate "industry-education" "Educational Institution"
    IndustrySpecific Basic
    "Educational logo featuring [EDU_SYMBOL], learning-focused design, [PRIMARY_COLOR] academic palette, trustworthy educational aesthetic"
    ["no childish elements"; "no commercial styling"; "no bright neon"]
    ["education"] Web;
  mkTemplate "minimal-wordmark" "Clean Wordmark"
    Minimal Basic
    "Clean wordmark logo for [COMPANY], minimal typography, [PRIMARY_COLOR] lettering, modern sans-serif style, simple and readable"
    ["no decorative elements"; "no symbols"; "no complex styling"]
    [] Web;
  mkTemplate "minimal-emblem" "Simple Emblem"
    Minimal Intermediate
    "Simple emblem logo, circular badge design, [COMPANY] text, [PRIMARY_COLOR] and white, clean minimal styling, vector badge"
    ["no ornate details"; "no complex patterns"; "no gradients"]
    [] Web;
  mkTemplate "corporate-startup" "Modern Startup"
    Corporate Intermediate
    "Modern startup logo, innovative [ELEMENT], fresh [PRIMARY_COLOR] palette, dynamic design, entrepreneurial spirit, scalable vector"
    ["no traditional styling"; "no conservative colors"; "no formal structure"]
    ["technology"] Web;
  mkTemplate "corporate-legal" "Legal Professional"
    Corporate Basic
    "Legal services logo, [LEGAL_SYMBOL], authoritative [PRIMARY_COLOR] palette, professional law firm design, trustworthy aesthetic"
    ["no casual elements"; "no bright colors"; "no playful styling"]
    ["legal"] Web;
  mkTemplate "creative-modern" "Modern Creative"
    Creative Intermediate
    "Modern creative logo, contemporary [ELEMENT], sophisticated [COLOR_PALETTE], artistic yet professional, creative industry standard"
    ["no outdated styling"; "no clich√© elements"; "no overly busy design"]
    ["creative"] Web;
  mkTemplate "creative-handcraft" "Handcraft Artisan"
    Creative Advanced
    "Handcraft artisan logo, [CRAFT_ELEMENT], organic [COLOR_PALETTE], handmade aesthetic, artisanal quality, authentic design"
    ["no digital styling"; "no corporate look"; "no perfect geometry"]
    ["creative"] Web;
  mkTemplate "creative-entertainment" "Entertainment Brand"
    Creative Advanced
    "Entertainment logo, [MEDIA_ELEMENT], dynamic [COLOR_PALETTE], energetic design, entertainment industry standard, engaging visual"
    ["no boring design"; "no corporate styling"; "no muted colors"]
    ["entertainment"] Web;
  mkTemplate "industry-real-estate" "Real Estate Professional"
    IndustrySpecific Basic
    "Real estate logo, [PROPERTY_SYMBOL], trustworthy [PRIMARY_COLOR] palette, professional property design, real estate industry standard"
    ["no casual styling"; "no playful elements"; "no bright colors"]
    ["real-estate"] Web;
  mkTemplate "industry-automotive" "Automotive Services"
    IndustrySpecific Intermediate
    "Automotive logo, [AUTO_ELEMENT], strong [PRIMARY_COLOR] palette, mechanical precision, automotive industry aesthetic, durable design"
    ["no delicate elements"; "no pastel colors"; "no organic shapes"]
    ["automotive"] Web;
  mkTemplate "industry-wellness" "Health & Wellness"
    IndustrySpecific Intermediate
    "Health and wellness logo, [WELLNESS_SYMBOL], calming [PRIMARY_COLOR] palette, holistic design, wellness industry aesthetic, balanced composition"
    ["no medical symbols"; "no harsh colors"; "no rigid geometry"]
    ["healthcare"] Web;
  mkTemplate "industry-nonprofit" "Non-Profit Organization"
    IndustrySpecific Basic
    "Non-profit logo, [MISSION_SYMBOL], compassionate [PRIMARY_COLOR] palette, community-focused design, charitable organization aesthetic"
    ["no commercial styling"; "no luxury elements"; "no corporate coldness"]
    ["nonprofit"] Web
].

Definition templates : gmap string ProfessionalTemplate :=
  fold_left (fun m t => <[id t := t]> m) catalog ∅.

(** The own keys of the [styleMap] object literal of [getStyleKeywords]. *)
Definition styleMap : list (string * string) := [
  ("modern", "Contemporary minimalist");
  ("minimal", "Clean minimal geometric");
  ("geometric", "Simple geometric flat");
  ("abstract", "Abstract artistic");
  ("corporate", "Professional corporate");
  ("tech", "Modern tech sleek");
  ("elegant", "Sophisticated elegant");
  ("bold", "Strong bold impactful");
  ("vintage", "Classic vintage retro");
  ("playful", "Creative playful dynamic");
  ("classic", "Traditional classic timeless");
  ("wordmark", "Typography-focused wordmark");
  ("lettermark", "Letter-based minimal");
  ("pictorial", "Symbolic pictorial");
  ("emblem", "Badge emblem");
  ("combination", "Combined symbol-text")
].

Fixpoint assoc (k : string) (kvs : list (string * string)) : option string :=
  match kvs with
  | [] => None
  | (k', v) :: rest => if String.eqb k k' then Some v else assoc k rest
  end.

Definition getStyleKeywords (style : string) : string :=
  Js.str_or (assoc style styleMap) "Professional".

Definition colorDesc (colors : list string) : string :=
  match colors with
  | [c] => c +:+ " color scheme"
  | _ => Prompts.conjunction colors
  end.

Definition getTechnicalRequirements (options : GenerationOptions) : string :=
  let requirements :=
    ["flat vector design"; "scalable"; "professional quality"; "high contrast"] in
  let requirements :=
    match o_colors options with
    | Some (c :: cs) => (requirements ++ [colorDesc (c :: cs)])%list
    | _ => requirements
    end in
  let requirements :=
    match o_customElements options with
    | Some elements => (requirements ++ elements)%list
    | None => requirements
    end in
  Js.join ", " requirements.

Definition getDefaultNegatives : list string := [
  "no realistic details";
  "no photorealistic details";
  "no shading detail";
  "no gradients";
  "no 3D effects";
  "no complex textures"
].

(** The placeholders [interpolateTemplate] replaces, with their
    replacement text, in the order of the [replace] calls. *)
Definition replacements (request : LogoRequest) (options : GenerationOptions)
  : list (string * string) :=
  ([("[COMPANY]", company request);
    ("[PROMPT]", prompt request);
    ("[STYLE]", Js.str_or (o_style options) "modern");
    ("[INDUSTRY]", Js.str_or (o_industry options) "business")]
   ++
   match o_colors options with
   | Some (c0 :: cs) =>
       [("[PRIMARY_COLOR]", c0);
        ("[SECONDARY_COLOR]", Js.str_or (head cs) c0);
        ("[COLOR_PALETTE]", Js.join " and " (c0 :: cs))]
   | _ => []
   end)%list.

Definition interpolateTemplate (template : string) (request : LogoRequest)
           (options : GenerationOptions) : string :=
  fold_left (fun result pr => Js.replaceAll (fst pr) (snd pr) result)
            (replacements request options) template.

Definition template_not_found (t : string) : Retry.JsError :=
  Retry.mkError false (Some ("Template not found: " +:+ t)).

(** [generateFromTemplate]; [inl] is the thrown error. *)
Definition generateFromTemplate (request : LogoRequest)
           (options : GenerationOptions) : Retry.JsError + string :=
  let wanted := match o_template options with Some t => t | None => "undefined" end in
  match (match o_template options with Some t => templates !! t | None => None end) with
  | None => inl (template_not_found wanted)
  | Some template =>
      let prompt := basePrompt template in
      let prompt := interpolateTemplate prompt request options in
      let prompt := prompt +:+ getTechnicalRequirements options in
      let negatives :=
        (negativePrompts template ++
         match o_negativePrompts options with
         | Some ns => ns
         | None => []
         end)%list in
      inr (match negatives with
           | [] => prompt
           | _ => prompt +:+ " --" +:+ Js.join " --" negatives
           end)
  end.

Definition generateStructuredPrompt (request : LogoRequest)
           (options : GenerationOptions) : string :=
  let parts := [
    getStyleKeywords (Js.str_or (Js.opt_or (o_style options) (style request)) "modern");
    "logo of";
    company request +:+ ", " +:+ prompt request;
    getTechnicalRequirements options;
    "on white background"
  ] in
  let prompt := Js.join " " parts in
  let negatives :=
    (getDefaultNegatives ++
     match o_negativePrompts options with
     | Some ns => ns
     | None => []
     end)%list in
  let prompt := prompt +:+ " --" +:+ Js.join " --" negatives in
  Js.trim prompt.

Definition optimizePrompt (request : LogoRequest) (options : GenerationOptions)
  : Retry.JsError + string :=
  if Js.opt_truthy (o_template options) then generateFromTemplate request options
  else inr (generateStructuredPrompt request options).

Definition category_eqb (a b : TemplateCategory) : bool :=
  match a, b with
  | Minimal, Minimal | Corporate, Corporate | Creative, Creative
  | IndustrySpecific, IndustrySpecific => true
  | _, _ => false
  end.

Definition getTemplatesByCategory (c : TemplateCategory)
  : list ProfessionalTemplate :=
  List.filter (fun t => category_eqb (category t) c) catalog.

Definition getTemplatesForIndustry (industry : string)
  : list ProfessionalTemplate :=
  List.filter
    (fun t => existsb (String.eqb industry) (industryFit t)
              || Nat.eqb (List.length (industryFit t)) 0)
    catalog.

Definition getTemplate (id : string) : option ProfessionalTemplate :=
  templates !! id.

End Professional.

(** ** The generator ([LogoGenerator]) *)

Module Generator.
Import Types.

(** The parameters of one [client.images.generate] call. *)
Record ApiParams := mkParams {
  p_model : string;
  p_prompt : string;
  p_n : Z;
  p_size : string;
  p_quality : string;
  p_background : string;
  p_response_format : string;
  p_stream : bool
}.

Record ImageData := mkImage {
  d_url : option string;
  d_revised_prompt : option string
}.

(** What the client answers: it throws, or it returns a response whose
    [data] is absent or a list. *)
Inductive ApiAnswer :=
| ApiThrows (e : Retry.JsError)
| ApiResponse (data : option (list ImageData)).

(** The image API: its answer to the [k]-th call. *)
Definition Client := nat -> ApiParams -> ApiAnswer.

Definition calculateCost (quality : string) : Q :=
  if String.eqb quality "standard" then 7 # 100
  else if String.eqb quality "hd" then 19 # 100
  else 7 # 100.

Definition qualityMap (quality : string) : option string :=
  if String.eqb quality "standard" then Some "medium"
  else if String.eqb quality "hd" then Some "high"
  else None.

Definition buildAPIParams (prompt : string) (options : GenerationOptions)
  : ApiParams :=
  let quality := Js.str_or (qualityMap (Js.str_or (o_quality options) "standard"))
                           "medium" in
  mkParams "gpt-image-1" prompt 1 (Js.str_or (o_size options) "1024x1024")
           quality "transparent" "url" false.

(** [createMetadata]; [id] is what [generateId()] returns and [now] what
    [Date.now()] returns. *)
Definition createMetadata (id : string) (now : Z) (request : LogoRequest)
           (finalPrompt : string) (options : GenerationOptions) : LogoMetadata :=
  mkMetadata id now (company request) (prompt request) finalPrompt
    (Js.str_or (Js.opt_or (o_style options) (style request)) "modern")
    (Js.opt_or (o_industry options) (industry request))
    (Js.str_or (Js.opt_or (o_size options) (size request)) "1024x1024")
    (Js.str_or (Js.opt_or (o_quality options) (quality request)) "standard")
    (calculateCost (Js.str_or (o_quality options) "standard")).

Definition js_error (msg : string) : Retry.JsError :=
  Retry.mkError false (Some msg).

(** The operation handed to the retry wrapper. Its state is the list of
    API calls made so far. *)
Definition operation (client : Client) (id : string) (now : Z)
           (request : LogoRequest) (options : GenerationOptions)
           (optimizedPrompt : string) (calls : list ApiParams)
  : (Retry.JsError + LogoResult) * list ApiParams :=
  let apiParams := buildAPIParams optimizedPrompt options in
  let calls' := (calls ++ [apiParams])%list in
  match client (List.length calls) apiParams with
  | ApiThrows e => (inl e, calls')
  | ApiResponse None | ApiResponse (Some []) =>
      (inl (js_error "No image generated from OpenAI"), calls')
  | ApiResponse (Some (imageData :: _)) =>
      if Js.opt_truthy (d_url imageData) then
        (inr (mkResult (Js.str_or (d_url imageData) "")
                       (d_revised_prompt imageData)
                       (createMetadata id now request optimizedPrompt options)
                       None),
         calls')
      else
        (inl (js_error "No URL returned from OpenAI API. Please try again."),
         calls')
  end.

(** [generate]: the prompt is computed first; a throw there leaves the
    retry wrapper and the client untouched. *)
Definition generate (client : Client) (random : nat -> Q) (id : string) (now : Z)
           (request : LogoRequest) (options : GenerationOptions)
  : Retry.Outcome LogoResult * Retry.Run (list ApiParams) :=
  let optimizedPrompt :=
    if Js.opt_truthy (o_template options)
    then Professional.optimizePrompt request options
    else inr (Prompts.optimize request options) in
  match optimizedPrompt with
  | inl e => (Retry.Threw e, Retry.mkRun [] 0%nat [])
  | inr p =>
      Retry.execute (operation client id now request options p) random 3 []
  end.

Definition variation_modifiers : list string := [
  "with alternative composition";
  "using different color scheme";
  "with varied typography treatment";
  "featuring adjusted element positioning";
  "in alternative style approach"
].

Definition createVariationPrompt (basePrompt : string) (index : nat) : string :=
  basePrompt +:+ ", "
    +:+ nth (index mod List.length variation_modifiers) variation_modifiers "".

Definition with_prompt (request : LogoRequest) (p : string) : LogoRequest :=
  mkRequest (company request) p (style request) (industry request)
            (colors request) (size request) (quality request).

Section Variations.
Context {R : Type}.
(** The [j]-th call of [this.generate] (from 0): its outcome and what it
    did. *)
Variable call : nat -> LogoRequest -> Retry.Outcome LogoResult * R.

(** The [for] loop from index [i], [remaining] iterations left; [results]
    and [runs] are what the calls so far produced. *)
Fixpoint variations_loop (remaining i : nat) (request : LogoRequest)
         (basePrompt : string) (results : list LogoResult) (runs : list R)
  : Retry.Outcome (list LogoResult) * list R :=
  match remaining with
  | O => (Retry.Returned results, runs)
  | S remaining' =>
      let variationRequest := with_prompt request (createVariationPrompt basePrompt i) in
      match call i variationRequest with
      | (Retry.Returned variation, run) =>
          variations_loop remaining' (S i) request basePrompt
                          (results ++ [variation])%list (runs ++ [run])%list
      | (Retry.Threw e, run) => (Retry.Threw e, (runs ++ [run])%list)
      | (Retry.ThrewUndefined, run) => (Retry.ThrewUndefined, (runs ++ [run])%list)
      end
  end.

Definition variations_with (request : LogoRequest) (count : Z)
  : Retry.Outcome (list LogoResult) * list R :=
  match call 0%nat request with
  | (Retry.Returned baseResult, run) =>
      let basePrompt := Js.str_or (revisedPrompt baseResult) (prompt request) in
      variations_loop (Z.to_nat (count - 1)) 1 request basePrompt [baseResult] [run]
  | (Retry.Threw e, run) => (Retry.Threw e, [run])
  | (Retry.ThrewUndefined, run) => (Retry.ThrewUndefined, [run])
  end.
End Variations.

(** [generateVariations]: the [j]-th call of [generate] talks to the API as
    [clients j] describes, with its own random values, id and clock. *)
Definition generateVariations (clients : nat -> Client) (randoms : nat -> nat -> Q)
           (ids : nat -> string) (nows : nat -> Z)
           (request : LogoRequest) (count : Z) (options : GenerationOptions)
  : Retry.Outcome (list LogoResult) * list (Retry.Run (list ApiParams)) :=
  variations_with
    (fun j req => generate (clients j) (randoms j) (ids j) (nows j) req options)
    request count.

End Generator.

(** ** The batch command ([parseCSV], [processBatch]) *)

Module Batch.
Import Types.

Definition dquote : ascii := ascii_of_nat 34.
Definition newline : ascii := ascii_of_nat 10.

(** [v.replace(/^"|"$/g, "")]: a quote at the start goes, then a quote at
    the end of what is left. *)
Fixpoint strip_trailing_quote (s : string) : string :=
  match s with
  | EmptyString => EmptyString
  | String c EmptyString => if Ascii.eqb c dquote then EmptyString else s
  | String c s' => String c (strip_trailing_quote s')
  end.

Definition strip_quotes (s : string) : string :=
  match s with
  | String c s' =>
      if Ascii.eqb c dquote then strip_trailing_quote s'
      else strip_trailing_quote s
  | EmptyString => EmptyString
  end.

Definition clean (v : string) : string := strip_quotes (Js.trim v).

(** The [request] object while a row is read: [company] and [prompt]
    start as [""] and, like the other fields, become [undefined] when the
    row has no cell in that column. *)
Record Row := mkRow {
  r_company : option string;
  r_prompt : option string;
  r_style : option string;
  r_colors : option (list string);
  r_size : option string;
  r_quality : option string
}.

Definition empty_row : Row := mkRow (Some "") (Some "") None None None None.

(** The [switch] on the lower-cased header. *)
Definition assign (header : string) (value : option string) (request : Row) : Row :=
  let h := Js.toLowerCase header in
  if String.eqb h "company" then
    mkRow value (r_prompt request) (r_style request) (r_colors request)
          (r_size request) (r_quality request)
  else if String.eqb h "prompt" || String.eqb h "description" then
    mkRow (r_company request) value (r_style request) (r_colors request)
          (r_size request) (r_quality request)
  else if String.eqb h "style" then
    mkRow (r_company request) (r_prompt request) value (r_colors request)
          (r_size request) (r_quality request)
  else if String.eqb h "colors" then
    mkRow (r_company request) (r_prompt request) (r_style request)
          (match value with
           | Some v => if Js.truthy v then Some (map Js.trim (Js.split ";" v)) else None
           | None => None
           end)
          (r_size request) (r_quality request)
  else if String.eqb h "size" then
    mkRow (r_company request) (r_prompt request) (r_style request)
          (r_colors request) value (r_quality request)
  else if String.eqb h "quality" then
    mkRow (r_company request) (r_prompt request) (r_style request)
          (r_colors request) (r_size request) value
  else request.

(** [headers.forEach((header, idx) => ...)], from index [idx] on. *)
Fixpoint forEach_header (headers : list string) (idx : nat)
         (values : list string) (request : Row) : Row :=
  match headers with
  | [] => request
  | header :: rest =>
      forEach_header rest (S idx) values
        (assign header (nth_error values idx) request)
  end.

Definition read_row (headers : list string) (line : string) : Row :=
  let values := map clean (Js.split "," line) in
  forEach_header headers 0 values empty_row.

Definition kept (request : Row) : bool :=
  Js.opt_truthy (r_company request) && Js.opt_truthy (r_prompt request).

Definition to_request (request : Row) : LogoRequest :=
  mkRequest (Js.str_or (r_company request) "") (Js.str_or (r_prompt request) "")
            (r_style request) None (r_colors request)
            (r_size request) (r_quality request).

(** The [for] loop over the data lines, pushing onto [requests]. *)
Fixpoint rows_loop (headers : list string) (lines : list string)
         (requests : list LogoRequest) : list LogoRequest :=
  match lines with
  | [] => requests
  | line :: rest =>
      let request := read_row headers line in
      rows_loop headers rest
        (if kept request then (requests ++ [to_request request])%list
         else requests)
  end.

Definition parseCSV (content : string) : list LogoRequest :=
  let lines := Js.split newline (Js.trim content) in
  let headers := map Js.trim (Js.split "," (List.hd "" lines)) in
  rows_loop headers (List.tl lines) [].

Record BatchRequest := mkBatch {
  requests : list LogoRequest;
  concurrency : option Z;
  outputDir : option string;
  iteration : option Z;
  quiet : option bool
}.

Record BatchStats := mkStats {
  total : Z;
  n_successful : Z;
  n_failed : Z;
  totalCost : Q;
  duration : Z
}.

Record BatchResult := mkBatchResult {
  successful : list LogoResult;
  failed : list (LogoRequest * Retry.JsError);
  stats : BatchStats
}.

Section ProcessBatch.
(** [generator.generate] and [downloader.download] for the task of the
    [i]-th request: a result, or the error the promise rejects with. *)
Variable generate : nat -> LogoRequest -> GenerationOptions
                    -> Retry.JsError + LogoResult.
Variable download : nat -> LogoResult -> string -> option Z
                    -> Retry.JsError + string.
(** [downloader.createIterationManifest]: the error it rejects with, if
    any. *)
Variable createIterationManifest :
  string -> Z -> string -> list LogoResult -> option Retry.JsError.
(** [pLimit(n)] of the p-limit package: the error it throws for a bound
    it does not accept. *)
Variable pLimit : Z -> option Retry.JsError.

Definition request_options (request : LogoRequest) : GenerationOptions :=
  mkOptions (style request) None (colors request) (size request)
            (quality request) None None None.

(** The [try] block of one task up to the point where it has a result. *)
Definition attempt (batch : BatchRequest) (i : nat) (request : LogoRequest)
  : Retry.JsError + LogoResult :=
  match generate i request (request_options request) with
  | inl e => inl e
  | inr logoResult =>
      match outputDir batch with
      | Some dir =>
          if Js.truthy dir then
            match download i logoResult dir (iteration batch) with
            | inl e => inl e
            | inr path =>
                inr (mkResult (url logoResult) (revisedPrompt logoResult)
                              (metadata logoResult) (Some path))
            end
          else inr logoResult
      | None => inr logoResult
      end
  end.

(** What a task does to the shared [results] object once its awaits are
    over: the rest of the [try] block, or the [catch] block. *)
Definition settle (batch : BatchRequest) (i : nat) (request : LogoRequest)
           (results : BatchResult) : BatchResult :=
  let st := stats results in
  match attempt batch i request with
  | inr logoResult =>
      mkBatchResult
        (successful results ++ [logoResult])%list
        (failed results)
        (mkStats (total st) (n_successful st + 1) (n_failed st)
                 (totalCost st + m_cost (metadata logoResult))%Q (duration st))
  | inl error =>
      mkBatchResult
        (successful results)
        (failed results ++ [(request, error)])%list
        (mkStats (total st) (n_successful st) (n_failed st + 1)
                 (totalCost st) (duration st))
  end.

(** The tasks settle one at a time, in the order [completion] (indices
    into [batch.requests]). *)
Definition run_tasks (batch : BatchRequest) (completion : list nat)
           (results : BatchResult) : BatchResult :=
  fold_left
    (fun res i =>
       match nth_error (requests batch) i with
       | Some request => settle batch i request res
       | None => res
       end)
    completion results.

Definition z_truthy (z : option Z) : bool :=
  match z with
  | Some n => negb (n =? 0)%Z
  | None => false
  end.

Definition processBatch (batch : BatchRequest) (completion : list nat)
  : Retry.JsError + BatchResult :=
  let n := Z.of_nat (List.length (requests batch)) in
  let results := mkBatchResult [] [] (mkStats n 0 0 0%Q 0) in
  let bound := if z_truthy (concurrency batch)
               then default 3%Z (concurrency batch) else 3%Z in
  match pLimit bound with
  | Some e => inl e
  | None =>
      let results := run_tasks batch completion results in
      if z_truthy (iteration batch) && Js.opt_truthy (outputDir batch)
         && negb (Nat.eqb (List.length (successful results)) 0)
      then
        match createIterationManifest
                (default "" (outputDir batch))
                (default 0%Z (iteration batch))
                ("Batch generation: " +:+ pretty (List.length (requests batch))
                                      +:+ " logos")
                (successful results) with
        | Some e => inl e
        | None => inr results
        end
      else inr results
  end.
End ProcessBatch.

End Batch.

(** ** Identifiers ([utils/id.ts]) *)

Module Id.
Local Open Scope Z_scope.

Definition digit36 (d : Z) : ascii :=
  if d <? 10 then ascii_of_nat (Z.to_nat (48 + d))
  else ascii_of_nat (Z.to_nat (87 + d)).

(** The digits of [n] in base 36, most significant first, in front of
    [acc]. *)
Fixpoint digits36 (fuel : nat) (n : Z) (acc : string) : string :=
  match fuel with
  | O => acc
  | S fuel' =>
      let acc' := String (digit36 (n mod 36)) acc in
      if n / 36 =? 0 then acc' else digits36 fuel' (n / 36) acc'
  end.

(** [n.toString(36)] for an integer [n]. *)
Definition toString36 (n : Z) : string :=
  if n <? 0 then String "-" (digits36 (S (Z.to_nat (Z.log2 (- n)))) (- n) EmptyString)
  else digits36 (S (Z.to_nat (Z.log2 n))) n EmptyString.

(** [generateId()]: [now] is what [Date.now()] returns, [randomBytes] the
    eight bytes [crypto.getRandomValues] writes. *)
Definition generateId (now : Z) (randomBytes : list Z) : string :=
  let timestamp := toString36 now in
  let random := Js.take 8 (Sha256.encodeHex randomBytes) in
  "logo_" +:+ timestamp +:+ "_" +:+ random.

(** [generateShortId()], on the four bytes written. *)
Definition generateShortId (randomBytes : list Z) : string :=
  Js.take 6 (Sha256.encodeHex randomBytes).

End Id.

(** ** Names made of lower-case letters, digits and dashes

    [generateTemplateId] of the template command, and the company part of
    [generateFilename]. *)

Module Slug.

Definition is_alnum (c : ascii) : bool :=
  let n := nat_of_ascii c in
  ((97 <=? n)%nat && (n <=? 122)%nat) || ((48 <=? n)%nat && (n <=? 57)%nat).

Definition is_dash (c : ascii) : bool := Ascii.eqb c "-".

(** [.replace(/[^a-z0-9]/g, "-")] *)
Fixpoint dashify (s : string) : string :=
  match s with
  | EmptyString => EmptyString
  | String c s' => String (if is_alnum c then c else "-"%char) (dashify s')
  end.

(** [.replace(/-+/g, "-")]: of a run of dashes the last one stays. *)
Fixpoint collapse (s : string) : string :=
  match s with
  | EmptyString => EmptyString
  | String c s' =>
      if is_dash c then
        match s' with
        | String d _ => if is_dash d then collapse s' else String c (collapse s')
        | EmptyString => String c EmptyString
        end
      else String c (collapse s')
  end.

(** [.replace(/^-|-$/g, "")]: a dash at the start goes, then a dash at the
    end of what is left. *)
Fixpoint strip_trailing_dash (s : string) : string :=
  match s with
  | EmptyString => EmptyString
  | String c EmptyString => if is_dash c then EmptyString else s
  | String c s' => String c (strip_trailing_dash s')
  end.

Definition strip_dashes (s : string) : string :=
  match s with
  | String c s' => if is_dash c then strip_trailing_dash s' else strip_trailing_dash s
  | EmptyString => EmptyString
  end.

Definition generateTemplateId (name : string) : string :=
  strip_dashes (collapse (dashify (Js.toLowerCase name))).

End Slug.

(** ** Image downloader ([ImageDownloader])

    Files are kept by path; directories are implicit in the paths, so that
    [ensureDir] only contributes its possible failure. A file holds bytes
    (which [JSON.parse] rejects), a metadata object or a manifest object;
    other fields a JSON object may carry are outside the model. [join] of
    the path library and [toISOString] of [Date] are parameters. *)

Module Downloader.
Import Types.

Record LogoSummary := mkSummary {
  s_company : string;
  s_id : string;
  s_style : string;
  s_cost : Q
}.

Record IterationData := mkIteration {
  i_iteration : Z;
  i_timestamp : Z;
  i_description : string;
  i_count : nat;
  i_totalCost : Q;
  i_logos : list LogoSummary
}.

Inductive FileData :=
| Binary (body : string)
| MetadataJson (m : LogoMetadata)
| ManifestJson (iterations : option (list IterationData)).

Inductive FetchResult :=
| FetchThrows (e : Retry.JsError)
| FetchResponse (ok : bool) (statusText : string) (body : Retry.JsError + string).

(** The outside world of one run: what [fetch] answers for a URL, and the
    error, if any, that creating a directory or writing a path runs
    into. *)
Record Env := mkEnv {
  fetch : string -> FetchResult;
  ensureDir_error : string -> option Retry.JsError;
  write_error : string -> option Retry.JsError
}.

Definition error_message (e : Retry.JsError) : string :=
  default "" (Retry.message e).

(** [new Error(`Failed to download image: ${...}`)] *)
Definition download_failed (text : string) : Retry.JsError :=
  Retry.mkError false (Some ("Failed to download image: " +:+ text)).

(** [s.slice(-n)] *)
Definition last_chars (n : nat) (s : string) : string :=
  Js.drop (String.length s - n) s.

Definition summary (r : LogoResult) : LogoSummary :=
  mkSummary (m_company (metadata r)) (m_id (metadata r)) (m_style (metadata r))
            (m_cost (metadata r)).

Section Paths.
Variable join : list string -> string.
(** [new Date(t).toISOString()], which throws on a time out of range. *)
Variable toISOString : Z -> Retry.JsError + string.
Variable env : Env.

Definition generateFilename (metadata : LogoMetadata) : Retry.JsError + string :=
  let sanitizedCompany := Slug.generateTemplateId (m_company metadata) in
  match toISOString (m_timestamp metadata) with
  | inl e => inl e
  | inr iso =>
      let timestamp := Js.take 10 iso in
      inr (sanitizedCompany +:+ "-" +:+ m_style metadata +:+ "-" +:+ timestamp
             +:+ "-" +:+ last_chars 6 (m_id metadata) +:+ ".png")
  end.

Definition metadata_path (outputDir logoId : string) : string :=
  join [outputDir; ".metadata"; logoId +:+ ".json"].

(** [saveMetadata]; [inl] is what it throws. *)
Definition saveMetadata (metadata : LogoMetadata) (outputDir : string)
           (fs : gmap string FileData) : Retry.JsError + gmap string FileData :=
  let metadataPath := metadata_path outputDir (m_id metadata) in
  match ensureDir_error env (join [outputDir; ".metadata"]) with
  | Some e => inl e
  | None =>
      match write_error env metadataPath with
      | Some e => inl e
      | None => inr (<[metadataPath := MetadataJson metadata]> fs)
      end
  end.

Definition final_dir (outputDir : string) (iteration : option Z) : string :=
  match iteration with
  | Some n =>
      if (n =? 0)%Z then outputDir
      else join [outputDir; "iteration-" +:+ pretty n]
  | None => outputDir
  end.

Definition download (result : LogoResult) (outputDir : string)
           (iteration : option Z) (fs : gmap string FileData)
  : (Retry.JsError + string) * gmap string FileData :=
  let finalOutputDir := final_dir outputDir iteration in
  match ensureDir_error env finalOutputDir with
  | Some e => (inl e, fs)
  | None =>
      match generateFilename (metadata result) with
      | inl e => (inl e, fs)
      | inr filename =>
          let filepath := join [finalOutputDir; filename] in
          let failed (e : Retry.JsError) := inl (download_failed (error_message e)) in
          match fetch env (url result) with
          | FetchThrows e => (failed e, fs)
          | FetchResponse false statusText _ =>
              (failed (download_failed statusText), fs)
          | FetchResponse true _ (inl e) => (failed e, fs)
          | FetchResponse true _ (inr imageBuffer) =>
              match write_error env filepath with
              | Some e => (failed e, fs)
              | None =>
                  let fs1 := <[filepath := Binary imageBuffer]> fs in
                  match saveMetadata (metadata result) finalOutputDir fs1 with
                  | inl e => (failed e, fs1)
                  | inr fs2 => (inr filepath, fs2)
                  end
              end
          end
      end
  end.

(** [downloadBatch]: a failed download is logged and skipped. *)
Fixpoint downloadBatch (results : list LogoResult) (outputDir : string)
         (iteration : option Z) (filepaths : list string)
         (fs : gmap string FileData) : list string * gmap string FileData :=
  match results with
  | [] => (filepaths, fs)
  | result :: rest =>
      match download result outputDir iteration fs with
      | (inr filepath, fs') =>
          downloadBatch rest outputDir iteration (filepaths ++ [filepath])%list fs'
      | (inl _, fs') => downloadBatch rest outputDir iteration filepaths fs'
      end
  end.

Definition loadMetadata (logoId outputDir : string) (fs : gmap string FileData)
  : option FileData :=
  match fs !! metadata_path outputDir logoId with
  | Some (Binary _) => None
  | Some json => Some json
  | None => None
  end.

Definition total_cost (results : list LogoResult) : Q :=
  fold_left (fun sum r => (sum + m_cost (metadata r))%Q) results 0%Q.

(** [createIterationManifest]; [now] is what [Date.now()] returns. The
    result is the error of the final write, if any. *)
Definition createIterationManifest (now : Z) (outputDir : string) (iteration : Z)
           (description : string) (results : list LogoResult)
           (fs : gmap string FileData)
  : option Retry.JsError * gmap string FileData :=
  let manifestPath := join [outputDir; "iterations.json"] in
  let manifest : option (list IterationData) :=
    match fs !! manifestPath with
    | Some (ManifestJson iterations) => iterations
    | Some (MetadataJson _) => None
    | Some (Binary _) | None => Some []
    end in
  let iterationData :=
    mkIteration iteration now description (List.length results)
                (total_cost results) (map summary results) in
  let iterations := (default [] manifest ++ [iterationData])%list in
  match write_error env manifestPath with
  | Some e => (Some e, fs)
  | None => (None, <[manifestPath := ManifestJson (Some iterations)]> fs)
  end.
End Paths.

End Downloader.

(** ** The generate command ([cli/commands/generate.ts]) *)

Module Cli.
Import Types.

Definition validStyles : list string := [
  "modern"; "vintage"; "minimal"; "playful"; "classic"; "bold"; "elegant";
  "tech"; "geometric"; "abstract"; "wordmark"; "lettermark"; "pictorial";
  "emblem"; "combination"
].

Definition list_includes (xs : list string) (value : string) : bool :=
  existsb (String.eqb value) xs.

Definition isValidLogoStyle (value : string) : bool := list_includes validStyles value.

Definition isValidImageSize (value : string) : bool :=
  list_includes ["1024x1024"; "1024x1792"; "1792x1024"] value.

Definition isValidImageQuality (value : string) : bool :=
  String.eqb value "standard" || String.eqb value "hd".

Definition isValidAIModel (value : string) : bool := String.eqb value "gpt-image-1".

Definition validIndustries : list string := [
  "technology"; "healthcare"; "finance"; "retail"; "education"; "food";
  "real-estate"; "consulting"; "creative"; "automotive"; "entertainment";
  "legal"; "nonprofit"
].

Definition isValidIndustry (value : string) : bool := list_includes validIndustries value.

(** The options of the command that reach the generator. *)
Record CommandOptions := mkCommand {
  c_prompt : string;
  c_company : string;
  c_style : option string;
  c_template : option string;
  c_size : option string;
  c_quality : option string;
  c_colors : option string;
  c_industry : option string
}.

(** [value && valid(value) ? value : fallback] *)
Definition checked (valid : string -> bool) (value : option string)
  : option string :=
  match value with
  | Some v => if Js.truthy v && valid v then Some v else None
  | None => None
  end.

Definition style_of (o : CommandOptions) : string :=
  default "modern" (checked isValidLogoStyle (c_style o)).

Definition size_of (o : CommandOptions) : string :=
  default "1024x1024" (checked isValidImageSize (c_size o)).

Definition quality_of (o : CommandOptions) : string :=
  default "standard" (checked isValidImageQuality (c_quality o)).

Definition industry_of (o : CommandOptions) : option string :=
  checked isValidIndustry (c_industry o).

(** The cost the command prints per image. *)
Definition costPerImage (quality : string) : Q :=
  if String.eqb quality "hd" then 16 # 100 else 4 # 100.

Definition colors_of (o : CommandOptions) : option (list string) :=
  match c_colors o with
  | Some cs => if Js.truthy cs then Some (map Js.trim (Js.split "," cs)) else None
  | None => None
  end.

Definition request_of (o : CommandOptions) : LogoRequest :=
  mkRequest (c_company o) (c_prompt o) (Some (style_of o)) None (colors_of o)
            (Some (size_of o)) (Some (quality_of o)).

Definition generationOptions (o : CommandOptions) : GenerationOptions :=
  mkOptions (Some (style_of o)) (industry_of o) (colors_of o) (Some (size_of o))
            (Some (quality_of o)) (c_template o) None None.

End Cli.

(** * Properties *)

(** ** Strings *)

Module JsFacts.
Import Js.

Lemma append_nil_r (s : string) : s +:+ "" = s.
Proof. induction s as [|c s IH]; simpl; congruence. Qed.

Lemma append_assoc (a b c : string) : (a +:+ b) +:+ c = a +:+ (b +:+ c).
Proof. induction a as [|x a IH]; simpl; congruence. Qed.

Lemma length_append (a b : string) :
  String.length (a +:+ b) = (String.length a + String.length b)%nat.
Proof. induction a as [|x a IH]; simpl; congruence. Qed.

Lemma truthy_nonempty (s : string) : truthy s = true <-> s <> "".
Proof.
  unfold truthy. destruct (String.eqb_spec s ""); simpl; split; congruence.
Qed.

Lemma strip_prefix_Some (p s r : string) :
  strip_prefix p s = Some r <-> s = p +:+ r.
Proof.
  revert s. induction p as [|a p IH]; intros s; simpl.
  - split; congruence.
  - destruct s as [|b s]; [split; discriminate|].
    destruct (Ascii.eqb_spec a b) as [->|Hne].
    + rewrite IH. split; congruence.
    + split; [discriminate|]. intros [= <- _]. congruence.
Qed.

Lemma strip_prefix_append (p r : string) : strip_prefix p (p +:+ r) = Some r.
Proof. now apply strip_prefix_Some. Qed.

Lemma prefix_iff (p s : string) :
  String.prefix p s = true <-> exists r, s = p +:+ r.
Proof.
  revert s. induction p as [|a p IH]; intros s.
  - destruct s; simpl; split; eauto.
  - destruct s as [|b s]; simpl.
    + split; [discriminate|]. intros [r Hr]. discriminate.
    + destruct (ascii_dec a b) as [->|Hne].
      * specialize (IH s). destruct IH as [IH1 IH2]. split.
        -- intros H. destruct (IH1 H) as [r Hr]. exists r. congruence.
        -- intros [r Hr]. apply IH2. exists r. congruence.
      * split; [discriminate|]. intros [r Hr]. congruence.
Qed.

(** [t] occurs in [s]. *)
Definition occurs (t s : string) : Prop := exists a b, s = a +:+ t +:+ b.

Lemma includes_occurs (t s : string) : includes t s = true <-> occurs t s.
Proof.
  induction s as [|c s IH]; cbn [includes].
  - rewrite orb_false_r, prefix_iff. split.
    + intros [r Hr]. exists "", r. exact Hr.
    + intros [[|x a] [b Hb]]; [eauto | discriminate].
  - rewrite orb_true_iff, prefix_iff, IH. split.
    + intros [[r Hr] | [a [b Hab]]].
      * exists "", r. exact Hr.
      * exists (String c a), b. simpl. congruence.
    + intros [[|x a] [b Hb]]; simpl in Hb.
      * left. eauto.
      * right. injection Hb as _ Hb. exists a, b. exact Hb.
Qed.

Lemma occurs_append_l (t a s : string) : occurs t s -> occurs t (a +:+ s).
Proof.
  intros [x [y ->]]. exists (a +:+ x), y. now rewrite append_assoc.
Qed.

Lemma occurs_append_r (t s b : string) : occurs t s -> occurs t (s +:+ b).
Proof.
  intros [x [y ->]]. exists x, (y +:+ b). now rewrite !append_assoc.
Qed.

Lemma occurs_cons (t : string) (c : ascii) (s : string) :
  occurs t s -> occurs t (String c s).
Proof. apply (occurs_append_l t (String c "")). Qed.

Lemma prefix_append (p r : string) : String.prefix p (p +:+ r) = true.
Proof. apply prefix_iff. eauto. Qed.

Lemma endsWith_append (a suffix : string) : endsWith suffix (a +:+ suffix) = true.
Proof.
  unfold endsWith. rewrite length_append.
  replace (String.length a + String.length suffix - String.length suffix)%nat
    with (String.length a) by lia.
  apply andb_true_intro. split; [apply Nat.leb_le; lia|].
  apply String.eqb_eq. induction a as [|c a IH]; simpl; [reflexivity | exact IH].
Qed.

Lemma drop_split (k : nat) (z : string) :
  (k <= String.length z)%nat ->
  exists a, z = a +:+ drop k z /\ String.length a = k.
Proof.
  revert z. induction k as [|k IH]; intros z Hz.
  - exists "". split; reflexivity.
  - destruct z as [|d z]; simpl in Hz; [lia|].
    destruct (IH z ltac:(lia)) as [a [Ha1 Ha2]].
    exists (String d a). simpl. split; congruence.
Qed.

(** Wherever [p] starts a text in which [t] occurs at offset [a], that
    offset lies behind [p]: an occurrence of [t] never begins inside one
    of [p]. *)
Definition disjoint_from (p t : string) : Prop :=
  forall a b r, p +:+ r = a +:+ t +:+ b -> (String.length p <= String.length a)%nat.

(** While no occurrence of the pattern starts inside [u], the scan copies
    [u]. *)
Lemma replace_go_copies (pat replacement : string) :
  forall fuel before u v,
    (String.length u <= fuel)%nat ->
    (forall k, (k < String.length u)%nat ->
               strip_prefix pat (drop k (u +:+ v)) = None) ->
    exists w, replace_go fuel pat replacement before (u +:+ v) = u +:+ w.
Proof.
  induction fuel as [|f IH]; intros before u v Hl Hno.
  - destruct u; simpl in Hl; [|lia]. eexists. reflexivity.
  - destruct u as [|d u]; [eexists; reflexivity|].
    simpl. pose proof (Hno 0%nat ltac:(simpl; lia)) as H0. simpl in H0.
    rewrite H0.
    destruct (IH (before +:+ String d "") u v) as [w Hw].
    + simpl in Hl. lia.
    + intros k Hk. apply (Hno (S k)). simpl. lia.
    + exists w. now rewrite Hw.
Qed.

(** A global replacement keeps every occurrence of a text that cannot
    overlap the pattern. *)
Lemma replace_go_keeps (pat replacement t : string) :
  pat <> "" -> disjoint_from pat t -> disjoint_from t pat ->
  forall fuel before s,
    (String.length s < fuel)%nat -> occurs t s ->
    occurs t (replace_go fuel pat replacement before s).
Proof.
  intros Hpat Hpt Htp. induction fuel as [|fuel IH]; intros before s Hlen Hocc;
    [lia|].
  simpl. destruct (strip_prefix pat s) as [rest|] eqn:Hsp.
  - apply strip_prefix_Some in Hsp. subst s.
    apply occurs_append_l. apply IH.
    + rewrite length_append in Hlen. destruct pat; [congruence|]. simpl in Hlen. lia.
    + destruct Hocc as [a [b Hab]].
      pose proof (Hpt a b rest Hab) as Hle.
      clear IH Hlen Hpt Htp Hpat. revert a Hab Hle.
      induction pat as [|c pat IHp]; intros a Hab Hle; simpl in *.
      * exists a, b. exact Hab.
      * destruct a as [|x a]; simpl in *; [lia|].
        injection Hab as _ Hab. apply (IHp a Hab). lia.
  - destruct s as [|c s]; [exact Hocc|].
    destruct Hocc as [[|x a] [b Hab]].
    + (* the occurrence starts at the cursor: it is copied *)
      simpl in Hab.
      destruct (replace_go_copies pat replacement (S fuel) before t b) as [w Hw].
      * rewrite Hab, length_append in Hlen. lia.
      * intros k Hk.
        destruct (strip_prefix pat (drop k (t +:+ b))) as [r|] eqn:Hk2;
          [exfalso|reflexivity].
        apply strip_prefix_Some in Hk2.
        destruct (drop_split k (t +:+ b)) as [a' [Ha1 Ha2]].
        { rewrite length_append. lia. }
        rewrite Hk2 in Ha1. pose proof (Htp a' r b Ha1). lia.
      * rewrite <- Hab in Hw. simpl in Hw. rewrite Hsp in Hw.
        rewrite Hw. exists "", w. reflexivity.
    + simpl in Hab. injection Hab as <- Hs.
      apply occurs_cons. apply IH; [simpl in Hlen; lia|].
      exists a, b. exact Hs.
Qed.

Lemma replaceAll_keeps (pat replacement t s : string) :
  disjoint_from pat t -> disjoint_from t pat ->
  occurs t s -> occurs t (replaceAll pat replacement s).
Proof.
  intros Hpt Htp Hocc. unfold replaceAll. destruct pat as [|c pat]; [exact Hocc|].
  apply replace_go_keeps; try assumption; [discriminate | lia].
Qed.

(** Lower case: ASCII capitals, the Kelvin sign and the dotted capital I
    are lowered, an accented capital (U+00C9) is kept as it is. *)
Example toLowerCase_samples :
  toLowerCase ("Rate LIMIT, networ" +:+ of_bytes [226; 132; 170]%nat)
  = "rate limit, network" /\
  toLowerCase (of_bytes [196; 176]%nat +:+ "D")
  = "i" +:+ of_bytes [204; 135]%nat +:+ "d" /\
  toLowerCase (of_bytes [195; 137]%nat +:+ "COLE") = of_bytes [195; 137]%nat +:+ "cole".
Proof. repeat split; vm_compute; reflexivity. Qed.

End JsFacts.

(** ** Retry wrapper *)

Module RetryFacts.
Import Retry.

Lemma invocations_app (tr1 tr2 : list Event) :
  invocations (tr1 ++ tr2) = (invocations tr1 + invocations tr2)%nat.
Proof. unfold invocations. now rewrite List.filter_app, length_app. Qed.

Lemma sleeps_app (tr1 tr2 : list Event) :
  sleeps (tr1 ++ tr2) = (sleeps tr1 ++ sleeps tr2)%list.
Proof. unfold sleeps. apply omap_app. Qed.

(** What holds of the operation's state at the start and is kept by every
    invocation holds at the end of the loop. *)
Lemma loop_state_invariant {S T : Type} (op : S -> (JsError + T) * S)
      (random : nat -> Q) (maxRetries : Z) (Inv : S -> Prop) :
  (forall s, Inv s -> Inv (snd (op s))) ->
  forall remaining attempt lastError st,
    Inv (op_state st) ->
    Inv (op_state (snd (loop op random maxRetries remaining attempt lastError st))).
Proof.
  intros Hop. induction remaining as [|n IH]; intros attempt lastError st Hst; simpl.
  - exact Hst.
  - pose proof (Hop (op_state st) Hst) as Hnext.
    destruct (op (op_state st)) as [[error|v] s']; simpl in Hnext.
    + destruct (isRateLimitError error); [now apply IH|].
      destruct (isRetryableError error && (attempt <? maxRetries)%Z);
        [now apply IH | exact Hnext].
    + exact Hnext.
Qed.

(** A value [execute] returns is a value the operation returned. *)
Lemma loop_returned {S T : Type} (op : S -> (JsError + T) * S)
      (random : nat -> Q) (maxRetries : Z) (R : T -> Prop) :
  (forall s v, fst (op s) = inr v -> R v) ->
  forall remaining attempt lastError st v,
    fst (loop op random maxRetries remaining attempt lastError st) = Returned v ->
    R v.
Proof.
  intros Hop. induction remaining as [|n IH]; intros attempt lastError st v; simpl.
  - destruct lastError; discriminate.
  - pose proof (Hop (op_state st)) as Hv.
    destruct (op (op_state st)) as [[error|v'] s']; simpl in Hv.
    + destruct (isRateLimitError error); [apply IH|].
      destruct (isRetryableError error && (attempt <? maxRetries)%Z);
        [apply IH | discriminate].
    + simpl. intros [= <-]. now apply Hv.
Qed.

(** C5. An operation that fails twice with a rate-limit error and then
    succeeds makes [execute(op, 3)] return the success value after exactly
    three invocations. An operation whose failure is neither a rate-limit
    nor a retryable error makes [execute(op, 3)] throw that very error
    after exactly one invocation: no backoff is computed, nothing is
    slept. *)
Theorem execute_retries_then_surfaces
  {S T : Type} (flaky fatal : S -> (JsError + T) * S) (random : nat -> Q)
  (s0 s1 s2 s3 f0 f1 : S) (e1 e2 e : JsError) (v : T) :
  flaky s0 = (inl e1, s1) -> isRateLimitError e1 = true ->
  flaky s1 = (inl e2, s2) -> isRateLimitError e2 = true ->
  flaky s2 = (inr v, s3) ->
  fatal f0 = (inl e, f1) ->
  isRateLimitError e = false -> isRetryableError e = false ->
  (fst (execute flaky random 3 s0) = Returned v /\
   invocations (trace (snd (execute flaky random 3 s0))) = 3%nat) /\
  (fst (execute fatal random 3 f0) = Threw e /\
   invocations (trace (snd (execute fatal random 3 f0))) = 1%nat /\
   sleeps (trace (snd (execute fatal random 3 f0))) = [] /\
   draws (snd (execute fatal random 3 f0)) = 0%nat).
Proof.
  intros H0 R1 H1 R2 H2 F0 NR NT. split.
  - unfold execute. simpl. rewrite H0, R1. simpl. rewrite H1, R2. simpl.
    rewrite H2. simpl. split; reflexivity.
  - unfold execute. simpl. rewrite F0, NR, NT. simpl. repeat split; reflexivity.
Qed.

Definition rate_limited : JsError := mkError false (Some "Rate limit exceeded").
Definition invalid_key : JsError := mkError false (Some "Invalid API key").

(** Fails on its first two invocations, then returns 42; the state counts
    the invocations. *)
Definition flaky_op (k : nat) : (JsError + nat) * nat :=
  (if (k <? 2)%nat then inl rate_limited else inr 42%nat, S k).

Definition fatal_op (k : nat) : (JsError + nat) * nat := (inl invalid_key, S k).

Lemma execute_retries_then_surfaces_witness :
  (fst (execute flaky_op (fun _ => 1 # 2) 3 0%nat) = Returned 42%nat /\
   invocations (trace (snd (execute flaky_op (fun _ => 1 # 2) 3 0%nat))) = 3%nat) /\
  (fst (execute fatal_op (fun _ => 1 # 2) 3 0%nat) = Threw invalid_key /\
   invocations (trace (snd (execute fatal_op (fun _ => 1 # 2) 3 0%nat))) = 1%nat /\
   sleeps (trace (snd (execute fatal_op (fun _ => 1 # 2) 3 0%nat))) = [] /\
   draws (snd (execute fatal_op (fun _ => 1 # 2) 3 0%nat)) = 0%nat).
Proof.
  apply (execute_retries_then_surfaces flaky_op fatal_op (fun _ => 1 # 2)
           0%nat 1%nat 2%nat 3%nat 0%nat 1%nat rate_limited rate_limited
           invalid_key 42%nat); reflexivity.
Defined.

(** The delay of the [k]-th sleep (from 0): attempt [k + 1], jitter from
    the [k]-th value of [Math.random()]. *)
Definition nth_delay (random : nat -> Q) (k : nat) : Q :=
  Qmin (1000 * 2 ^ (Z.of_nat (S k) - 1) + jitter (random k))%Q 30000%Q.

Lemma backoff_sleeps {S : Type} (random : nat -> Q) (maxRetries : Z)
      (warn : Q -> Z -> Z -> Event) (attempt : Z) (st : Run S) :
  warn = WarnRateLimited \/ warn = WarnTemporary ->
  attempt = Z.of_nat (Datatypes.S (draws st)) ->
  sleeps (trace st) = map (nth_delay random) (seq 0 (draws st)) ->
  let st' := backoff random maxRetries warn attempt st in
  (attempt + 1)%Z = Z.of_nat (Datatypes.S (draws st')) /\
  sleeps (trace st') = map (nth_delay random) (seq 0 (draws st')).
Proof.
  intros Hwarn Hatt Hsl. unfold backoff. cbn [draws trace]. split; [lia|].
  rewrite sleeps_app, Hsl, seq_S, map_app. subst attempt.
  destruct Hwarn as [-> | ->]; reflexivity.
Qed.

Lemma loop_sleeps {S T : Type} (op : S -> (JsError + T) * S)
      (random : nat -> Q) (maxRetries : Z) :
  forall remaining attempt lastError st,
    attempt = Z.of_nat (Datatypes.S (draws st)) ->
    sleeps (trace st) = map (nth_delay random) (seq 0 (draws st)) ->
    let run := snd (loop op random maxRetries remaining attempt lastError st) in
    sleeps (trace run) = map (nth_delay random) (seq 0 (draws run)).
Proof.
  induction remaining as [|n IH]; intros attempt lastError st Hatt Hsl; simpl.
  - exact Hsl.
  - destruct (op (op_state st)) as [[error|v] s'].
    + assert (Hst1 : sleeps (trace st ++ [Invoke])
                     = map (nth_delay random) (seq 0 (draws st))).
      { now rewrite sleeps_app, app_nil_r. }
      destruct (isRateLimitError error).
      * apply IH;
          apply (backoff_sleeps random maxRetries WarnRateLimited attempt
                   (mkRun s' (draws st) (trace st ++ [Invoke]))); auto.
      * destruct (isRetryableError error && (attempt <? maxRetries)%Z).
        -- apply IH;
             apply (backoff_sleeps random maxRetries WarnTemporary attempt
                      (mkRun s' (draws st) (trace st ++ [Invoke]))); auto.
        -- exact Hst1.
    + simpl. now rewrite sleeps_app, app_nil_r.
Qed.

(** C6. In any run of [execute], the [k]-th sleep (counting from 0)
    follows attempt [a = k + 1] and lasts
    [min(1000 * 2^(a-1) + j, 30000)] milliseconds, where the jitter [j] is
    1000 times the [k]-th value of [Math.random()]: every attempt draws
    its own value, and a value in [[0, 1)] gives a jitter in
    [[0, 1000)]. *)
Theorem backoff_delay_fresh_jitter
  {S T : Type} (op : S -> (JsError + T) * S) (random : nat -> Q)
  (maxRetries : Z) (s0 : S) :
  (forall k, (0 <= random k)%Q /\ (random k < 1)%Q) ->
  let run := snd (execute op random maxRetries s0) in
  sleeps (trace run) =
    map (fun k =>
           let a := Z.of_nat (k + 1) in
           let j := (random k * 1000)%Q in
           Qmin (1000 * 2 ^ (a - 1) + j)%Q 30000%Q)
        (seq 0 (draws run)) /\
  (forall a r, calculateBackoffDelay a r
               = Qmin (1000 * 2 ^ (a - 1) + r * 1000)%Q 30000%Q) /\
  (forall k, (0 <= random k * 1000)%Q /\ (random k * 1000 < 1000)%Q).
Proof.
  intros Hrand. split; [|split].
  - pose proof (loop_sleeps op random maxRetries (Z.to_nat maxRetries) 1 None
                  (mkRun s0 0%nat []) eq_refl eq_refl) as H.
    simpl in H. unfold execute. rewrite H.
    apply map_ext. intros k. unfold nth_delay, jitter.
    replace (k + 1)%nat with (Datatypes.S k) by lia. reflexivity.
  - reflexivity.
  - intros k. destruct (Hrand k) as [H0 H1]. split.
    + apply Qmult_le_0_compat; [exact H0 | discriminate].
    + change (1000%Q) with (1 * 1000)%Q at 2.
      apply Qmult_lt_compat_r; [reflexivity | exact H1].
Qed.

(** Always rate limited: every attempt backs off. *)
Definition limited_op (k : nat) : (JsError + nat) * nat :=
  (inl rate_limited, S k).

(** Successive values of [Math.random()]: 1/4, 1/2, 3/4. *)
Definition sample_random (k : nat) : Q :=
  match k with
  | O => 1 # 4
  | S O => 1 # 2
  | _ => 3 # 4
  end.

Lemma backoff_delay_fresh_jitter_witness :
  sleeps (trace (snd (execute limited_op sample_random 3 0%nat)))
  = [Qmin (1000 * 2 ^ 0 + (1 # 4) * 1000)%Q 30000%Q;
     Qmin (1000 * 2 ^ 1 + (1 # 2) * 1000)%Q 30000%Q;
     Qmin (1000 * 2 ^ 2 + (3 # 4) * 1000)%Q 30000%Q].
Proof.
  pose proof (backoff_delay_fresh_jitter limited_op sample_random 3 0%nat) as H.
  destruct H as [H _].
  - intros [|[|k]]; split; simpl; unfold Qle, Qlt; simpl; lia.
  - exact H.
Defined.

End RetryFacts.

(** ** Cache key derivation *)

Module KeyFacts.
Import Cache.

Lemma ascii_compare_N (a b : ascii) :
  Ascii.compare a b = N.compare (N_of_ascii a) (N_of_ascii b).
Proof. reflexivity. Qed.

Lemma compare_trans_le (s1 : string) :
  forall s2 s3,
    String.compare s1 s2 <> Gt -> String.compare s2 s3 <> Gt ->
    String.compare s1 s3 <> Gt.
Proof.
  induction s1 as [|c1 s1 IH]; intros [|c2 s2] [|c3 s3]; simpl; try congruence.
  rewrite !ascii_compare_N.
  destruct (N.compare_spec (N_of_ascii c1) (N_of_ascii c2)) as [E12|L12|G12];
    destruct (N.compare_spec (N_of_ascii c2) (N_of_ascii c3)) as [E23|L23|G23];
    try congruence; intros H12 H23.
  - rewrite E12, E23, N.compare_refl. now apply (IH s2).
  - rewrite E12. now apply N.compare_lt_iff in L23 as ->.
  - rewrite <- E23. now apply N.compare_lt_iff in L12 as ->.
  - assert (L13 : (N_of_ascii c1 < N_of_ascii c3)%N) by lia.
    now apply N.compare_lt_iff in L13 as ->.
Qed.

Lemma leb_trans (s1 s2 s3 : string) :
  String.leb s1 s2 = true -> String.leb s2 s3 = true -> String.leb s1 s3 = true.
Proof.
  unfold String.leb. intros H12 H23.
  pose proof (compare_trans_le s1 s2 s3) as H.
  destruct (String.compare s1 s2); destruct (String.compare s2 s3);
    destruct (String.compare s1 s3); try reflexivity; try discriminate;
    exfalso; apply H; congruence.
Qed.

Lemma unit_key_involutive (c : ascii) : unit_key (unit_key c) = c.
Proof. destruct c as [[] [] [] [] [] [] [] []]; reflexivity. Qed.

Lemma unit_keys_injective (x y : string) : unit_keys x = unit_keys y -> x = y.
Proof.
  revert y. induction x as [|a x IH]; intros [|b y]; cbn [unit_keys];
    try discriminate; [reflexivity|].
  intros [= Hab Hxy]. rewrite (IH y Hxy).
  now rewrite <- (unit_key_involutive a), Hab, unit_key_involutive.
Qed.

Lemma code_unit_leb_trans (s1 s2 s3 : string) :
  code_unit_leb s1 s2 = true -> code_unit_leb s2 s3 = true ->
  code_unit_leb s1 s3 = true.
Proof. unfold code_unit_leb. apply leb_trans. Qed.

Lemma code_unit_leb_antisym (x y : string) :
  code_unit_leb x y = true -> code_unit_leb y x = true -> x = y.
Proof.
  unfold code_unit_leb. intros Hxy Hyx.
  apply unit_keys_injective. now apply String.leb_antisym.
Qed.

Lemma leb_false_flip (x y : string) :
  code_unit_leb x y = false -> code_unit_leb y x = true.
Proof.
  unfold code_unit_leb.
  destruct (String.leb_total (unit_keys x) (unit_keys y)); congruence.
Qed.

(** On ASCII text the order is the order of the characters. *)
Lemma unit_keys_ascii (s : string) :
  forallb (fun c => (nat_of_ascii c <? 128)%nat) (list_ascii_of_string s) = true ->
  unit_keys s = s.
Proof.
  induction s as [|c s IH]; cbn [unit_keys list_ascii_of_string forallb];
    [reflexivity|].
  intros H. apply andb_prop in H. destruct H as [Hc Hs]. rewrite (IH Hs).
  apply Nat.ltb_lt in Hc. unfold unit_key. cbv zeta.
  destruct (Nat.eqb_spec (nat_of_ascii c) 238); [exfalso; lia|].
  destruct (Nat.eqb_spec (nat_of_ascii c) 239); [exfalso; lia|].
  destruct (Nat.eqb_spec (nat_of_ascii c) 254); [exfalso; lia|].
  destruct (Nat.eqb_spec (nat_of_ascii c) 255); [exfalso; lia|].
  reflexivity.
Qed.

(** Two insertions commute: the order is total, transitive and
    antisymmetric. *)
Lemma insert_sorted_comm (x y : string) (l : list string) :
  insert_sorted x (insert_sorted y l) = insert_sorted y (insert_sorted x l).
Proof.
  induction l as [|z l IH]; simpl.
  - destruct (code_unit_leb x y) eqn:Hxy, (code_unit_leb y x) eqn:Hyx; try reflexivity.
    + now rewrite (code_unit_leb_antisym x y Hxy Hyx).
    + apply leb_false_flip in Hxy. congruence.
  - destruct (code_unit_leb y z) eqn:Hyz, (code_unit_leb x z) eqn:Hxz; simpl;
      rewrite ?Hyz, ?Hxz.
    + destruct (code_unit_leb x y) eqn:Hxy, (code_unit_leb y x) eqn:Hyx;
        try reflexivity.
      * now rewrite (code_unit_leb_antisym x y Hxy Hyx).
      * apply leb_false_flip in Hxy. congruence.
    + destruct (code_unit_leb x y) eqn:Hxy; [|reflexivity].
      rewrite (code_unit_leb_trans x y z Hxy Hyz) in Hxz. discriminate.
    + destruct (code_unit_leb y x) eqn:Hyx; [|reflexivity].
      rewrite (code_unit_leb_trans y x z Hyx Hxz) in Hyz. discriminate.
    + now rewrite IH.
Qed.

Lemma sort_permutation_eq (l1 l2 : list string) :
  Permutation l1 l2 -> sort l1 = sort l2.
Proof.
  induction 1 as [|x l1 l2 _ IH|x y l|l1 l2 l3 _ IH1 _ IH2]; simpl.
  - reflexivity.
  - now rewrite IH.
  - apply insert_sorted_comm.
  - congruence.
Qed.

Lemma insert_sorted_permutation (x : string) (l : list string) :
  Permutation (x :: l) (insert_sorted x l).
Proof.
  induction l as [|y l IH]; simpl; [reflexivity|].
  destruct (code_unit_leb x y); [reflexivity|].
  rewrite perm_swap. now apply perm_skip.
Qed.

Lemma sort_permutation (l : list string) : Permutation l (sort l).
Proof.
  induction l as [|x l IH]; simpl; [reflexivity|].
  rewrite <- insert_sorted_permutation. now apply perm_skip.
Qed.

(** Ascending: each element is at most the next one. *)
Fixpoint ascending (l : list string) : Prop :=
  match l with
  | x :: ((y :: _) as rest) => code_unit_leb x y = true /\ ascending rest
  | _ => True
  end.

Lemma insert_sorted_ascending (x : string) (l : list string) :
  ascending l -> ascending (insert_sorted x l).
Proof.
  induction l as [|y l IH]; simpl; [trivial|]. intros Hl.
  destruct (code_unit_leb x y) eqn:Hxy.
  - simpl. auto.
  - apply leb_false_flip in Hxy. destruct l as [|z l]; simpl in *.
    + auto.
    + destruct Hl as [Hyz Hl]. specialize (IH Hl).
      destruct (code_unit_leb x z); simpl in *; auto.
Qed.

Lemma sort_ascending (l : list string) : ascending (sort l).
Proof.
  induction l as [|x l IH]; simpl; [trivial|]. now apply insert_sorted_ascending.
Qed.

(** U+1F600, two surrogate code units in JavaScript, sorts before U+FFFD
    although its bytes are larger; ASCII names sort as usual. *)
Example sort_by_code_units :
  sort [Js.of_bytes [239; 191; 189]%nat; Js.of_bytes [240; 159; 152; 128]%nat]
  = [Js.of_bytes [240; 159; 152; 128]%nat; Js.of_bytes [239; 191; 189]%nat] /\
  sort ["red"; "blue"; "Green"; "blue-grey"] = ["Green"; "blue"; "blue-grey"; "red"].
Proof. split; vm_compute; reflexivity. Qed.

Lemma length_encodeHex (bytes : list Z) :
  String.length (Sha256.encodeHex bytes) = (2 * List.length bytes)%nat.
Proof. induction bytes as [|b l IH]; simpl; [reflexivity|]. rewrite IH. lia. Qed.

Lemma length_sha256 (msg : list Z) : List.length (Sha256.sha256 msg) = 32%nat.
Proof. reflexivity. Qed.

Lemma length_take (n : nat) (s : string) :
  String.length (Js.take n s) = Nat.min n (String.length s).
Proof.
  revert s. induction n as [|n IH]; intros [|c s]; simpl; try reflexivity.
  now rewrite IH.
Qed.

(** Every character is one of [0-9a-f]. *)
Fixpoint all_hex (s : string) : bool :=
  match s with
  | EmptyString => true
  | String c s' => Js.includes (String c EmptyString) "0123456789abcdef" && all_hex s'
  end.

Lemma hex_digit_hex (d : Z) :
  (0 <= d < 16)%Z ->
  Js.includes (String (Sha256.hex_digit d) EmptyString) "0123456789abcdef" = true.
Proof.
  intros Hd.
  assert (H : (d = 0 \/ d = 1 \/ d = 2 \/ d = 3 \/ d = 4 \/ d = 5 \/ d = 6 \/ d = 7 \/
               d = 8 \/ d = 9 \/ d = 10 \/ d = 11 \/ d = 12 \/ d = 13 \/ d = 14 \/
               d = 15)%Z) by lia.
  repeat (destruct H as [-> | H]; [reflexivity|]). subst d. reflexivity.
Qed.

Lemma encodeHex_all_hex (bytes : list Z) :
  Forall (fun b => 0 <= b < 256)%Z bytes -> all_hex (Sha256.encodeHex bytes) = true.
Proof.
  induction 1 as [|b rest Hb _ IH]; cbn [Sha256.encodeHex all_hex]; [reflexivity|].
  rewrite IH, !hex_digit_hex; [reflexivity| |].
  - apply Z.mod_pos_bound. lia.
  - split; [apply Z.div_pos; lia | apply Z.div_lt_upper_bound; lia].
Qed.

Lemma word_bytes_range (w : Z) :
  Forall (fun b => 0 <= b < 256)%Z (Sha256.word_bytes w).
Proof.
  unfold Sha256.word_bytes. repeat constructor; apply Z.mod_pos_bound; lia.
Qed.

Lemma sha256_range (msg : list Z) :
  Forall (fun b => 0 <= b < 256)%Z (Sha256.sha256 msg).
Proof.
  unfold Sha256.sha256, Sha256.digest_bytes.
  repeat (apply Forall_app; split; [apply word_bytes_range|]).
  apply word_bytes_range.
Qed.

Lemma take_all_hex (n : nat) (s : string) :
  all_hex s = true -> all_hex (Js.take n s) = true.
Proof.
  revert s. induction n as [|n IH]; intros [|c s]; cbn [Js.take all_hex];
    try reflexivity.
  intros H. apply andb_prop in H. destruct H as [Hc Hs].
  now rewrite Hc, IH.
Qed.

(** C3. The key depends on the colours only up to their order: two colour
    lists that are permutations of each other give the same key. The key
    is 16 characters among [0-9a-f]: the first 16 hexadecimal digits of
    the SHA-256 of
    [company:prompt:style-or-default:colours], the colours sorted
    ascending and joined by commas (nothing when there are none). *)
Theorem createPromptHash_order_independent
  (company prompt : string) (style : option string) (colors1 colors2 : list string) :
  Permutation colors1 colors2 ->
  createPromptHash company prompt style (Some colors1)
  = createPromptHash company prompt style (Some colors2) /\
  String.length (createPromptHash company prompt style (Some colors1)) = 16%nat /\
  all_hex (createPromptHash company prompt style (Some colors1)) = true /\
  createPromptHash company prompt style (Some colors1)
  = Js.take 16
      (Sha256.encodeHex
         (Sha256.sha256
            (Sha256.encode
               (company +:+ ":" +:+ prompt +:+ ":" +:+ Js.str_or style "default"
                        +:+ ":" +:+ Js.join "," (sort colors1))))) /\
  ascending (sort colors1) /\ Permutation colors1 (sort colors1) /\
  createPromptHash company prompt style None
  = Js.take 16
      (Sha256.encodeHex
         (Sha256.sha256
            (Sha256.encode
               (company +:+ ":" +:+ prompt +:+ ":" +:+ Js.str_or style "default"
                        +:+ ":")))).
Proof.
  intros Hperm. split; [|split; [|split; [|split; [|split; [|split]]]]].
  - unfold createPromptHash, canonical. simpl.
    now rewrite (sort_permutation_eq colors1 colors2 Hperm).
  - unfold createPromptHash. now rewrite length_take, length_encodeHex, length_sha256.
  - unfold createPromptHash. apply take_all_hex, encodeHex_all_hex, sha256_range.
  - unfold createPromptHash, canonical. simpl.
    destruct (Js.truthy (Js.join "," (sort colors1))) eqn:Htr; [reflexivity|].
    unfold Js.truthy in Htr. apply negb_false_iff, String.eqb_eq in Htr.
    now rewrite Htr.
  - apply sort_ascending.
  - apply sort_permutation.
  - reflexivity.
Qed.

Lemma createPromptHash_order_independent_witness :
  createPromptHash "A" "p" None (Some ["red"; "blue"])
  = createPromptHash "A" "p" None (Some ["blue"; "red"]).
Proof.
  apply (createPromptHash_order_independent "A" "p" None ["red"; "blue"] ["blue"; "red"]).
  apply perm_swap.
Defined.

(** The key of the example, computed. *)
Example createPromptHash_example :
  createPromptHash "A" "p" None (Some ["red"; "blue"]) = "fc52537220079089".
Proof. vm_compute. reflexivity. Qed.

End KeyFacts.

(** ** Cache store: [get] and [set] *)

Module StoreFacts.
Import Types Cache.
Local Open Scope Z_scope.

Lemma lookup_write_file (f : DirEntry) (entries : list DirEntry) :
  lookup_file (name f) (write_file f entries) = Some f.
Proof.
  induction entries as [|e rest IH]; simpl.
  - now rewrite String.eqb_refl.
  - destruct (String.eqb (name e) (name f)) eqn:He; simpl.
    + now rewrite String.eqb_refl.
    + now rewrite He.
Qed.

Lemma lookup_remove_file (nm n : string) (entries : list DirEntry) :
  lookup_file nm (remove_file n entries)
  = if String.eqb nm n then None else lookup_file nm entries.
Proof.
  induction entries as [|e rest IH]; simpl.
  - now destruct (String.eqb nm n).
  - destruct (String.eqb_spec (name e) n) as [Hen|Hen]; simpl.
    + rewrite IH. destruct (String.eqb_spec nm n) as [Hnm|Hnm]; [reflexivity|].
      destruct (String.eqb_spec (name e) nm); [congruence | reflexivity].
    + rewrite IH. destruct (String.eqb_spec nm n) as [Hnm|Hnm]; [|reflexivity].
      destruct (String.eqb_spec (name e) nm); [congruence | reflexivity].
Qed.

(** Removing files never changes what another name resolves to. *)
Lemma lookup_fold_remove {A : Type} (g : A -> string) (nm : string) :
  forall (xs : list A) (entries : list DirEntry),
    let entries' := fold_left (fun d x => remove_file (g x) d) xs entries in
    lookup_file nm entries' = None \/
    lookup_file nm entries' = lookup_file nm entries.
Proof.
  induction xs as [|x xs IH]; intros entries; simpl.
  - now right.
  - destruct (IH (remove_file (g x) entries)) as [H|H]; [now left|].
    rewrite H, lookup_remove_file. destruct (String.eqb nm (g x)); auto.
Qed.

Lemma cleanup_lookup (now : Z) (st : CacheManager) (nm : string) :
  match cacheDir (cleanup now st), cacheDir st with
  | Some entries', Some entries =>
      lookup_file nm entries' = None \/
      lookup_file nm entries' = lookup_file nm entries
  | None, None => True
  | _, _ => False
  end.
Proof.
  unfold cleanup. destruct (cacheDir st) as [entries|] eqn:Hd; [|now rewrite Hd].
  destruct (scan now entries) as [expiredFiles totalSize]. simpl.
  pose proof (lookup_fold_remove (fun n : string => n) nm expiredFiles entries) as H1.
  simpl in H1.
  destruct (totalSize >? maxSize st); [|exact H1].
  unfold cleanupBySize.
  match goal with
  | |- context [fold_left _ ?ev (fold_left ?f expiredFiles entries)] =>
      pose proof (lookup_fold_remove name nm ev (fold_left f expiredFiles entries)) as H2
  end.
  simpl in H2. destruct H2 as [H2|H2]; [now left|]. rewrite H2. exact H1.
Qed.

Lemma cleanup_getFromFile (now : Z) (st : CacheManager) (k : string) :
  getFromFile k (cleanup now st) = None \/
  getFromFile k (cleanup now st) = getFromFile k st.
Proof.
  pose proof (cleanup_lookup now st (file_name k)) as H. unfold getFromFile.
  destruct (cacheDir (cleanup now st)) as [entries'|];
    destruct (cacheDir st) as [entries|]; try contradiction; auto.
  destruct H as [H|H]; rewrite H; auto.
Qed.

Lemma cleanup_memory (now : Z) (st : CacheManager) (k : string) :
  memoryCache (cleanup now st) !! k
  = match memoryCache st !! k with
    | Some c =>
        match cacheDir st with
        | Some _ => if isExpired now c then None else Some c
        | None => Some c
        end
    | None => None
    end.
Proof.
  unfold cleanup. destruct (cacheDir st) as [entries|].
  - destruct (scan now entries) as [expiredFiles totalSize]. simpl.
    destruct (memoryCache st !! k) as [c|] eqn:Hk.
    + destruct (isExpired now c) eqn:Hex.
      * apply map_lookup_filter_None. right. intros c' Hc'. simpl.
        rewrite Hk in Hc'. injection Hc' as <-. congruence.
      * apply map_lookup_filter_Some. split; [exact Hk | exact Hex].
    + apply map_lookup_filter_None. now left.
  - now destruct (memoryCache st !! k).
Qed.

Section Store.
Variable json_size : CachedLogo -> Z.

Lemma set_memory (now : Z) (r : Q) (write_ok : bool) (k : string)
      (v : LogoResult) (st : CacheManager) :
  let cached := mkCached v (now + ttl st) false in
  let st' := set json_size now r write_ok k v st in
  memoryCache st' !! k = Some cached \/
  (memoryCache st' !! k = None /\ ttl st < 0).
Proof.
  simpl. unfold set.
  set (cached := mkCached v (now + ttl st) false).
  set (st1 := with_memory (<[k:=cached]> (memoryCache st)) st).
  assert (Hm : memoryCache (saveToFile json_size now write_ok k cached st1) !! k
               = Some cached).
  { unfold saveToFile. destruct write_ok; simpl; apply lookup_insert_eq. }
  destruct (Qlt_le_dec r (1 # 10)); [|now left].
  rewrite cleanup_memory, Hm.
  destruct (cacheDir (saveToFile json_size now write_ok k cached st1));
    [|now left].
  unfold isExpired. simpl.
  destruct (Z.gtb_spec now (now + ttl st)); [right; split; [reflexivity|lia] | now left].
Qed.

Lemma set_file (now : Z) (r : Q) (k : string) (v : LogoResult)
      (st : CacheManager) :
  let cached := mkCached v (now + ttl st) false in
  let st' := set json_size now r true k v st in
  getFromFile k st' = None \/ getFromFile k st' = Some cached.
Proof.
  simpl. unfold set.
  set (cached := mkCached v (now + ttl st) false).
  set (st1 := with_memory (<[k:=cached]> (memoryCache st)) st).
  assert (Hf : getFromFile k (saveToFile json_size now true k cached st1)
               = Some cached).
  { unfold saveToFile, getFromFile. simpl.
    set (f := mkEntry (file_name k) true (Entry cached) (json_size cached) (Some now)).
    change (file_name k) with (name f). now rewrite lookup_write_file. }
  destruct (Qlt_le_dec r (1 # 10)); [|now right].
  destruct (cleanup_getFromFile now
              (saveToFile json_size now true k cached st1) k) as [H|H];
    [now left | right; congruence].
Qed.

(** A failed write leaves the file layer as it was, up to what a cleanup
    removes. *)
Lemma set_file_unwritten (now : Z) (r : Q) (k : string) (v : LogoResult)
      (st : CacheManager) :
  let st' := set json_size now r false k v st in
  getFromFile k st' = None \/ getFromFile k st' = getFromFile k st.
Proof.
  simpl. unfold set.
  set (cached := mkCached v (now + ttl st) false).
  set (st1 := with_memory (<[k:=cached]> (memoryCache st)) st).
  change (saveToFile json_size now false k cached st1) with st1.
  assert (Hf : getFromFile k st1 = getFromFile k st) by reflexivity.
  destruct (Qlt_le_dec r (1 # 10)); [|now right].
  destruct (cleanup_getFromFile now st1 k) as [H|H];
    [now left | right; congruence].
Qed.

(** C2 (amended). After [set(k, v)] at time [t0], a [get(k)] at a time
    [now1] up to the expiry [t0 + ttl] returns the entry with payload [v],
    that expiry and the hit flag set. A [get(k)] at a time [now2] past
    the expiry returns nothing when the entry file was written; when that
    write failed, it returns nothing or the entry of an older file of [k]
    that has not expired at [now2]. Whatever the state, an entry [get]
    returns has its hit flag set and is not expired at the time of the
    call, whether it comes from memory or from its file. *)
Theorem get_after_set (st : CacheManager) (k : string) (v : LogoResult)
        (t0 : Z) (r : Q) (write_ok : bool) (now1 now2 : Z) :
  t0 <= now1 <= t0 + ttl st ->
  t0 + ttl st < now2 ->
  fst (get now1 k (set json_size t0 r write_ok k v st))
  = Some (mkCached v (t0 + ttl st) true) /\
  (write_ok = true ->
   fst (get now2 k (set json_size t0 r write_ok k v st)) = None) /\
  (write_ok = false ->
   fst (get now2 k (set json_size t0 r write_ok k v st)) = None \/
   exists older,
     getFromFile k st = Some older /\ now2 <= expiresAt older /\
     fst (get now2 k (set json_size t0 r write_ok k v st)) = Some (as_hit older)) /\
  (forall (st' : CacheManager) (now : Z) (k' : string),
      match fst (get now k' st') with
      | Some e => hit e = true /\ now <= expiresAt e
      | None => True
      end).
Proof.
  intros Hnow1 Hnow2. split; [|split; [|split]].
  - destruct (set_memory t0 r write_ok k v st) as [Hm|[_ Hneg]]; [|lia].
    unfold get. rewrite Hm. unfold isExpired. simpl.
    destruct (Z.gtb_spec now1 (t0 + ttl st)); [lia | reflexivity].
  - intros ->.
    assert (Hexp : isExpired now2 (mkCached v (t0 + ttl st) false) = true).
    { unfold isExpired. simpl. apply Z.gtb_lt. lia. }
    unfold get.
    destruct (set_file t0 r k v st) as [Hf|Hf]; rewrite Hf; simpl;
      destruct (set_memory t0 r true k v st) as [Hm|[Hm _]]; rewrite Hm;
      rewrite ?Hexp; reflexivity.
  - intros ->.
    assert (Hexp : isExpired now2 (mkCached v (t0 + ttl st) false) = true).
    { unfold isExpired. simpl. apply Z.gtb_lt. lia. }
    assert (Hget : fst (get now2 k (set json_size t0 r false k v st))
                   = match getFromFile k (set json_size t0 r false k v st) with
                     | Some fileCached =>
                         if isExpired now2 fileCached then None
                         else Some (as_hit fileCached)
                     | None => None
                     end).
    { unfold get.
      destruct (set_memory t0 r false k v st) as [Hm|[Hm _]]; rewrite Hm;
        rewrite ?Hexp; cbn [negb];
        destruct (getFromFile k (set json_size t0 r false k v st)) as [c|];
        try reflexivity; now destruct (isExpired now2 c). }
    rewrite Hget.
    destruct (set_file_unwritten t0 r k v st) as [Hf|Hf]; rewrite Hf; [now left|].
    destruct (getFromFile k st) as [older|]; [|now left].
    destruct (isExpired now2 older) eqn:Hold; [now left|].
    right. exists older. split; [reflexivity|]. split; [|reflexivity].
    unfold isExpired in Hold.
    destruct (Z.gtb_spec now2 (expiresAt older)); [discriminate | lia].
  - intros st' now k'. unfold get.
    assert (Hfile :
              match fst (match getFromFile k' st' with
                         | Some fileCached =>
                             if negb (isExpired now fileCached)
                             then (Some (as_hit fileCached),
                                   with_memory (<[k':=fileCached]> (memoryCache st')) st')
                             else (None, st')
                         | None => (None, st')
                         end) with
              | Some e => hit e = true /\ now <= expiresAt e
              | None => True
              end).
    { destruct (getFromFile k' st') as [c|]; [|exact I].
      destruct (isExpired now c) eqn:Hc; simpl; [exact I|].
      split; [reflexivity|]. unfold isExpired in Hc.
      destruct (Z.gtb_spec now (expiresAt c)); [discriminate | lia]. }
    destruct (memoryCache st' !! k') as [c|]; [|exact Hfile].
    destruct (isExpired now c) eqn:Hc; simpl; [exact Hfile|].
    split; [reflexivity|]. unfold isExpired in Hc.
    destruct (Z.gtb_spec now (expiresAt c)); [discriminate | lia].
Qed.

(** Later calls: a [get] of any key, a [set] of another key. *)
Inductive Call :=
| CallGet (now : Z) (key : string)
| CallSet (now : Z) (r : Q) (write_ok : bool) (key : string) (result : LogoResult).

Definition call_time (c : Call) : Z :=
  match c with
  | CallGet now _ => now
  | CallSet now _ _ _ _ => now
  end.

Definition sets_key (k : string) (c : Call) : Prop :=
  match c with
  | CallGet _ _ => False
  | CallSet _ _ _ key _ => key = k
  end.

Definition perform (st : CacheManager) (c : Call) : CacheManager :=
  match c with
  | CallGet now key => snd (get now key st)
  | CallSet now r write_ok key result => set json_size now r write_ok key result st
  end.

(** An entry in memory stays there through calls made before it expires
    that do not set its key. *)
Lemma entry_survives (k : string) (c : CachedLogo) (calls : list Call) :
  forall st,
    memoryCache st !! k = Some c ->
    Forall (fun call => call_time call <= expiresAt c /\ ~ sets_key k call) calls ->
    memoryCache (fold_left perform calls st) !! k = Some c.
Proof.
  induction calls as [|call calls IH]; intros st Hk Hall; simpl; [exact Hk|].
  apply Forall_cons_iff in Hall. destruct Hall as [[Htime Hkey] Hall].
  apply IH; [|exact Hall]. clear IH Hall.
  assert (Hfresh : isExpired (call_time call) c = false).
  { unfold isExpired. destruct (Z.gtb_spec (call_time call) (expiresAt c)); [lia|reflexivity]. }
  destruct call as [now key|now r write_ok key result]; simpl in *.
  - unfold get.
    assert (Hfile : memoryCache
                      (snd (match getFromFile key st with
                            | Some fileCached =>
                                if negb (isExpired now fileCached)
                                then (Some (as_hit fileCached),
                                      with_memory (<[key:=fileCached]> (memoryCache st)) st)
                                else (None, st)
                            | None => (None, st)
                            end)) !! k = Some c \/ key = k).
    { destruct (String.eqb_spec key k) as [->|Hne]; [now right|left].
      destruct (getFromFile key st) as [fc|]; [|exact Hk].
      destruct (negb (isExpired now fc)); simpl; [|exact Hk].
      now rewrite lookup_insert_ne. }
    destruct (memoryCache st !! key) as [m|] eqn:Hm.
    + destruct (isExpired now m) eqn:Hex; simpl; [|exact Hk].
      destruct Hfile as [Hfile| ->]; [exact Hfile|]. congruence.
    + destruct Hfile as [Hfile| ->]; [exact Hfile|]. congruence.
  - unfold set.
    set (cached := mkCached result (now + ttl st) false).
    set (st1 := with_memory (<[key:=cached]> (memoryCache st)) st).
    assert (Hm : memoryCache (saveToFile json_size now write_ok key cached st1) !! k
                 = Some c).
    { unfold saveToFile. destruct write_ok; simpl; now rewrite lookup_insert_ne. }
    destruct (Qlt_le_dec r (1 # 10)); [|exact Hm].
    rewrite cleanup_memory, Hm, Hfresh.
    now destruct (cacheDir (saveToFile json_size now write_ok key cached st1)).
Qed.

(** The most recent [set] of a key decides what [get] returns, whatever
    calls on other keys (or reads of this one) come in between. *)
Corollary get_most_recent_set (st : CacheManager) (k : string) (v : LogoResult)
          (t0 : Z) (r : Q) (write_ok : bool) (calls : list Call) (now : Z) :
  0 <= ttl st ->
  Forall (fun call => call_time call <= t0 + ttl st /\ ~ sets_key k call) calls ->
  now <= t0 + ttl st ->
  fst (get now k (fold_left perform calls (set json_size t0 r write_ok k v st)))
  = Some (mkCached v (t0 + ttl st) true).
Proof.
  intros Httl Hcalls Hnow.
  destruct (set_memory t0 r write_ok k v st) as [Hm|[_ Hneg]]; [|lia].
  pose proof (entry_survives k _ calls _ Hm Hcalls) as Hk.
  unfold get. rewrite Hk. unfold isExpired. simpl.
  destruct (Z.gtb_spec now (t0 + ttl st)); [lia | reflexivity].
Qed.
End Store.

Definition sample_result : LogoResult :=
  mkResult "https://img.example/acme.png" None
    (mkMetadata "logo_1" 1000 "Acme" "bold new idea" "final prompt" "modern"
                None "1024x1024" "standard" (7 # 100))
    None.

Lemma get_after_set_witness :
  fst (get 2000 "k1" (set (fun _ => 512) 1000 (1 # 2) true "k1" sample_result
                          (new None 3600 500)))
  = Some (mkCached sample_result 3601000 true) /\
  fst (get 3601001 "k1" (set (fun _ => 512) 1000 (1 # 2) true "k1" sample_result
                             (new None 3600 500)))
  = None.
Proof.
  pose proof (get_after_set (fun _ => 512) (new None 3600 500) "k1" sample_result
                1000 (1 # 2) true 2000 3601001) as H.
  simpl in H. destruct H as [H1 [H2 _]]; [lia | lia |].
  split; [exact H1 | exact (H2 eq_refl)].
Defined.

(** A result stored for the same key by an earlier run. *)
Definition earlier_result : LogoResult :=
  mkResult "https://img.example/earlier.png" None
    (mkMetadata "logo_0" 500 "Acme" "first idea" "earlier prompt" "modern"
                None "1024x1024" "standard" (7 # 100))
    None.

(** The cache directory holds the file of [k1] from that run, valid until
    the time 9000000. *)
Definition earlier_dir : list DirEntry :=
  [mkEntry "k1.json" true (Entry (mkCached earlier_result 9000000 false)) 512
           (Some 500)].

(** C2 as stated fails when the write of the entry file fails, which
    [saveToFile] only logs: the entry set at time 1000 expires at 3601000,
    and a [get] at 3601001 does not return absent but hits the entry of
    the older file, with the earlier payload. *)
Lemma failed_write_serves_older_entry :
  fst (get 2000 "k1" (set (fun _ => 512) 1000 (1 # 2) false "k1" sample_result
                          (new (Some earlier_dir) 3600 500)))
  = Some (mkCached sample_result 3601000 true) /\
  fst (get 3601001 "k1" (set (fun _ => 512) 1000 (1 # 2) false "k1" sample_result
                             (new (Some earlier_dir) 3600 500)))
  = Some (mkCached earlier_result 9000000 true).
Proof. split; vm_compute; reflexivity. Qed.

End StoreFacts.

(** ** Cache store: cleanup *)

Module CleanupFacts.
Import Types Cache.
Local Open Scope Z_scope.

Lemma fold_sum (l : list DirEntry) (a : Z) :
  fold_left (fun sum e => sum + fsize e) l a = a + total_size l.
Proof.
  unfold total_size. revert a. induction l as [|e l IH]; intros a; simpl.
  - lia.
  - rewrite IH, (IH (0 + fsize e)). lia.
Qed.

Lemma total_size_cons (e : DirEntry) (l : list DirEntry) :
  total_size (e :: l) = fsize e + total_size l.
Proof. unfold total_size at 1. simpl. now rewrite fold_sum. Qed.

Lemma total_size_app (l1 l2 : list DirEntry) :
  total_size (l1 ++ l2) = total_size l1 + total_size l2.
Proof.
  induction l1 as [|e l1 IH]; simpl; [reflexivity|].
  rewrite !total_size_cons, IH. lia.
Qed.

Lemma total_size_permutation (l1 l2 : list DirEntry) :
  Permutation l1 l2 -> total_size l1 = total_size l2.
Proof.
  induction 1; rewrite ?total_size_cons in *; try reflexivity; lia.
Qed.

Lemma filter_filter {A : Type} (f g : A -> bool) (l : list A) :
  List.filter f (List.filter g l) = List.filter (fun x => g x && f x) l.
Proof.
  induction l as [|x l IH]; simpl; [reflexivity|].
  destruct (g x); simpl; [destruct (f x)|]; now rewrite IH.
Qed.

Lemma filter_none {A : Type} (f : A -> bool) (l : list A) :
  (forall x, In x l -> f x = false) -> List.filter f l = [].
Proof.
  induction l as [|x l IH]; simpl; intros H; [reflexivity|].
  rewrite (H x (or_introl eq_refl)). apply IH. intros y Hy. apply H. now right.
Qed.

Lemma filter_all {A : Type} (f : A -> bool) (l : list A) :
  (forall x, In x l -> f x = true) -> List.filter f l = l.
Proof.
  induction l as [|x l IH]; simpl; intros H; [reflexivity|].
  rewrite (H x (or_introl eq_refl)). f_equal. apply IH. intros y Hy. apply H. now right.
Qed.

Lemma filter_permutation {A : Type} (f : A -> bool) (l1 l2 : list A) :
  Permutation l1 l2 -> Permutation (List.filter f l1) (List.filter f l2).
Proof.
  induction 1 as [|x l1 l2 _ IH|x y l|l1 l2 l3 _ IH1 _ IH2]; simpl.
  - constructor.
  - destruct (f x); [now constructor | exact IH].
  - destruct (f x), (f y); try reflexivity. apply perm_swap.
  - now transitivity (List.filter f l2).
Qed.

(** [named xs e]: some element of [xs] bears the name of [e]. *)
Definition named {A : Type} (g : A -> string) (xs : list A) (e : DirEntry) : bool :=
  existsb (fun x => String.eqb (name e) (g x)) xs.

(** Removing by name keeps exactly the entries with other names. *)
Lemma fold_remove_filter {A : Type} (g : A -> string) (xs : list A) :
  forall entries,
    fold_left (fun d x => remove_file (g x) d) xs entries
    = List.filter (fun e => negb (named g xs e)) entries.
Proof.
  induction xs as [|x xs IH]; intros entries; simpl.
  - induction entries as [|e l IHl]; simpl; congruence.
  - rewrite IH. unfold remove_file. rewrite filter_filter.
    apply List.filter_ext. intros e. unfold named. simpl.
    now rewrite negb_orb.
Qed.

(** In a directory, a name determines the entry. *)
Lemma same_name_same_entry (l : list DirEntry) (a b : DirEntry) :
  List.NoDup (map name l) -> In a l -> In b l -> name a = name b -> a = b.
Proof.
  induction l as [|e l IH]; simpl; [contradiction|].
  intros Hnd Ha Hb Hab. apply List.NoDup_cons_iff in Hnd. destruct Hnd as [Hnot Hnd].
  destruct Ha as [<-|Ha], Hb as [<-|Hb]; auto.
  - exfalso. apply Hnot. rewrite Hab. now apply in_map.
  - exfalso. apply Hnot. rewrite <- Hab. now apply in_map.
Qed.

Lemma named_filter (q : DirEntry -> bool) (l : list DirEntry) (e : DirEntry) :
  List.NoDup (map name l) -> In e l ->
  named name (List.filter q l) e = q e.
Proof.
  intros Hnd He. unfold named. destruct (q e) eqn:Hq.
  - apply existsb_exists. exists e. split; [|apply String.eqb_refl].
    apply filter_In. auto.
  - apply not_true_is_false. intros Hex. apply existsb_exists in Hex.
    destruct Hex as [e' [He' Hn]]. apply filter_In in He'. destruct He' as [He' Hq'].
    apply String.eqb_eq in Hn.
    rewrite (same_name_same_entry l e e' Hnd He He' Hn) in Hq. congruence.
Qed.

Lemma named_map_name (xs : list DirEntry) (e : DirEntry) :
  named (fun n : string => n) (map name xs) e = named name xs e.
Proof. unfold named. induction xs as [|x xs IH]; simpl; congruence. Qed.

(** What the scan of [cleanup] computes. *)
Lemma scan_spec (now : Z) (entries : list DirEntry) :
  scan now entries
  = (map name (List.filter (marked now) (cache_files entries)),
     total_size (cache_files entries)).
Proof.
  unfold scan.
  assert (H : forall l names sum,
             fold_left
               (fun (acc : list string * Z) e =>
                  if is_cache_file e
                  then (if marked now e then (fst acc ++ [name e])%list else fst acc,
                        snd acc + fsize e)
                  else acc) l (names, sum)
             = ((names ++ map name (List.filter (marked now) (cache_files l)))%list,
                sum + total_size (cache_files l))).
  { induction l as [|e l IH]; intros names sum; simpl.
    - rewrite app_nil_r. f_equal. unfold total_size. simpl. lia.
    - destruct (is_cache_file e); simpl; [|apply IH].
      rewrite IH, total_size_cons. destruct (marked now e); simpl.
      + rewrite <- app_assoc. simpl. f_equal. lia.
      + f_equal. lia. }
  rewrite H. simpl. reflexivity.
Qed.

(** ** Sorting by modification time *)

Lemma insert_by_mtime_permutation (f : DirEntry) (l : list DirEntry) :
  Permutation (f :: l) (insert_by_mtime f l).
Proof.
  induction l as [|g l IH]; simpl; [reflexivity|].
  destruct (mtime_of f <? mtime_of g); [reflexivity|].
  rewrite perm_swap. now apply perm_skip.
Qed.

Lemma sort_by_mtime_permutation (l : list DirEntry) :
  Permutation l (sort_by_mtime l).
Proof.
  unfold sort_by_mtime.
  assert (H : forall l acc,
             Permutation (acc ++ l)
               (fold_left (fun acc f => insert_by_mtime f acc) l acc)).
  { clear l. induction l as [|f l IH]; intros acc; simpl.
    - now rewrite app_nil_r.
    - transitivity (insert_by_mtime f acc ++ l)%list; [|apply IH].
      transitivity ((f :: acc) ++ l)%list.
      + simpl. symmetry. apply Permutation_middle.
      + apply Permutation_app_tail, insert_by_mtime_permutation. }
  apply (H l []).
Qed.

(** Oldest first: each file is at most as recent as the next one. *)
Fixpoint oldest_first (l : list DirEntry) : Prop :=
  match l with
  | f :: ((g :: _) as rest) => mtime_of f <= mtime_of g /\ oldest_first rest
  | _ => True
  end.

Lemma insert_by_mtime_oldest_first (f : DirEntry) (l : list DirEntry) :
  oldest_first l -> oldest_first (insert_by_mtime f l).
Proof.
  induction l as [|g l IH]; simpl; [trivial|]. intros Hl.
  destruct (Z.ltb_spec (mtime_of f) (mtime_of g)) as [Hlt|Hge].
  - simpl. split; [lia | exact Hl].
  - destruct l as [|h l]; simpl in *.
    + split; [lia | trivial].
    + destruct Hl as [Hgh Hl]. specialize (IH Hl).
      destruct (Z.ltb_spec (mtime_of f) (mtime_of h)); simpl in *;
        (split; [lia | auto]).
Qed.

Lemma sort_by_mtime_oldest_first (l : list DirEntry) :
  oldest_first (sort_by_mtime l).
Proof.
  unfold sort_by_mtime.
  assert (H : forall l acc,
             oldest_first acc ->
             oldest_first (fold_left (fun acc f => insert_by_mtime f acc) l acc)).
  { clear l. induction l as [|f l IH]; intros acc Hacc; simpl; [exact Hacc|].
    apply IH. now apply insert_by_mtime_oldest_first. }
  apply H. exact I.
Qed.

(** ** The eviction loop *)

(** [evict] removes a prefix of its (sorted) input: every removal happens
    above the headroom, and the loop stops within it or at the end. *)
Lemma evict_prefix (max : Z) :
  forall files cur,
  exists k : nat,
    evict max files cur = firstn k files /\
    (k <= List.length files)%nat /\
    (forall j, (j < k)%nat ->
               within_headroom (cur - total_size (firstn j files)) max = false) /\
    (k = List.length files \/
     within_headroom (cur - total_size (firstn k files)) max = true).
Proof.
  induction files as [|file rest IH]; intros cur; simpl.
  - exists 0%nat. simpl. repeat split; auto; intros; lia.
  - destruct (within_headroom cur max) eqn:Hh.
    + exists 0%nat. simpl. repeat split; try lia.
      right. unfold total_size. simpl. now rewrite Z.sub_0_r.
    + destruct (IH (cur - fsize file)) as [k [Hk [Hlen [Hbefore Hstop]]]].
      exists (S k). simpl. rewrite Hk. repeat split; [lia| |].
      * intros [|j] Hj; simpl.
        -- unfold total_size. simpl. now rewrite Z.sub_0_r.
        -- rewrite total_size_cons.
           replace (cur - (fsize file + total_size (firstn j rest)))
             with (cur - fsize file - total_size (firstn j rest)) by lia.
           apply Hbefore. lia.
      * destruct Hstop as [->|Hstop]; [now left | right].
        rewrite total_size_cons.
        replace (cur - (fsize file + total_size (firstn k rest)))
          with (cur - fsize file - total_size (firstn k rest)) by lia.
        exact Hstop.
Qed.

Lemma total_size_skipn (j : nat) (l : list DirEntry) :
  total_size l - total_size (firstn j l) = total_size (skipn j l).
Proof.
  rewrite <- (firstn_skipn j l) at 1. rewrite total_size_app. lia.
Qed.

Lemma nodup_app_disjoint {A : Type} (l1 l2 : list A) :
  List.NoDup (l1 ++ l2) -> forall x, In x l1 -> In x l2 -> False.
Proof.
  induction l1 as [|a l1 IH]; simpl; [intros _ x []|].
  intros Hnd x [<-|Hx] Hx2; apply List.NoDup_cons_iff in Hnd; destruct Hnd as [Hna Hnd].
  - apply Hna. apply in_or_app. now right.
  - now apply (IH Hnd x).
Qed.

(** With distinct names, dropping the files named like the first [k]
    leaves the others. *)
Lemma filter_unnamed_prefix (k : nat) (l : list DirEntry) :
  List.NoDup (map name l) ->
  List.filter (fun e => negb (named name (firstn k l) e)) l = skipn k l.
Proof.
  intros Hnd.
  set (P := fun e => negb (named name (firstn k l) e)).
  assert (H1 : List.filter P (firstn k l) = []).
  { apply filter_none. intros e He.
    apply negb_false_iff. apply existsb_exists. exists e.
    split; [exact He | apply String.eqb_refl]. }
  assert (H2 : List.filter P (skipn k l) = skipn k l).
  { apply filter_all.
    intros e He. apply negb_true_iff. apply not_true_is_false. intros Hex.
    apply existsb_exists in Hex. destruct Hex as [e' [He' Hn]].
    apply String.eqb_eq in Hn.
    rewrite <- (firstn_skipn k l), map_app in Hnd.
    apply (nodup_app_disjoint _ _ Hnd (name e')).
    - now apply in_map.
    - rewrite <- Hn. now apply in_map. }
  transitivity (List.filter P (firstn k l ++ skipn k l)).
  - now rewrite firstn_skipn.
  - now rewrite List.filter_app, H1, H2.
Qed.

Lemma nodup_names_filter (f : DirEntry -> bool) (l : list DirEntry) :
  List.NoDup (map name l) -> List.NoDup (map name (List.filter f l)).
Proof.
  induction l as [|e l IH]; simpl; intros Hnd; [constructor|].
  apply List.NoDup_cons_iff in Hnd. destruct Hnd as [Hna Hnd].
  destruct (f e); simpl; [|now apply IH].
  constructor; [|now apply IH].
  intros Hin. apply Hna. apply in_map_iff in Hin. destruct Hin as [x [Hx Hin]].
  apply filter_In in Hin. apply in_map_iff. exists x. tauto.
Qed.

(** The expiry pass of [cleanup] leaves, among the cache files, exactly
    those that parse and have not expired. *)
Lemma expiry_pass (now : Z) (entries : list DirEntry) :
  List.NoDup (map name entries) ->
  cache_files
    (fold_left (fun d n => remove_file n d) (fst (scan now entries)) entries)
  = List.filter (fun e => negb (marked now e)) (cache_files entries).
Proof.
  intros Hnd. rewrite scan_spec. simpl.
  rewrite (fold_remove_filter (fun n : string => n)).
  unfold cache_files. rewrite !filter_filter.
  apply List.filter_ext_in. intros e He.
  rewrite named_map_name, (named_filter _ entries e Hnd He).
  destruct (is_cache_file e), (marked now e); reflexivity.
Qed.

(** C4. A cleanup pass at time [now] over a directory with distinct file
    names: of the cache files that parse and have not expired, taken
    oldest modification time first, the pass deletes the first [k] and
    keeps the rest. When the total size found by the scan exceeded the
    maximum, the size left is at most 80% of the maximum; when it did
    not, [k = 0] and no such file is deleted; and each of the [k]
    deletions was made while the size still exceeded 80% of the
    maximum. *)
Theorem cleanup_size_bound (now : Z) (st : CacheManager) (entries : list DirEntry) :
  cacheDir st = Some entries ->
  List.NoDup (map name entries) ->
  0 <= maxSize st ->
  exists (entries' : list DirEntry) (k : nat),
    cacheDir (cleanup now st) = Some entries' /\
    let unexpired := List.filter (fun e => negb (marked now e)) (cache_files entries) in
    let by_age := sort_by_mtime unexpired in
    Permutation unexpired by_age /\
    oldest_first by_age /\
    Permutation (cache_files entries') (skipn k by_age) /\
    (total_size (cache_files entries) > maxSize st ->
     5 * total_size (cache_files entries') <= 4 * maxSize st) /\
    (total_size (cache_files entries) <= maxSize st -> k = 0%nat) /\
    (forall j, (j < k)%nat -> 5 * total_size (skipn j by_age) > 4 * maxSize st).
Proof.
  intros Hdir Hnd Hmax.
  pose proof (expiry_pass now entries Hnd) as Hpass.
  unfold cleanup. rewrite Hdir.
  destruct (scan now entries) as [expiredFiles totalSize] eqn:Hscan.
  assert (Htotal : totalSize = total_size (cache_files entries)).
  { rewrite scan_spec in Hscan. now injection Hscan. }
  simpl in Hpass.
  set (entries1 := fold_left (fun d n => remove_file n d) expiredFiles entries) in *.
  set (unexpired := List.filter (fun e => negb (marked now e)) (cache_files entries)) in *.
  pose proof (sort_by_mtime_permutation unexpired) as Hperm.
  pose proof (sort_by_mtime_oldest_first unexpired) as Hsorted.
  destruct (Z.gtb_spec totalSize (maxSize st)) as [Hover|Hunder].
  - (* over the limit: the size pass runs *)
    unfold cleanupBySize. rewrite Hpass.
    set (by_age := sort_by_mtime unexpired) in *.
    destruct (evict_prefix (maxSize st) by_age (total_size by_age))
      as [k [Hk [Hlen [Hforced Hstop]]]].
    rewrite Hk, (fold_remove_filter name).
    eexists _, k. split; [reflexivity|]. cbn zeta.
    assert (Hleft : Permutation
                      (cache_files
                         (List.filter (fun e => negb (named name (firstn k by_age) e))
                                      entries1))
                      (skipn k by_age)).
    { unfold cache_files. rewrite filter_filter.
      rewrite (List.filter_ext _ (fun e => is_cache_file e
                                           && negb (named name (firstn k by_age) e)))
        by (intros e; apply andb_comm).
      rewrite <- filter_filter. fold (cache_files entries1). rewrite Hpass.
      rewrite <- (filter_unnamed_prefix k by_age).
      - now apply filter_permutation.
      - apply (Permutation_NoDup (l := map name unexpired)).
        + now apply Permutation_map.
        + unfold unexpired, cache_files. now do 2 apply nodup_names_filter. }
    split; [exact Hperm|]. split; [exact Hsorted|]. split; [exact Hleft|].
    split; [|split].
    + intros _. rewrite (total_size_permutation _ _ Hleft).
      destruct Hstop as [->|Hstop].
      * rewrite skipn_all. unfold total_size. simpl. lia.
      * rewrite total_size_skipn in Hstop. unfold within_headroom in Hstop.
        apply Z.leb_le in Hstop. exact Hstop.
    + intros Hle. lia.
    + intros j Hj. specialize (Hforced j Hj).
      rewrite total_size_skipn in Hforced. unfold within_headroom in Hforced.
      apply Z.leb_gt in Hforced. lia.
  - (* within the limit: only the expiry pass *)
    exists entries1, 0%nat. split; [reflexivity|]. cbn zeta.
    rewrite Hpass. simpl.
    split; [exact Hperm|]. split; [exact Hsorted|]. split; [exact Hperm|].
    split; [intros; lia|]. split; [reflexivity | intros; lia].
Qed.

(** A one-megabyte cache holding an expired entry and two fresh ones. *)
Definition file_of (n : string) (bytes modified expires : Z) : DirEntry :=
  mkEntry n true (Entry (mkCached StoreFacts.sample_result expires false))
          bytes (Some modified).

Definition sample_dir : list DirEntry :=
  [file_of "c.json" 450000 2 100;
   file_of "a.json" 200000 5 10;
   file_of "b.json" 450000 1 100].

Lemma cleanup_size_bound_witness :
  exists (entries' : list DirEntry) (k : nat),
    cacheDir (cleanup 50 (mkManager ∅ (Some sample_dir) 1000 1048576))
    = Some entries' /\
    5 * total_size (cache_files entries') <= 4 * 1048576.
Proof.
  destruct (cleanup_size_bound 50 (mkManager ∅ (Some sample_dir) 1000 1048576)
              sample_dir) as [entries' [k [Hdir [_ [_ [_ [Hsize _]]]]]]].
  - reflexivity.
  - repeat constructor; simpl; intuition discriminate.
  - simpl. lia.
  - exists entries', k. split; [exact Hdir|]. apply Hsize. vm_compute. reflexivity.
Defined.

Example cleanup_sample :
  cacheDir (cleanup 50 (mkManager ∅ (Some sample_dir) 1000 1048576))
  = Some [file_of "c.json" 450000 2 100].
Proof. vm_compute. reflexivity. Qed.

End CleanupFacts.

(** ** Template interpolation *)

Module TemplateFacts.
Import Types Professional Js JsFacts.

Definition not_bracket (c : ascii) : bool :=
  negb (Ascii.eqb c "[" || Ascii.eqb c "]").

Fixpoint bracket_free (s : string) : bool :=
  match s with
  | EmptyString => true
  | String c s' => not_bracket c && bracket_free s'
  end.

(** A placeholder token: a bracketed name. *)
Definition is_placeholder (t : string) : Prop :=
  exists body, t = "[" +:+ body +:+ "]" /\ bracket_free body = true.

(** The first closing bracket delimits the name. *)
Lemma close_unique (x : string) :
  forall y r b,
    bracket_free x = true -> bracket_free y = true ->
    x +:+ "]" +:+ r = y +:+ "]" +:+ b -> x = y.
Proof.
  induction x as [|c x IH]; intros [|d y] r b Hx Hy H; simpl in *.
  - reflexivity.
  - injection H as <- _. discriminate.
  - injection H as -> _. discriminate.
  - injection H as <- H. apply andb_prop in Hx, Hy.
    f_equal. apply (IH y r b); tauto.
Qed.

(** An opening bracket comes only after the whole name and its closing
    bracket. *)
Lemma open_after (x : string) :
  forall a r rest,
    bracket_free x = true ->
    x +:+ "]" +:+ r = a +:+ "[" +:+ rest ->
    (String.length x < String.length a)%nat.
Proof.
  induction x as [|c x IH]; intros [|d a] r rest Hx H; simpl in *.
  - discriminate.
  - lia.
  - injection H as -> _. discriminate.
  - injection H as _ H. apply andb_prop in Hx.
    assert (String.length x < String.length a)%nat by (apply (IH a r rest); tauto).
    lia.
Qed.

Lemma placeholders_disjoint (p t : string) :
  is_placeholder p -> is_placeholder t -> p <> t -> disjoint_from p t.
Proof.
  intros [pb [-> Hpb]] [tb [-> Htb]] Hne a b r H.
  destruct a as [|c a]; simpl in H.
  - injection H as H. rewrite !append_assoc in H. simpl in H.
    exfalso. apply Hne.
    now rewrite (close_unique pb tb r b Hpb Htb H).
  - injection H as _ H. rewrite ?append_assoc in H. simpl in H.
    simpl. rewrite length_append. simpl.
    pose proof (open_after pb a r (tb +:+ "]" +:+ b) Hpb H). lia.
Qed.

Ltac placeholder body := exists body; split; reflexivity.

Lemma replaced_are_placeholders (request : LogoRequest) (options : GenerationOptions) :
  Forall (fun pr => is_placeholder (fst pr)) (replacements request options).
Proof.
  unfold replacements. apply Forall_app. split.
  - apply List.Forall_cons; [placeholder "COMPANY"|].
    apply List.Forall_cons; [placeholder "PROMPT"|].
    apply List.Forall_cons; [placeholder "STYLE"|].
    apply List.Forall_cons; [placeholder "INDUSTRY"|].
    apply List.Forall_nil.
  - destruct (o_colors options) as [[|c0 cs]|]; try apply List.Forall_nil.
    apply List.Forall_cons; [placeholder "PRIMARY_COLOR"|].
    apply List.Forall_cons; [placeholder "SECONDARY_COLOR"|].
    apply List.Forall_cons; [placeholder "COLOR_PALETTE"|].
    apply List.Forall_nil.
Qed.

Lemma fold_replace_keeps (t : string) (prs : list (string * string)) :
  is_placeholder t ->
  Forall (fun pr => is_placeholder (fst pr)) prs ->
  ~ In t (map fst prs) ->
  forall s, occurs t s ->
            occurs t (fold_left (fun result pr => replaceAll (fst pr) (snd pr) result)
                                prs s).
Proof.
  intros Ht. induction prs as [|[p r] prs IH]; intros Hall Hnot s Hocc; simpl.
  - exact Hocc.
  - apply Forall_cons_iff in Hall. destruct Hall as [Hp Hall]. simpl in *.
    assert (Hne : p <> t) by tauto.
    apply IH; [exact Hall | tauto |].
    apply replaceAll_keeps; [| | exact Hocc];
      apply placeholders_disjoint; auto.
Qed.

Definition basic_tokens : list string :=
  ["[COMPANY]"; "[PROMPT]"; "[STYLE]"; "[INDUSTRY]"].

Definition color_tokens : list string :=
  ["[PRIMARY_COLOR]"; "[SECONDARY_COLOR]"; "[COLOR_PALETTE]"].

(** No colours in the options: [options.colors] absent or empty. *)
Definition no_colors (options : GenerationOptions) : bool :=
  match o_colors options with
  | Some (_ :: _) => false
  | _ => true
  end.

Lemma replaced_tokens (request : LogoRequest) (options : GenerationOptions) :
  map fst (replacements request options)
  = (basic_tokens ++ if no_colors options then [] else color_tokens)%list.
Proof.
  unfold replacements, no_colors.
  destruct (o_colors options) as [[|c0 cs]|]; reflexivity.
Qed.

(** C10. A placeholder of the base prompt that [interpolateTemplate] does
    not replace is still in the interpolated text and in the final prompt
    of [generateFromTemplate]: any bracketed token other than [COMPANY],
    [PROMPT], [STYLE] and [INDUSTRY] (so [SHAPE], [LETTER], [ELEMENT],
    [SYMBOL]) unless it is a colour token, and the colour tokens
    [PRIMARY_COLOR], [SECONDARY_COLOR] and [COLOR_PALETTE] too when the
    options carry no colours. *)
Theorem unreplaced_placeholders_stay
  (request : LogoRequest) (options : GenerationOptions)
  (tid : string) (template : ProfessionalTemplate) (t : string) :
  o_template options = Some tid ->
  templates !! tid = Some template ->
  is_placeholder t ->
  ~ In t basic_tokens ->
  (In t color_tokens -> no_colors options = true) ->
  includes t (basePrompt template) = true ->
  includes t (interpolateTemplate (basePrompt template) request options) = true /\
  (exists prompt,
      generateFromTemplate request options = inr prompt /\
      includes t prompt = true) /\
  Forall (fun tok => is_placeholder tok /\ ~ In tok basic_tokens /\ ~ In tok color_tokens)
         ["[SHAPE]"; "[LETTER]"; "[ELEMENT]"; "[SYMBOL]"].
Proof.
  intros Hopt Hget Ht Hbasic Hcolor Hin.
  assert (Hkeep : occurs t (interpolateTemplate (basePrompt template) request options)).
  { unfold interpolateTemplate. apply fold_replace_keeps.
    - exact Ht.
    - apply replaced_are_placeholders.
    - rewrite replaced_tokens. intros Hmem. apply in_app_or in Hmem.
      destruct Hmem as [Hmem|Hmem]; [tauto|].
      destruct (no_colors options) eqn:Hnc; [contradiction|].
      specialize (Hcolor Hmem). discriminate.
    - now apply includes_occurs. }
  split; [now apply includes_occurs|]. split.
  - unfold generateFromTemplate. rewrite Hopt, Hget.
    eexists. split; [reflexivity|]. apply includes_occurs.
    destruct (negativePrompts template ++ _)%list;
      [|apply occurs_append_r]; apply occurs_append_r, Hkeep.
  - apply List.Forall_cons;
      [split; [placeholder "SHAPE" | simpl; intuition discriminate]|].
    apply List.Forall_cons;
      [split; [placeholder "LETTER" | simpl; intuition discriminate]|].
    apply List.Forall_cons;
      [split; [placeholder "ELEMENT" | simpl; intuition discriminate]|].
    apply List.Forall_cons;
      [split; [placeholder "SYMBOL" | simpl; intuition discriminate]|].
    apply List.Forall_nil.
Qed.

Definition acme : LogoRequest :=
  mkRequest "Acme" "bold new idea" None None None None None.

Definition with_template (tid : string) : GenerationOptions :=
  mkOptions None None None None None (Some tid) None None.

Lemma unreplaced_placeholders_stay_witness :
  includes "[PRIMARY_COLOR]"
    (interpolateTemplate
       "Minimalist geometric logo, [SHAPE] form, flat vector design, [PRIMARY_COLOR] on white background, sharp edges, scalable"
       acme (with_template "minimal-geometric")) = true.
Proof.
  destruct (unreplaced_placeholders_stay acme (with_template "minimal-geometric")
              "minimal-geometric"
              (mkTemplate "minimal-geometric" "Clean Geometric" Minimal Basic
                 "Minimalist geometric logo, [SHAPE] form, flat vector design, [PRIMARY_COLOR] on white background, sharp edges, scalable"
                 ["no gradients"; "no 3D effects"; "no ornate details"] [] Web)
              "[PRIMARY_COLOR]") as [H _].
  - reflexivity.
  - vm_compute. reflexivity.
  - exists "PRIMARY_COLOR". split; reflexivity.
  - simpl. intuition discriminate.
  - intros _. reflexivity.
  - reflexivity.
  - exact H.
Defined.

(** The final prompt of the first template without colours. *)
Example minimal_geometric_prompt :
  generateFromTemplate acme (with_template "minimal-geometric")
  = inr "Minimalist geometric logo, [SHAPE] form, flat vector design, [PRIMARY_COLOR] on white background, sharp edges, scalableflat vector design, scalable, professional quality, high contrast --no gradients --no 3D effects --no ornate details".
Proof. vm_compute. reflexivity. Qed.

End TemplateFacts.

(** ** The generator *)

Module GeneratorFacts.
Import Types Generator Js JsFacts.

Definition fixed_quality_clause : string :=
  ", clean geometric shapes, scalable vector design, professional quality, suitable for branding, on white background, high contrast, memorable and distinctive".

(** Every API call of a run carries the prompt computed before the retry
    wrapper starts, and so does the metadata of a returned result. *)
Lemma operation_prompt (client : Client) (id : string) (now : Z)
      (request : LogoRequest) (options : GenerationOptions) (p : string)
      (random : nat -> Q) (maxRetries : Z) :
  let out := Retry.execute (operation client id now request options p)
                           random maxRetries [] in
  Forall (fun c => p_prompt c = p) (Retry.op_state (snd out)) /\
  (forall result, fst out = Retry.Returned result ->
                  m_finalPrompt (metadata result) = p).
Proof.
  simpl. unfold Retry.execute. split.
  - apply (RetryFacts.loop_state_invariant _ _ _
             (fun calls => Forall (fun c => p_prompt c = p) calls)).
    + intros calls Hcalls.
      assert (Hnext : Forall (fun c => p_prompt c = p)
                             (calls ++ [buildAPIParams p options])).
      { apply Forall_app. split; [exact Hcalls|]. repeat constructor. }
      unfold operation.
      destruct (client (length calls) (buildAPIParams p options))
        as [e|[[|img data]|]]; simpl; try exact Hnext.
      destruct (opt_truthy (d_url img)); exact Hnext.
    + constructor.
  - intros result.
    apply (RetryFacts.loop_returned _ _ _
             (fun r => m_finalPrompt (metadata r) = p)).
    intros calls v. unfold operation.
    destruct (client (length calls) (buildAPIParams p options))
      as [e|[[|img data]|]]; simpl; try discriminate.
    destruct (opt_truthy (d_url img)); simpl; [|discriminate].
    now intros [= <-].
Qed.

(** The parts of the free-form prompt, as the amended claim words them.
    The base description: the base text of the template of the industry,
    for the six industries that have one, "professional logo" for any
    other industry and for none. *)
Definition base_description (industry : option string) : string :=
  match industry with
  | Some i =>
      if String.eqb i "technology" then "minimalist tech logo with geometric elements"
      else if String.eqb i "healthcare" then "medical logo with caring symbolism"
      else if String.eqb i "finance" then "financial services logo conveying trust"
      else if String.eqb i "retail" then "retail brand logo appealing to customers"
      else if String.eqb i "food" then "food and beverage logo with appetite appeal"
      else if String.eqb i "education" then "educational logo promoting learning"
      else "professional logo"
  | None => "professional logo"
  end.

(** The modifier phrase of a style: empty outside the eight styles of the
    table. *)
Definition style_phrase (style : string) : string :=
  if String.eqb style "modern" then "contemporary design, sleek lines, current trends"
  else if String.eqb style "vintage" then "retro aesthetic, classic elements, nostalgic feel"
  else if String.eqb style "minimal"
  then "simple clean design, essential elements only, whitespace"
  else if String.eqb style "playful"
  then "vibrant colors, dynamic composition, fun elements"
  else if String.eqb style "classic" then "timeless design, traditional elements, elegant"
  else if String.eqb style "bold"
  then "strong visual impact, dramatic elements, confident"
  else if String.eqb style "elegant" then "refined aesthetics, sophisticated, premium feel"
  else if String.eqb style "tech" then "futuristic elements, digital theme, innovation"
  else "".

(** The colour clause: none without colours, one colour named alone,
    several listed with commas and a final "and". *)
Definition colour_clause (colours : option (list string)) : string :=
  match colours with
  | None | Some [] => ""
  | Some [c] => ", primarily " +:+ c +:+ " color scheme"
  | Some cs =>
      ", using " +:+ join ", " (removelast cs) +:+ " and " +:+ List.last cs ""
        +:+ " colors"
  end.

Fixpoint has_dash (s : string) : bool :=
  match s with
  | EmptyString => false
  | String c s' => Ascii.eqb c "-" || has_dash s'
  end.

Definition any_dash (colours : option (list string)) : bool :=
  match colours with
  | Some cs => existsb has_dash cs
  | None => false
  end.

Lemma template_base (industry : option string) :
  str_or (option_map Prompts.base
            (if opt_truthy industry
             then match industry with
                  | Some i => Prompts.templates !! i
                  | None => None
                  end
             else None))
         "professional logo"
  = base_description industry.
Proof.
  destruct industry as [i|]; [|reflexivity]. unfold base_description.
  destruct (String.eqb_spec i "technology") as [->|H1]; [reflexivity|].
  destruct (String.eqb_spec i "healthcare") as [->|H2]; [reflexivity|].
  destruct (String.eqb_spec i "finance") as [->|H3]; [reflexivity|].
  destruct (String.eqb_spec i "retail") as [->|H4]; [reflexivity|].
  destruct (String.eqb_spec i "food") as [->|H5]; [reflexivity|].
  destruct (String.eqb_spec i "education") as [->|H6]; [reflexivity|].
  assert (Hnone : Prompts.templates !! i = None).
  { unfold Prompts.templates, Prompts.map_of. cbn [fold_left fst snd].
    rewrite !lookup_insert_ne by congruence. apply lookup_empty. }
  rewrite Hnone. now destruct (opt_truthy (Some i)).
Qed.

Lemma modifier_phrase (style : string) :
  str_or (Prompts.styleModifiers !! style) "" = style_phrase style.
Proof.
  unfold style_phrase.
  destruct (String.eqb_spec style "modern") as [->|H1]; [reflexivity|].
  destruct (String.eqb_spec style "vintage") as [->|H2]; [reflexivity|].
  destruct (String.eqb_spec style "minimal") as [->|H3]; [reflexivity|].
  destruct (String.eqb_spec style "playful") as [->|H4]; [reflexivity|].
  destruct (String.eqb_spec style "classic") as [->|H5]; [reflexivity|].
  destruct (String.eqb_spec style "bold") as [->|H6]; [reflexivity|].
  destruct (String.eqb_spec style "elegant") as [->|H7]; [reflexivity|].
  destruct (String.eqb_spec style "tech") as [->|H8]; [reflexivity|].
  assert (Hnone : Prompts.styleModifiers !! style = None).
  { unfold Prompts.styleModifiers, Prompts.map_of. cbn [fold_left fst snd].
    rewrite !lookup_insert_ne by congruence. apply lookup_empty. }
  now rewrite Hnone.
Qed.

(** The text [PromptEngine.optimize] composes, in full. *)
Lemma optimize_exact (request : LogoRequest) (options : GenerationOptions) :
  let style := str_or (opt_or (o_style options) (style request)) "modern" in
  Prompts.optimize request options
  = style +:+ " "
          +:+ base_description (opt_or (o_industry options) (industry request))
          +:+ " for " +:+ company request +:+ ": " +:+ prompt request +:+ ", "
          +:+ style_phrase style
          +:+ colour_clause (Prompts.colors_or (o_colors options) (colors request))
          +:+ fixed_quality_clause.
Proof.
  intros style0. unfold Prompts.optimize, Prompts.addQualityModifiers,
    Prompts.addStyleElements, Prompts.buildBasePrompt.
  fold style0. rewrite template_base, modifier_phrase.
  change (", " +:+ join ", " Prompts.qualityModifiers) with fixed_quality_clause.
  unfold Prompts.addColorGuidance, colour_clause, Prompts.conjunction.
  destruct (Prompts.colors_or (o_colors options) (colors request))
    as [[|c [|c' cs]]|]; rewrite ?append_assoc; cbn [String.append];
    rewrite ?append_assoc; reflexivity.
Qed.

Lemma has_dash_append (a b : string) :
  has_dash (a +:+ b) = has_dash a || has_dash b.
Proof.
  induction a as [|c a IH]; [reflexivity|]. cbn [String.append has_dash].
  now rewrite IH, orb_assoc.
Qed.

(** A text with a "--" in it has a dash. *)
Lemma double_dash_has_dash (s : string) :
  includes "--" s = true -> has_dash s = true.
Proof.
  induction s as [|c s IH]; [discriminate|]. cbn [includes has_dash].
  intros H. apply orb_prop in H. destruct H as [H|H].
  - apply prefix_iff in H. destruct H as [r Hr]. cbn [String.append] in Hr.
    injection Hr as -> _. reflexivity.
  - rewrite (IH H). apply orb_true_r.
Qed.

Lemma has_dash_join (xs : list string) :
  has_dash (join ", " xs) = existsb has_dash xs.
Proof.
  induction xs as [|x [|y rest] IH]; [reflexivity | cbn; now rewrite orb_false_r |].
  change (join ", " (x :: y :: rest)) with (x +:+ ", " +:+ join ", " (y :: rest)).
  rewrite !has_dash_append, IH. reflexivity.
Qed.

Lemma has_dash_colour_clause (colours : option (list string)) :
  has_dash (colour_clause colours) = any_dash colours.
Proof.
  destruct colours as [[|c [|c' cs]]|]; try reflexivity.
  - cbn [colour_clause any_dash existsb]. rewrite !has_dash_append. cbn.
    now rewrite !orb_false_r.
  - unfold colour_clause, any_dash.
    rewrite !has_dash_append, has_dash_join.
    rewrite (app_removelast_last "" (l := c :: c' :: cs)) at 3 by discriminate.
    rewrite existsb_app. cbn [existsb]. cbn [has_dash Ascii.eqb].
    cbn. now rewrite !orb_false_r.
Qed.

Lemma base_description_plain (industry : option string) :
  has_dash (base_description industry) = false /\
  includes "logo of" (base_description industry) = false.
Proof.
  destruct industry as [i|]; [|split; reflexivity]. unfold base_description.
  repeat match goal with
         | |- context [String.eqb i ?t] => destruct (String.eqb i t)
         end; split; reflexivity.
Qed.

Lemma style_phrase_plain (style : string) :
  has_dash (style_phrase style) = false /\
  includes "logo of" (style_phrase style) = false.
Proof.
  unfold style_phrase.
  repeat match goal with
         | |- context [String.eqb style ?t] => destruct (String.eqb style t)
         end; split; reflexivity.
Qed.

(** C1 (amended). With no template selected, the final prompt of a
    generation is the text of [PromptEngine.optimize]: every API call
    carries it and a returned result records it; a first answer with an
    image URL does return a result. That text is exactly the style name
    ([options.style], else [request.style], else "modern"), a space, the
    base description (the base text of the industry's template for the
    six industries that have one, "professional logo" for any other
    industry and for none), " for ", the company, ": ", the free-text
    prompt, ", ", the modifier phrase of the style (empty for a style
    outside the table), the colour clause (empty without colours,
    ", primarily c color scheme" for one colour, ", using ... and ...
    colors" for several) and the fixed quality clause, which contains "on
    white background". Every "-" of the text comes from the style name,
    the company, the prompt or a colour, so that the engine adds no "--"
    clause; and none of the parts the engine supplies (base description,
    modifier phrase, quality clause) contains "logo of". *)
Theorem untemplated_prompt_is_free_form
  (client : Client) (random : nat -> Q) (id : string) (now : Z)
  (request : LogoRequest) (options : GenerationOptions) :
  opt_truthy (o_template options) = false ->
  let style := str_or (opt_or (o_style options) (style request)) "modern" in
  let industry := opt_or (o_industry options) (industry request) in
  let colours := Prompts.colors_or (o_colors options) (colors request) in
  let final := Prompts.optimize request options in
  let out := generate client random id now request options in
  Forall (fun c => p_prompt c = final) (Retry.op_state (snd out)) /\
  (forall result, fst out = Retry.Returned result ->
                  m_finalPrompt (metadata result) = final) /\
  (forall u revised more,
      client 0%nat (buildAPIParams final options)
      = ApiResponse (Some (mkImage (Some u) revised :: more)) ->
      u <> "" ->
      exists result, fst out = Retry.Returned result) /\
  final = style +:+ " " +:+ base_description industry +:+ " for "
                +:+ company request +:+ ": " +:+ prompt request +:+ ", "
                +:+ style_phrase style +:+ colour_clause colours
                +:+ fixed_quality_clause /\
  String.prefix (style +:+ " ") final = true /\
  includes "on white background" final = true /\
  endsWith fixed_quality_clause final = true /\
  has_dash final
  = has_dash style || has_dash (company request) || has_dash (prompt request)
    || any_dash colours /\
  (has_dash final = false -> includes "--" final = false) /\
  includes "logo of" (base_description industry) = false /\
  includes "logo of" (style_phrase style) = false /\
  includes "logo of" fixed_quality_clause = false.
Proof.
  intros Hnone style0 industry0 colours0 final out.
  assert (Hout : out = Retry.execute
                         (operation client id now request options final)
                         random 3 []).
  { unfold out, generate. now rewrite Hnone. }
  destruct (operation_prompt client id now request options final random 3)
    as [Hcalls Hres].
  pose proof (optimize_exact request options) as Hshape.
  cbn zeta in Hshape. fold style0 industry0 colours0 final in Hshape.
  destruct (base_description_plain industry0) as [Hbase_dash Hbase_logo].
  destruct (style_phrase_plain style0) as [Hmods_dash Hmods_logo].
  split; [now rewrite Hout|]. split; [now rewrite Hout|]. split.
  { intros u revised more Hanswer Hu. rewrite Hout.
    unfold Retry.execute. simpl. unfold operation at 1. simpl. rewrite Hanswer.
    simpl. apply truthy_nonempty in Hu. rewrite Hu. simpl. eexists. reflexivity. }
  split; [exact Hshape|].
  split; [rewrite Hshape, <- append_assoc; apply prefix_append|].
  split.
  { rewrite Hshape. apply includes_occurs.
    do 10 apply occurs_append_l. apply includes_occurs. reflexivity. }
  split; [rewrite Hshape, <- !append_assoc; apply endsWith_append|].
  split.
  { rewrite Hshape, !has_dash_append, Hbase_dash, Hmods_dash, has_dash_colour_clause.
    cbn. now rewrite !orb_false_r, !orb_assoc. }
  split.
  { intros Hdash. destruct (includes "--" final) eqn:Hinc; [|reflexivity].
    apply double_dash_has_dash in Hinc. congruence. }
  split; [exact Hbase_logo|]. split; [exact Hmods_logo | reflexivity].
Qed.

(** An API that always answers with one image. *)
Definition sample_client : Client :=
  fun _ _ => ApiResponse (Some [mkImage (Some "https://img.example/1.png") None]).

Definition acme : LogoRequest :=
  mkRequest "Acme" "bold new idea" None None None None None.

Definition acme_prompt : string :=
  "modern professional logo for Acme: bold new idea, contemporary design, sleek lines, current trends, clean geometric shapes, scalable vector design, professional quality, suitable for branding, on white background, high contrast, memorable and distinctive".

Lemma untemplated_prompt_is_free_form_witness :
  Forall (fun c => p_prompt c = acme_prompt)
         (Retry.op_state
            (snd (generate sample_client (fun _ => 0%Q) "logo_1" 0 acme no_options))).
Proof.
  destruct (untemplated_prompt_is_free_form sample_client (fun _ => 0%Q) "logo_1" 0
              acme no_options) as [H _].
  - reflexivity.
  - exact H.
Defined.

(** C1 as stated fails on the example of the specification: the final
    prompt for company "Acme", prompt "bold new idea" and no template does
    not start with the style-keyword phrase, has no "logo of Acme, bold
    new idea" and carries no "--" clause. *)
Lemma structured_prompt_not_generated :
  exists result,
    fst (generate sample_client (fun _ => 0%Q) "logo_1" 0 acme no_options)
    = Retry.Returned result /\
    m_finalPrompt (metadata result) = acme_prompt /\
    String.prefix (Professional.getStyleKeywords "modern")
                  (m_finalPrompt (metadata result)) = false /\
    includes "logo of Acme, bold new idea" (m_finalPrompt (metadata result)) = false /\
    includes "--" (m_finalPrompt (metadata result)) = false.
Proof. eexists. vm_compute. repeat split; reflexivity. Qed.

(** The composition the claim describes is the one of
    [generateStructuredPrompt], which [generate] does not reach: style
    keywords, "logo of", company and prompt, the technical requirements,
    "on white background", then the "--" clauses of the default and the
    supplied negatives. *)
Lemma structured_prompt_shape (request : LogoRequest) (options : GenerationOptions) :
  Professional.generateStructuredPrompt request options
  = trim
      (Professional.getStyleKeywords
         (str_or (opt_or (o_style options) (style request)) "modern")
       +:+ " logo of " +:+ (company request +:+ ", " +:+ prompt request)
       +:+ " " +:+ Professional.getTechnicalRequirements options
       +:+ " on white background"
       +:+ " --" +:+ join " --"
             (Professional.getDefaultNegatives
                ++ default [] (o_negativePrompts options))%list).
Proof.
  unfold Professional.generateStructuredPrompt. f_equal.
  cbn [join]. rewrite !append_assoc. simpl.
  destruct (o_negativePrompts options); reflexivity.
Qed.

Example structured_prompt_acme :
  Professional.generateStructuredPrompt acme no_options
  = "Contemporary minimalist logo of Acme, bold new idea flat vector design, scalable, professional quality, high contrast on white background --no realistic details --no photorealistic details --no shading detail --no gradients --no 3D effects --no complex textures".
Proof. vm_compute. reflexivity. Qed.

(** C7. When the options name a template that the catalog does not have,
    [generateFromTemplate] throws "Template not found: " followed by the
    id, and [generate] throws that error before the retry wrapper runs:
    the operation is never invoked and no API call is made. *)
Theorem unknown_template_no_api_call
  (client : Client) (random : nat -> Q) (id : string) (now : Z)
  (request : LogoRequest) (options : GenerationOptions) (tid : string) :
  o_template options = Some tid ->
  tid <> "" ->
  Professional.templates !! tid = None ->
  let error := Retry.mkError false (Some ("Template not found: " +:+ tid)) in
  let out := generate client random id now request options in
  Professional.generateFromTemplate request options = inl error /\
  fst out = Retry.Threw error /\
  Retry.op_state (snd out) = [] /\
  Retry.invocations (Retry.trace (snd out)) = 0%nat.
Proof.
  intros Hopt Hne Hget. simpl.
  assert (Hgen : Professional.generateFromTemplate request options
                 = inl (Retry.mkError false (Some ("Template not found: " +:+ tid)))).
  { unfold Professional.generateFromTemplate. now rewrite Hopt, Hget. }
  split; [exact Hgen|].
  unfold generate, Professional.optimizePrompt. rewrite Hopt. simpl.
  apply truthy_nonempty in Hne. rewrite Hne, Hgen. simpl. auto.
Qed.

Lemma unknown_template_no_api_call_witness :
  fst (generate sample_client (fun _ => 0%Q) "logo_1" 0 acme
                (TemplateFacts.with_template "no-such-template"))
  = Retry.Threw (Retry.mkError false (Some "Template not found: no-such-template")) /\
  Retry.op_state
    (snd (generate sample_client (fun _ => 0%Q) "logo_1" 0 acme
                   (TemplateFacts.with_template "no-such-template"))) = [].
Proof.
  destruct (unknown_template_no_api_call sample_client (fun _ => 0%Q) "logo_1" 0 acme
              (TemplateFacts.with_template "no-such-template") "no-such-template")
    as [_ [H1 [H2 _]]].
  - reflexivity.
  - discriminate.
  - vm_compute. reflexivity.
  - split; [exact H1 | exact H2].
Defined.

End GeneratorFacts.

(** ** CSV parsing *)

Module CsvFacts.
Import Types Batch Js JsFacts.











Definition nl : string := String newline "".



(** The white space [trim] removes is that of ECMAScript, not only the
    ASCII blanks: a prompt cell that holds a no-break space (U+00A0, the
    bytes 194 160) is empty after trimming and its row is left out; a
    byte order mark in front of the header line (U+FEFF) is trimmed with
    it; a letter whose encoding ends in the byte 160 (U+00E0) is kept. *)
Definition no_break_space : string := of_bytes [194; 160]%nat.
Definition byte_order_mark : string := of_bytes [239; 187; 191]%nat.
Definition a_grave : string := of_bytes [195; 160]%nat.

Example trim_unicode_white_space :
  trim (no_break_space +:+ " logo " +:+ byte_order_mark +:+ of_bytes [226; 128; 168]%nat)
  = "logo" /\
  trim no_break_space = "" /\
  trim (" " +:+ a_grave +:+ " ") = a_grave /\
  trim (String (ascii_of_nat 160) " ") = String (ascii_of_nat 160) "".
Proof. repeat split; vm_compute; reflexivity. Qed.

Example no_break_space_prompt_dropped :
  parseCSV (byte_order_mark +:+ "company,prompt" +:+ nl +:+
            "Acme," +:+ no_break_space +:+ nl +:+
            "Beta, " +:+ a_grave +:+ " la carte " +:+ nl)
  = [mkRequest "Beta" (a_grave +:+ " la carte") None None None None None].
Proof. vm_compute. reflexivity. Qed.

End CsvFacts.

(** ** Batch processing *)

Module BatchFacts.
Import Types Batch.

Section Run.
Variable generate : nat -> LogoRequest -> GenerationOptions
                    -> Retry.JsError + LogoResult.
Variable download : nat -> LogoResult -> string -> option Z
                    -> Retry.JsError + string.
Variable createIterationManifest :
  string -> Z -> string -> list LogoResult -> option Retry.JsError.
Variable pLimit : Z -> option Retry.JsError.
Variable batch : BatchRequest.

(** How the task of the [i]-th request ends. *)
Definition outcome (i : nat) : option (LogoRequest * (Retry.JsError + LogoResult)) :=
  match nth_error (requests batch) i with
  | Some request => Some (request, attempt generate download batch i request)
  | None => None
  end.

Definition success_of (i : nat) : option LogoResult :=
  match outcome i with
  | Some (_, inr logoResult) => Some logoResult
  | _ => None
  end.

Definition failure_of (i : nat) : option (LogoRequest * Retry.JsError) :=
  match outcome i with
  | Some (request, inl error) => Some (request, error)
  | _ => None
  end.

Definition sum_costs (rs : list LogoResult) (start : Q) : Q :=
  fold_left (fun acc r => (acc + m_cost (metadata r))%Q) rs start.

(** [results'] is [results] with the tasks [ids] settled. *)
Definition extends (results results' : BatchResult) (ids : list nat) : Prop :=
  successful results' = (successful results ++ omap success_of ids)%list /\
  failed results' = (failed results ++ omap failure_of ids)%list /\
  total (stats results') = total (stats results) /\
  n_successful (stats results')
  = (n_successful (stats results) + Z.of_nat (length (omap success_of ids)))%Z /\
  n_failed (stats results')
  = (n_failed (stats results) + Z.of_nat (length (omap failure_of ids)))%Z /\
  totalCost (stats results')
  = sum_costs (omap success_of ids) (totalCost (stats results)).

Definition step (results : BatchResult) (i : nat) : BatchResult :=
  match nth_error (requests batch) i with
  | Some request => settle generate download batch i request results
  | None => results
  end.

Lemma extends_step (results : BatchResult) (i : nat) :
  extends results (step results i) [i].
Proof.
  unfold extends, step, success_of, failure_of, outcome, settle. cbn [omap list_omap].
  destruct (nth_error (requests batch) i) as [request|].
  - destruct (attempt generate download batch i request); cbn;
      rewrite ?app_nil_r; repeat split; lia.
  - cbn. rewrite ?app_nil_r. repeat split; lia.
Qed.

Lemma extends_trans (r1 r2 r3 : BatchResult) (ids1 ids2 : list nat) :
  extends r1 r2 ids1 -> extends r2 r3 ids2 -> extends r1 r3 (ids1 ++ ids2).
Proof.
  intros [A1 [A2 [A3 [A4 [A5 A6]]]]] [B1 [B2 [B3 [B4 [B5 B6]]]]].
  unfold extends. rewrite !omap_app, !length_app, B1, B2, B3, B4, B5, B6,
    A1, A2, A3, A4, A5, A6, <- !app_assoc.
  repeat split; try lia. unfold sum_costs. now rewrite fold_left_app.
Qed.

(** What the tasks that settle in the order [completion] add to the
    shared [results]. *)
Lemma run_tasks_spec (completion : list nat) :
  forall results,
    extends results (run_tasks generate download batch completion results)
            completion.
Proof.
  induction completion as [|i rest IH]; intros results.
  - unfold extends. cbn. rewrite !app_nil_r. repeat split; lia.
  - change (i :: rest) with ([i] ++ rest)%list at 2.
    apply (extends_trans results (step results i)); [apply extends_step|].
    apply IH.
Qed.


End Run.







Definition write_error : Retry.JsError :=
  Retry.mkError false (Some "No space left on device").




End BatchFacts.

(** ** Retry wrapper: bounds and exhaustion *)

Module RetryBounds.
Import Retry.

Lemma invocations_backoff {S : Type} (random : nat -> Q) (maxRetries : Z)
      (warn : Q -> Z -> Z -> Event) (attempt : Z) (st : Run S) :
  warn = WarnRateLimited \/ warn = WarnTemporary ->
  let st' := backoff random maxRetries warn attempt st in
  invocations (trace st') = invocations (trace st) /\
  List.length (sleeps (trace st')) = Datatypes.S (List.length (sleeps (trace st))) /\
  draws st' = Datatypes.S (draws st) /\
  op_state st' = op_state st.
Proof.
  intros Hwarn. unfold backoff. cbn [trace draws op_state].
  rewrite RetryFacts.invocations_app, RetryFacts.sleeps_app, length_app.
  destruct Hwarn as [-> | ->]; cbn; repeat split; lia.
Qed.

(** One more invocation, recorded at the end of the trace. *)
Lemma invoked {S : Type} (s' : S) (st : Run S) :
  let st1 := mkRun s' (draws st) (trace st ++ [Invoke]) in
  invocations (trace st1) = Datatypes.S (invocations (trace st)) /\
  List.length (sleeps (trace st1)) = List.length (sleeps (trace st)) /\
  draws st1 = draws st.
Proof.
  cbn [trace draws].
  rewrite RetryFacts.invocations_app, RetryFacts.sleeps_app, length_app.
  cbn. repeat split; lia.
Qed.

Lemma loop_counts {S T : Type} (op : S -> (JsError + T) * S)
      (random : nat -> Q) (maxRetries : Z) :
  forall remaining attempt lastError st,
    let run := snd (loop op random maxRetries remaining attempt lastError st) in
    exists k : nat,
      (k <= remaining)%nat /\ (Nat.min 1 remaining <= k)%nat /\
      invocations (trace run) = (invocations (trace st) + k)%nat /\
      (List.length (sleeps (trace run)) <= List.length (sleeps (trace st)) + k)%nat /\
      (draws run + List.length (sleeps (trace st))
       = draws st + List.length (sleeps (trace run)))%nat.
Proof.
  induction remaining as [|n IH]; intros attempt lastError st; cbn [loop].
  - exists 0%nat. cbn. repeat split; lia.
  - destruct (op (op_state st)) as [[error|v] s'].
    + destruct (invoked s' st) as [Hi [Hs Hd]].
      set (st1 := mkRun s' (draws st) (trace st ++ [Invoke])) in *.
      assert (Hretry : forall warn,
                 warn = WarnRateLimited \/ warn = WarnTemporary ->
                 let run := snd (loop op random maxRetries n (attempt + 1) (Some error)
                                      (backoff random maxRetries warn attempt st1)) in
                 exists k : nat,
                   (k <= Datatypes.S n)%nat /\ (1 <= k)%nat /\
                   invocations (trace run) = (invocations (trace st) + k)%nat /\
                   (List.length (sleeps (trace run))
                    <= List.length (sleeps (trace st)) + k)%nat /\
                   (draws run + List.length (sleeps (trace st))
                    = draws st + List.length (sleeps (trace run)))%nat).
      { intros warn Hwarn.
        destruct (invocations_backoff random maxRetries warn attempt st1 Hwarn)
          as [Bi [Bs [Bd _]]].
        destruct (IH (attempt + 1)%Z (Some error)
                     (backoff random maxRetries warn attempt st1))
          as [k [Hk [_ [Ki [Ks Kd]]]]].
        exists (Datatypes.S k). cbn zeta. repeat split; lia. }
      destruct (isRateLimitError error).
      * destruct (Hretry WarnRateLimited) as [k Hk]; [now left|].
        exists k. cbn zeta in Hk. cbn zeta. intuition lia.
      * destruct (isRetryableError error && (attempt <? maxRetries)%Z).
        -- destruct (Hretry WarnTemporary) as [k Hk]; [now right|].
           exists k. cbn zeta in Hk. cbn zeta. intuition lia.
        -- exists 1%nat. cbn [snd]. repeat split; lia.
    + destruct (invoked s' st) as [Hi [Hs Hd]].
      exists 1%nat. cbn [snd]. repeat split; lia.
Qed.

Lemma execute_at_most {S T : Type} (op : S -> (JsError + T) * S)
      (random : nat -> Q) (maxRetries : Z) (s : S) :
  (invocations (trace (snd (execute op random maxRetries s))) <= Z.to_nat maxRetries)%nat.
Proof.
  destruct (loop_counts op random maxRetries (Z.to_nat maxRetries) 1 None
              (mkRun s 0%nat [])) as [k [Hk [_ [Hi _]]]].
  unfold execute. cbn in Hi. lia.
Qed.

(** X1. Whatever the operation does, [execute] invokes it at most
    [maxRetries] times, and at least once when [maxRetries] is positive;
    it never sleeps more often than it invokes, and it draws one random
    number per sleep. *)
Theorem execute_invocation_bounds
  {S T : Type} (op : S -> (JsError + T) * S) (random : nat -> Q)
  (maxRetries : Z) (s : S) :
  let run := snd (execute op random maxRetries s) in
  (Nat.min 1 (Z.to_nat maxRetries) <= invocations (trace run))%nat /\
  (invocations (trace run) <= Z.to_nat maxRetries)%nat /\
  (List.length (sleeps (trace run)) <= invocations (trace run))%nat /\
  draws run = List.length (sleeps (trace run)).
Proof.
  destruct (loop_counts op random maxRetries (Z.to_nat maxRetries) 1 None
              (mkRun s 0%nat [])) as [k [Hk [Hmin [Hi [Hs Hd]]]]].
  unfold execute. cbn zeta. cbn in Hi, Hs, Hd. repeat split; lia.
Qed.

Lemma loop_rate_limited {S T : Type} (op : S -> (JsError + T) * S)
      (random : nat -> Q) (maxRetries : Z) :
  (forall s, exists e, fst (op s) = inl e /\ isRateLimitError e = true) ->
  forall remaining attempt lastError st,
    match lastError with
    | Some e => isRateLimitError e = true
    | None => (0 < remaining)%nat
    end ->
    let res := loop op random maxRetries remaining attempt lastError st in
    (exists e, fst res = Threw e /\ isRateLimitError e = true) /\
    invocations (trace (snd res)) = (invocations (trace st) + remaining)%nat /\
    List.length (sleeps (trace (snd res)))
    = (List.length (sleeps (trace st)) + remaining)%nat.
Proof.
  intros Hop. induction remaining as [|n IH]; intros attempt lastError st Hlast;
    cbn [loop].
  - destruct lastError as [e|]; [|lia]. cbn. split; [now exists e|]. lia.
  - destruct (Hop (op_state st)) as [e [He Hrl]].
    destruct (op (op_state st)) as [res s']. cbn in He. subst res.
    rewrite Hrl.
    destruct (invoked s' st) as [Hi [Hs _]].
    set (st1 := mkRun s' (draws st) (trace st ++ [Invoke])) in *.
    destruct (invocations_backoff random maxRetries WarnRateLimited attempt st1)
      as [Bi [Bs _]]; [now left|].
    destruct (IH (attempt + 1)%Z (Some e)
                 (backoff random maxRetries WarnRateLimited attempt st1) Hrl)
      as [Hres [Ki Ks]].
    cbn zeta. split; [exact Hres|]. split; lia.
Qed.

(** X2. An operation that keeps failing with a rate-limit error is invoked
    exactly [maxRetries] times; [execute] backs off after every one of
    them, the last included, and then throws a rate-limit error. *)
Theorem rate_limited_until_exhausted
  {S T : Type} (op : S -> (JsError + T) * S) (random : nat -> Q)
  (maxRetries : Z) (s : S) :
  (0 < maxRetries)%Z ->
  (forall s, exists e, fst (op s) = inl e /\ isRateLimitError e = true) ->
  let res := execute op random maxRetries s in
  (exists e, fst res = Threw e /\ isRateLimitError e = true) /\
  invocations (trace (snd res)) = Z.to_nat maxRetries /\
  List.length (sleeps (trace (snd res))) = Z.to_nat maxRetries.
Proof.
  intros Hpos Hop.
  destruct (loop_rate_limited op random maxRetries Hop (Z.to_nat maxRetries) 1 None
              (mkRun s 0%nat [])) as [Hres [Hi Hs]]; [cbn; lia|].
  unfold execute. cbn zeta. split; [exact Hres|]. cbn in Hi, Hs. split; lia.
Qed.

Definition quota_error : JsError := mkError false (Some "Quota exceeded for today").

Definition throttled_op (k : nat) : (JsError + nat) * nat := (inl quota_error, S k).

Lemma rate_limited_until_exhausted_witness :
  invocations (trace (snd (execute throttled_op (fun _ => 0%Q) 3 0%nat))) = 3%nat /\
  List.length (sleeps (trace (snd (execute throttled_op (fun _ => 0%Q) 3 0%nat))))
  = 3%nat.
Proof.
  destruct (rate_limited_until_exhausted throttled_op (fun _ => 0%Q) 3 0%nat)
    as [_ H].
  - lia.
  - intros k. exists quota_error. split; reflexivity.
  - exact H.
Defined.

Lemma loop_retryable {S T : Type} (op : S -> (JsError + T) * S)
      (random : nat -> Q) (maxRetries : Z) :
  (forall s, exists e, fst (op s) = inl e /\ isRateLimitError e = false /\
                       isRetryableError e = true) ->
  forall remaining attempt lastError st,
    Z.of_nat (Datatypes.S remaining) = (maxRetries - attempt + 1)%Z ->
    let res := loop op random maxRetries (Datatypes.S remaining) attempt lastError st in
    (exists e, fst res = Threw e /\ isRetryableError e = true) /\
    invocations (trace (snd res)) = (invocations (trace st) + Datatypes.S remaining)%nat /\
    List.length (sleeps (trace (snd res)))
    = (List.length (sleeps (trace st)) + remaining)%nat.
Proof.
  intros Hop. induction remaining as [|n IH]; intros attempt lastError st Hrem.
  - cbn [loop].
    destruct (Hop (op_state st)) as [e [He [Hrl Hrt]]].
    destruct (op (op_state st)) as [res s']. cbn in He. subst res.
    rewrite Hrl, Hrt.
    replace (attempt <? maxRetries)%Z with false by (symmetry; apply Z.ltb_ge; lia).
    destruct (invoked s' st) as [Hi [Hs _]].
    cbn. split; [now exists e|]. cbn in Hi, Hs. split; lia.
  - change (loop op random maxRetries (Datatypes.S (Datatypes.S n)) attempt lastError st)
      with (let (res, s') := op (op_state st) in
            let st1 := mkRun s' (draws st) (trace st ++ [Invoke]) in
            match res with
            | inr v => (Returned v, st1)
            | inl error =>
                if isRateLimitError error then
                  loop op random maxRetries (Datatypes.S n) (attempt + 1) (Some error)
                       (backoff random maxRetries WarnRateLimited attempt st1)
                else if isRetryableError error && (attempt <? maxRetries)%Z then
                  loop op random maxRetries (Datatypes.S n) (attempt + 1) (Some error)
                       (backoff random maxRetries WarnTemporary attempt st1)
                else (Threw error, st1)
            end).
    destruct (Hop (op_state st)) as [e [He [Hrl Hrt]]].
    destruct (op (op_state st)) as [res s']. cbn in He. subst res.
    cbn zeta. rewrite Hrl, Hrt.
    replace (attempt <? maxRetries)%Z with true by (symmetry; apply Z.ltb_lt; lia).
    cbn [andb].
    destruct (invoked s' st) as [Hi [Hs _]].
    set (st1 := mkRun s' (draws st) (trace st ++ [Invoke])) in *.
    destruct (invocations_backoff random maxRetries WarnTemporary attempt st1)
      as [Bi [Bs _]]; [now right|].
    destruct (IH (attempt + 1)%Z (Some e)
                 (backoff random maxRetries WarnTemporary attempt st1))
      as [Hres [Ki Ks]]; [lia|].
    split; [exact Hres|]. rewrite Ki, Ks, Bi, Bs, Hi, Hs. split; lia.
Qed.

(** X3. An operation that keeps failing with a network-type error (and not
    a rate-limit one) is invoked exactly [maxRetries] times, with a sleep
    between two invocations only: after the last attempt the error is
    thrown at once. *)
Theorem retryable_until_exhausted
  {S T : Type} (op : S -> (JsError + T) * S) (random : nat -> Q)
  (maxRetries : Z) (s : S) :
  (0 < maxRetries)%Z ->
  (forall s, exists e, fst (op s) = inl e /\ isRateLimitError e = false /\
                       isRetryableError e = true) ->
  let res := execute op random maxRetries s in
  (exists e, fst res = Threw e /\ isRetryableError e = true) /\
  invocations (trace (snd res)) = Z.to_nat maxRetries /\
  List.length (sleeps (trace (snd res))) = (Z.to_nat maxRetries - 1)%nat.
Proof.
  intros Hpos Hop. unfold execute.
  destruct (Z.to_nat maxRetries) as [|n] eqn:Hn; [lia|].
  destruct (loop_retryable op random maxRetries Hop n 1 None (mkRun s 0%nat []))
    as [Hres [Hi Hs]]; [lia|].
  change (invocations (trace (mkRun s 0%nat []))) with 0%nat in Hi.
  change (List.length (sleeps (trace (mkRun s 0%nat [])))) with 0%nat in Hs.
  cbn zeta. split; [exact Hres|]. split; lia.
Qed.

Definition socket_error : JsError := mkError false (Some "Socket hang up").

Definition offline_op (k : nat) : (JsError + nat) * nat := (inl socket_error, S k).

Lemma retryable_until_exhausted_witness :
  invocations (trace (snd (execute offline_op (fun _ => 0%Q) 3 0%nat))) = 3%nat /\
  List.length (sleeps (trace (snd (execute offline_op (fun _ => 0%Q) 3 0%nat))))
  = 2%nat.
Proof.
  destruct (retryable_until_exhausted offline_op (fun _ => 0%Q) 3 0%nat)
    as [_ H].
  - lia.
  - intros k. exists socket_error. repeat split; reflexivity.
  - exact H.
Defined.

Lemma two_power (a : Z) :
  (1 <= a)%Z -> (2 ^ (a - 1) == inject_Z (2 ^ (a - 1)))%Q.
Proof.
  intros Ha. symmetry. apply (Zpower_Qpower 2 (a - 1)). lia.
Qed.

(** X4. With a random value in [[0, 1)], the delay before the retry that
    follows attempt [a >= 1] lies between 1000 and 30000 milliseconds; up
    to the fifth attempt the cap is not reached, from the sixth on the
    delay is the cap itself and the jitter no longer shows. *)
Theorem backoff_delay_bounds (attempt : Z) (r : Q) :
  (1 <= attempt)%Z -> (0 <= r)%Q -> (r < 1)%Q ->
  (1000 <= calculateBackoffDelay attempt r)%Q /\
  (calculateBackoffDelay attempt r <= 30000)%Q /\
  ((attempt <= 5)%Z ->
   (calculateBackoffDelay attempt r == 1000 * 2 ^ (attempt - 1) + r * 1000)%Q) /\
  ((6 <= attempt)%Z -> (calculateBackoffDelay attempt r == 30000)%Q).
Proof.
  intros Ha Hr0 Hr1. unfold calculateBackoffDelay, jitter.
  pose proof (two_power attempt Ha) as Hpow.
  assert (Hj0 : (0 <= r * 1000)%Q) by (apply Qmult_le_0_compat; [exact Hr0 | discriminate]).
  assert (Hj1 : (r * 1000 < 1000)%Q).
  { change (1000%Q) with (1 * 1000)%Q at 2.
    apply Qmult_lt_compat_r; [reflexivity | exact Hr1]. }
  assert (Hp1 : (1 <= 2 ^ (attempt - 1))%Z).
  { change 1%Z with (2 ^ 0)%Z at 1. apply Z.pow_le_mono_r; lia. }
  assert (Hlow : (1000 <= 1000 * 2 ^ (attempt - 1) + r * 1000)%Q).
  { rewrite Hpow.
    assert (H1 : (1000 <= 1000 * inject_Z (2 ^ (attempt - 1)))%Q).
    { rewrite <- (Qmult_1_r 1000) at 1.
      apply Qmult_le_l; [reflexivity|].
      change 1%Q with (inject_Z 1). rewrite <- Zle_Qle. exact Hp1. }
    rewrite <- (Qplus_0_r 1000) at 1.
    apply Qplus_le_compat; assumption. }
  split; [|split; [|split]].
  - apply Q.min_glb; [exact Hlow | discriminate].
  - apply Q.le_min_r.
  - intros H5. apply Q.min_l.
    rewrite Hpow.
    assert (Hp16 : (2 ^ (attempt - 1) <= 16)%Z).
    { change 16%Z with (2 ^ 4)%Z. apply Z.pow_le_mono_r; lia. }
    assert (H16 : (1000 * inject_Z (2 ^ (attempt - 1)) <= 16000)%Q).
    { change 16000%Q with (1000 * inject_Z 16)%Q.
      apply Qmult_le_l; [reflexivity|]. rewrite <- Zle_Qle. exact Hp16. }
    apply Qle_trans with (16000 + 1000)%Q; [|discriminate].
    apply Qplus_le_compat; [exact H16 | now apply Qlt_le_weak].
  - intros H6. apply Q.min_r.
    rewrite Hpow.
    assert (Hp32 : (32 <= 2 ^ (attempt - 1))%Z).
    { change 32%Z with (2 ^ 5)%Z. apply Z.pow_le_mono_r; lia. }
    assert (H32 : (32000 <= 1000 * inject_Z (2 ^ (attempt - 1)))%Q).
    { change 32000%Q with (1000 * inject_Z 32)%Q.
      apply Qmult_le_l; [reflexivity|]. rewrite <- Zle_Qle. exact Hp32. }
    apply Qle_trans with (32000 + 0)%Q; [discriminate|].
    apply Qplus_le_compat; assumption.
Qed.

Lemma backoff_delay_bounds_witness :
  (calculateBackoffDelay 3 (1 # 2) == 4500)%Q /\
  (calculateBackoffDelay 7 (1 # 2) == 30000)%Q.
Proof.
  split.
  - destruct (backoff_delay_bounds 3 (1 # 2)) as [_ [_ [H _]]];
      [lia | discriminate | reflexivity |].
    rewrite H; [reflexivity | lia].
  - destruct (backoff_delay_bounds 7 (1 # 2)) as [_ [_ [_ H]]];
      [lia | discriminate | reflexivity |].
    apply H. lia.
Defined.

Lemma loop_thrown {S T : Type} (op : S -> (JsError + T) * S)
      (random : nat -> Q) (maxRetries : Z) (R : JsError -> Prop) :
  (forall s e, fst (op s) = inl e -> R e) ->
  forall remaining attempt lastError st,
    match lastError with
    | Some e => R e
    | None => (0 < remaining)%nat
    end ->
    match fst (loop op random maxRetries remaining attempt lastError st) with
    | Returned _ => True
    | Threw e => R e
    | ThrewUndefined => False
    end.
Proof.
  intros Hop. induction remaining as [|n IH]; intros attempt lastError st Hlast;
    cbn [loop].
  - destruct lastError as [e|]; [exact Hlast | lia].
  - pose proof (Hop (op_state st)) as He.
    destruct (op (op_state st)) as [[error|v] s']; [|exact I].
    specialize (He error eq_refl).
    destruct (isRateLimitError error); [now apply IH|].
    destruct (isRetryableError error && (attempt <? maxRetries)%Z);
      [now apply IH | exact He].
Qed.

(** X5. With a positive [maxRetries], [execute] either returns or throws
    an error the operation itself threw: it never invents an error and
    never throws [undefined]. *)
Theorem execute_throws_operation_error
  {S T : Type} (op : S -> (JsError + T) * S) (random : nat -> Q)
  (maxRetries : Z) (s : S) (R : JsError -> Prop) :
  (0 < maxRetries)%Z ->
  (forall s e, fst (op s) = inl e -> R e) ->
  match fst (execute op random maxRetries s) with
  | Returned _ => True
  | Threw e => R e
  | ThrewUndefined => False
  end.
Proof.
  intros Hpos Hop. unfold execute.
  apply (loop_thrown op random maxRetries R Hop). cbn. lia.
Qed.

Lemma execute_throws_operation_error_witness :
  match fst (execute offline_op (fun _ => 0%Q) 2 0%nat) with
  | Returned _ => True
  | Threw e => e = socket_error
  | ThrewUndefined => False
  end.
Proof.
  apply (execute_throws_operation_error offline_op (fun _ => 0%Q) 2 0%nat
           (fun e => e = socket_error)).
  - lia.
  - intros k e [= <-]. reflexivity.
Defined.

(** With [maxRetries <= 0] the loop body never runs: the operation is
    not invoked, nothing is slept, and [execute] throws the initial value
    of [lastError], which is [undefined]. *)
Theorem execute_without_attempts
  {S T : Type} (op : S -> (JsError + T) * S) (random : nat -> Q)
  (maxRetries : Z) (s : S) :
  (maxRetries <= 0)%Z ->
  execute op random maxRetries s = (ThrewUndefined, mkRun s 0%nat []).
Proof.
  intros Hle. unfold execute.
  replace (Z.to_nat maxRetries) with 0%nat by lia. reflexivity.
Qed.

Lemma execute_without_attempts_witness :
  execute offline_op (fun _ => 0%Q) 0 7%nat = (ThrewUndefined, mkRun 7%nat 0%nat []).
Proof.
  apply (execute_without_attempts offline_op (fun _ => 0%Q) 0 7%nat). lia.
Defined.

End RetryBounds.

(** ** Cache manager: keys, invariants of the directory, clearing *)

Module CacheInvariants.
Import Types Cache.
Local Open Scope Z_scope.

Lemma canonical_default_style (company prompt : string) (cols : option (list string)) :
  canonical company prompt None cols = canonical company prompt (Some "default") cols /\
  canonical company prompt (Some "") cols = canonical company prompt (Some "default") cols.
Proof. split; reflexivity. Qed.

Lemma canonical_no_colors (company prompt : string) (style : option string) :
  canonical company prompt style None = canonical company prompt style (Some []).
Proof. reflexivity. Qed.

Lemma canonical_separator (a b prompt : string) (style : option string)
      (cols : option (list string)) :
  canonical (a +:+ ":" +:+ b) prompt style cols
  = canonical a (b +:+ ":" +:+ prompt) style cols.
Proof.
  unfold canonical. rewrite !JsFacts.append_assoc. reflexivity.
Qed.

(** X6. What the cache key cannot tell apart: a missing style, an empty
    one and the style ["default"]; a missing colour list and an empty one;
    and, the fields being joined by [":"] without escaping, a colon at the
    end of the company name and one at the start of the prompt. *)
Theorem createPromptHash_collisions
  (company prompt a b : string) (style : option string)
  (cols : option (list string)) :
  createPromptHash company prompt None cols
  = createPromptHash company prompt (Some "default") cols /\
  createPromptHash company prompt (Some "") cols
  = createPromptHash company prompt (Some "default") cols /\
  createPromptHash company prompt style None
  = createPromptHash company prompt style (Some []) /\
  createPromptHash (a +:+ ":" +:+ b) prompt style cols
  = createPromptHash a (b +:+ ":" +:+ prompt) style cols.
Proof.
  unfold createPromptHash.
  destruct (canonical_default_style company prompt cols) as [-> ->].
  rewrite canonical_no_colors, canonical_separator. repeat split; reflexivity.
Qed.


Lemma named_self {A : Type} (g : A -> string) (xs : list A) (x : A) (e : DirEntry) :
  In x xs -> name e = g x -> CleanupFacts.named g xs e = true.
Proof.
  intros Hin Hn. unfold CleanupFacts.named. apply existsb_exists.
  exists x. split; [exact Hin|]. now apply String.eqb_eq.
Qed.

Lemma named_In {A : Type} (g : A -> string) (xs : list A) (e : DirEntry) :
  CleanupFacts.named g xs e = true -> exists x, In x xs /\ name e = g x.
Proof.
  unfold CleanupFacts.named. intros H. apply existsb_exists in H.
  destruct H as [x [Hin Hx]]. exists x. split; [exact Hin|]. now apply String.eqb_eq.
Qed.

Lemma fold_remove_when (xs : list DirEntry) :
  forall entries,
    fold_left (fun d e => if is_cache_file e then remove_file (name e) d else d)
              xs entries
    = fold_left (fun d e => remove_file (name e) d) (cache_files xs) entries.
Proof.
  induction xs as [|x rest IH]; intros entries; simpl; [reflexivity|].
  destruct (is_cache_file x); simpl; apply IH.
Qed.

Definition cleared (entries : list DirEntry) : list DirEntry :=
  List.filter (fun e => negb (CleanupFacts.named name (cache_files entries) e)) entries.

Lemma clear_dir (st : CacheManager) :
  cacheDir (clear st) = option_map cleared (cacheDir st).
Proof.
  unfold clear. simpl. destruct (cacheDir st) as [entries|]; [|reflexivity].
  simpl. now rewrite fold_remove_when, (CleanupFacts.fold_remove_filter name).
Qed.




Lemma evict_In (max : Z) (e : DirEntry) :
  forall files cur, In e (evict max files cur) -> In e files.
Proof.
  induction files as [|f rest IH]; intros cur; simpl; [tauto|].
  destruct (within_headroom cur max); simpl; [tauto|].
  intros [->|H]; [now left | right; now apply (IH (cur - fsize f))].
Qed.

(** The directory [cleanup] leaves. *)
Definition dir_after (now max : Z) (entries : list DirEntry) : list DirEntry :=
  let entries1 :=
    fold_left (fun d n => remove_file n d) (fst (scan now entries)) entries in
  if snd (scan now entries) >? max then cleanupBySize max entries1 else entries1.

Lemma cleanup_unfold (now : Z) (st : CacheManager) (entries : list DirEntry) :
  cacheDir st = Some entries ->
  cleanup now st
  = mkManager (filter (fun kv => isExpired now (snd kv) = false) (memoryCache st))
              (Some (dir_after now (maxSize st) entries)) (ttl st) (maxSize st).
Proof.
  intros Hdir. unfold cleanup, dir_after. rewrite Hdir.
  now destruct (scan now entries) as [expiredFiles totalSize].
Qed.

Lemma expiry_pass_filter (now : Z) (entries : list DirEntry) :
  fold_left (fun d n => remove_file n d) (fst (scan now entries)) entries
  = List.filter
      (fun e => negb (CleanupFacts.named name
                        (List.filter (marked now) (cache_files entries)) e))
      entries.
Proof.
  rewrite CleanupFacts.scan_spec. simpl.
  rewrite (CleanupFacts.fold_remove_filter (fun n : string => n)).
  apply List.filter_ext. intros e. now rewrite CleanupFacts.named_map_name.
Qed.

Lemma cleanupBySize_filter (max : Z) (entries : list DirEntry) :
  cleanupBySize max entries
  = List.filter
      (fun e => negb (CleanupFacts.named name
                        (evict max (sort_by_mtime (cache_files entries))
                               (total_size (sort_by_mtime (cache_files entries)))) e))
      entries.
Proof. unfold cleanupBySize. apply (CleanupFacts.fold_remove_filter name). Qed.

Lemma dir_after_incl (now max : Z) (entries : list DirEntry) (e : DirEntry) :
  In e (dir_after now max entries) ->
  In e entries /\
  CleanupFacts.named name (List.filter (marked now) (cache_files entries)) e = false.
Proof.
  unfold dir_after. rewrite expiry_pass_filter.
  set (entries1 := List.filter _ entries).
  assert (H1 : In e entries1 ->
               In e entries /\
               CleanupFacts.named name (List.filter (marked now) (cache_files entries)) e
               = false).
  { unfold entries1. intros H. apply filter_In in H. destruct H as [Hin Hn].
    split; [exact Hin|]. now apply negb_true_iff. }
  destruct (snd (scan now entries) >? max); [|exact H1].
  rewrite cleanupBySize_filter. intros H. apply filter_In in H. now apply H1.
Qed.

Lemma dir_after_unmarked (now max : Z) (entries : list DirEntry) (e : DirEntry) :
  In e (dir_after now max entries) -> is_cache_file e = true -> marked now e = false.
Proof.
  intros Hin Hc. destruct (dir_after_incl now max entries e Hin) as [He Hn].
  destruct (marked now e) eqn:Hm; [|reflexivity].
  rewrite (named_self name _ e e) in Hn; [discriminate| |reflexivity].
  apply filter_In. split; [|exact Hm]. unfold cache_files. apply filter_In. now split.
Qed.

Lemma dir_after_nodup (now max : Z) (entries : list DirEntry) :
  List.NoDup (map name entries) -> List.NoDup (map name (dir_after now max entries)).
Proof.
  intros Hnd. unfold dir_after. rewrite expiry_pass_filter.
  destruct (snd (scan now entries) >? max).
  - rewrite cleanupBySize_filter. now do 2 apply CleanupFacts.nodup_names_filter.
  - now apply CleanupFacts.nodup_names_filter.
Qed.

(** X8. After a [cleanup] pass over an existing directory, nothing expired
    is left: every entry still in memory is unexpired at the time of the
    pass, and every cache file still in the directory parses and is
    unexpired. *)
Theorem cleanup_purges_expired (now : Z) (st : CacheManager)
        (entries : list DirEntry) :
  cacheDir st = Some entries ->
  (forall k c, memoryCache (cleanup now st) !! k = Some c -> isExpired now c = false) /\
  (exists entries',
      cacheDir (cleanup now st) = Some entries' /\
      forall e, In e entries' -> is_cache_file e = true ->
                exists c, content e = Entry c /\ isExpired now c = false).
Proof.
  intros Hdir. split.
  - intros k c. rewrite StoreFacts.cleanup_memory, Hdir.
    destruct (memoryCache st !! k) as [c'|]; [|discriminate].
    destruct (isExpired now c') eqn:He; [discriminate|]. now intros [= <-].
  - rewrite (cleanup_unfold now st entries Hdir). eexists. split; [reflexivity|].
    intros e Hin Hc.
    pose proof (dir_after_unmarked now (maxSize st) entries e Hin Hc) as Hm.
    unfold marked in Hm. destruct (content e) as [c|]; [|discriminate].
    now exists c.
Qed.

Definition stale_logo : LogoResult :=
  mkResult "https://img.example/old.png" None
    (mkMetadata "logo_old" 10 "Acme" "old idea" "old prompt" "modern" None
                "1024x1024" "standard" (7 # 100))
    None.

Definition stale_dir : list DirEntry :=
  [mkEntry "old.json" true (Entry (mkCached stale_logo 100 false)) 300 (Some 5);
   mkEntry "broken.json" true Unparsable 20 (Some 6);
   mkEntry "new.json" true (Entry (mkCached stale_logo 900 false)) 300 (Some 7);
   mkEntry "notes.txt" true Unparsable 50 None;
   mkEntry "thumbs" false Unparsable 0 None].

Definition stale_cache : CacheManager :=
  mkManager (<["old" := mkCached stale_logo 100 false]>
               (<["new" := mkCached stale_logo 900 false]> ∅))
            (Some stale_dir) 1000 1048576.

Lemma cleanup_purges_expired_witness :
  (forall k c, memoryCache (cleanup 500 stale_cache) !! k = Some c ->
               isExpired 500 c = false) /\
  (exists entries',
      cacheDir (cleanup 500 stale_cache) = Some entries' /\
      forall e, In e entries' -> is_cache_file e = true ->
                exists c, content e = Entry c /\ isExpired 500 c = false).
Proof.
  apply (cleanup_purges_expired 500 stale_cache stale_dir). reflexivity.
Defined.

Lemma named_other_kind (l xs : list DirEntry) (e : DirEntry) :
  List.NoDup (map name l) -> In e l -> is_cache_file e = false ->
  (forall x, In x xs -> In x l /\ is_cache_file x = true) ->
  CleanupFacts.named name xs e = false.
Proof.
  intros Hnd He Hc Hxs.
  destruct (CleanupFacts.named name xs e) eqn:Hn; [|reflexivity].
  apply named_In in Hn. destruct Hn as [x [Hx Hname]].
  destruct (Hxs x Hx) as [Hxl Hxc].
  rewrite (CleanupFacts.same_name_same_entry l e x Hnd He Hxl Hname) in Hc.
  congruence.
Qed.

Lemma filter_swap {A : Type} (f g : A -> bool) (l : list A) :
  List.filter f (List.filter g l) = List.filter g (List.filter f l).
Proof.
  rewrite !CleanupFacts.filter_filter. apply List.filter_ext.
  intros x. apply andb_comm.
Qed.

(** Removing cache files by name, in a directory with distinct names,
    leaves the other entries as they are. *)
Lemma others_kept (l xs : list DirEntry) :
  List.NoDup (map name l) ->
  (forall x, In x xs -> In x l /\ is_cache_file x = true) ->
  List.filter (fun e => negb (is_cache_file e))
              (List.filter (fun e => negb (CleanupFacts.named name xs e)) l)
  = List.filter (fun e => negb (is_cache_file e)) l.
Proof.
  intros Hnd Hxs. rewrite filter_swap.
  apply CleanupFacts.filter_all. intros e He. apply filter_In in He.
  destruct He as [He Hc]. apply negb_true_iff in Hc.
  now rewrite (named_other_kind l xs e Hnd He Hc Hxs).
Qed.

Lemma sorted_In (files : list DirEntry) (x : DirEntry) :
  In x (sort_by_mtime files) -> In x files.
Proof.
  apply Permutation_in. apply Permutation_sym, CleanupFacts.sort_by_mtime_permutation.
Qed.

(** X9. In a directory with distinct names, [clear] and [cleanup] remove
    cache files only: sub-directories and files whose name does not end in
    [.json] stay as they were, in the same order; [clear] leaves nothing
    else. *)
Theorem only_cache_files_removed (now : Z) (st : CacheManager)
        (entries : list DirEntry) :
  cacheDir st = Some entries ->
  List.NoDup (map name entries) ->
  cacheDir (clear st) = Some (List.filter (fun e => negb (is_cache_file e)) entries) /\
  exists entries',
    cacheDir (cleanup now st) = Some entries' /\
    List.filter (fun e => negb (is_cache_file e)) entries'
    = List.filter (fun e => negb (is_cache_file e)) entries.
Proof.
  intros Hdir Hnd. split.
  - rewrite clear_dir, Hdir. simpl. f_equal. unfold cleared.
    apply List.filter_ext_in. intros e He. unfold cache_files.
    now rewrite (CleanupFacts.named_filter is_cache_file entries e Hnd He).
  - rewrite (cleanup_unfold now st entries Hdir). eexists. split; [reflexivity|].
    unfold dir_after. rewrite expiry_pass_filter.
    set (expired := List.filter (marked now) (cache_files entries)).
    assert (H1 : List.filter (fun e => negb (is_cache_file e))
                   (List.filter (fun e => negb (CleanupFacts.named name expired e)) entries)
                 = List.filter (fun e => negb (is_cache_file e)) entries).
    { apply others_kept; [exact Hnd|]. intros x Hx. unfold expired in Hx.
      apply filter_In in Hx. destruct Hx as [Hx _]. unfold cache_files in Hx.
      now apply filter_In in Hx. }
    set (entries1 := List.filter (fun e => negb (CleanupFacts.named name expired e))
                                 entries) in *.
    destruct (snd (scan now entries) >? maxSize st); [|exact H1].
    rewrite cleanupBySize_filter, others_kept; [exact H1| |].
    + unfold entries1. now apply CleanupFacts.nodup_names_filter.
    + intros x Hx. apply evict_In, sorted_In in Hx. unfold cache_files in Hx.
      now apply filter_In in Hx.
Qed.

Lemma only_cache_files_removed_witness :
  cacheDir (clear stale_cache)
  = Some [mkEntry "notes.txt" true Unparsable 50 None;
          mkEntry "thumbs" false Unparsable 0 None].
Proof.
  destruct (only_cache_files_removed 500 stale_cache stale_dir eq_refl) as [H _].
  - repeat constructor; simpl; intuition discriminate.
  - exact H.
Defined.

Lemma total_size_filter_le (f : DirEntry -> bool) (l : list DirEntry) :
  (forall e, In e l -> 0 <= fsize e) ->
  total_size (List.filter f l) <= total_size l.
Proof.
  induction l as [|x rest IH]; intros Hpos; simpl; [unfold total_size; simpl; lia|].
  assert (Hrest : total_size (List.filter f rest) <= total_size rest).
  { apply IH. intros e He. apply Hpos. now right. }
  pose proof (Hpos x (or_introl eq_refl)) as Hx.
  destruct (f x); rewrite ?CleanupFacts.total_size_cons; lia.
Qed.

(** The size pass brings the cache files down to 80% of the maximum. *)
Lemma size_pass_bound (max : Z) (d : list DirEntry) :
  List.NoDup (map name d) -> 0 <= max ->
  5 * total_size (cache_files (cleanupBySize max d)) <= 4 * max.
Proof.
  intros Hnd Hmax. rewrite cleanupBySize_filter.
  set (by_age := sort_by_mtime (cache_files d)).
  destruct (CleanupFacts.evict_prefix max by_age (total_size by_age))
    as [k [Hk [Hlen [_ Hstop]]]].
  rewrite Hk.
  assert (Hleft : Permutation
                    (cache_files
                       (List.filter
                          (fun e => negb (CleanupFacts.named name (firstn k by_age) e)) d))
                    (skipn k by_age)).
  { unfold cache_files at 1. rewrite filter_swap. fold (cache_files d).
    rewrite <- (CleanupFacts.filter_unnamed_prefix k by_age).
    - apply CleanupFacts.filter_permutation, CleanupFacts.sort_by_mtime_permutation.
    - apply (Permutation_NoDup (l := map name (cache_files d))).
      + apply Permutation_map, CleanupFacts.sort_by_mtime_permutation.
      + now apply CleanupFacts.nodup_names_filter. }
  rewrite (CleanupFacts.total_size_permutation _ _ Hleft).
  destruct Hstop as [->|Hstop].
  - rewrite skipn_all. unfold total_size. simpl. lia.
  - rewrite CleanupFacts.total_size_skipn in Hstop. unfold within_headroom in Hstop.
    now apply Z.leb_le in Hstop.
Qed.

Lemma dir_after_within_max (now max : Z) (entries : list DirEntry) :
  List.NoDup (map name entries) -> 0 <= max ->
  (forall e, In e entries -> 0 <= fsize e) ->
  total_size (cache_files (dir_after now max entries)) <= max.
Proof.
  intros Hnd Hmax Hpos. unfold dir_after.
  pose proof (CleanupFacts.expiry_pass now entries Hnd) as Hpass.
  set (entries1 := fold_left (fun d n => remove_file n d) (fst (scan now entries))
                             entries) in *.
  destruct (Z.gtb_spec (snd (scan now entries)) max) as [Hover|Hunder].
  - assert (Hnd1 : List.NoDup (map name entries1)).
    { unfold entries1. rewrite expiry_pass_filter.
      now apply CleanupFacts.nodup_names_filter. }
    pose proof (size_pass_bound max entries1 Hnd1 Hmax). lia.
  - rewrite Hpass. rewrite CleanupFacts.scan_spec in Hunder. simpl in Hunder.
    etransitivity; [apply total_size_filter_le|exact Hunder].
    intros e He. apply Hpos. unfold cache_files in He. now apply filter_In in He.
Qed.

(** X10. [cleanup] is idempotent at a given time: in a directory with
    distinct names and non-negative file sizes, for a non-negative maximum
    size, a second pass right after the first changes nothing. *)
Theorem cleanup_idempotent (now : Z) (st : CacheManager) (entries : list DirEntry) :
  cacheDir st = Some entries ->
  List.NoDup (map name entries) ->
  0 <= maxSize st ->
  (forall e, In e entries -> 0 <= fsize e) ->
  cleanup now (cleanup now st) = cleanup now st.
Proof.
  intros Hdir Hnd Hmax Hpos.
  rewrite (cleanup_unfold now st entries Hdir).
  set (entries' := dir_after now (maxSize st) entries).
  set (mem' := filter (fun kv => isExpired now (snd kv) = false) (memoryCache st)).
  rewrite (cleanup_unfold now (mkManager mem' (Some entries') (ttl st) (maxSize st))
             entries' eq_refl).
  cbn [memoryCache ttl maxSize].
  f_equal.
  - apply map_eq. intros k. unfold mem'.
    destruct (filter (fun kv => isExpired now (snd kv) = false) (memoryCache st) !! k)
      as [c|] eqn:Hk.
    + apply map_lookup_filter_Some. split; [exact Hk|].
      apply map_lookup_filter_Some in Hk. now destruct Hk.
    + apply map_lookup_filter_None. left. exact Hk.
  - f_equal. unfold dir_after at 1.
    assert (Hnone : List.filter (marked now) (cache_files entries') = []).
    { apply CleanupFacts.filter_none. intros e He. unfold cache_files in He.
      apply filter_In in He. destruct He as [He Hc].
      exact (dir_after_unmarked now (maxSize st) entries e He Hc). }
    rewrite CleanupFacts.scan_spec, Hnone. cbn [fst snd map fold_left].
    pose proof (dir_after_within_max now (maxSize st) entries Hnd Hmax Hpos) as Hle.
    fold entries' in Hle.
    destruct (Z.gtb_spec (total_size (cache_files entries')) (maxSize st));
      [lia | reflexivity].
Qed.

Lemma cleanup_idempotent_witness :
  cleanup 500 (cleanup 500 stale_cache) = cleanup 500 stale_cache.
Proof.
  apply (cleanup_idempotent 500 stale_cache stale_dir eq_refl).
  - repeat constructor; simpl; intuition discriminate.
  - simpl. lia.
  - simpl. intros e He. repeat (destruct He as [<-|He]; [simpl; lia|]). destruct He.
Defined.

(** A lookup that misses changes nothing: [get] neither deletes an
    expired entry from memory nor touches the cache directory. *)
Theorem get_miss_changes_nothing (now : Z) (key : string) (st : CacheManager) :
  fst (get now key st) = None -> snd (get now key st) = st.
Proof.
  unfold get.
  destruct (getFromFile key st) as [fileCached|].
  - destruct (memoryCache st !! key) as [memCached|].
    + destruct (isExpired now memCached); simpl; [|discriminate].
      destruct (isExpired now fileCached); simpl; [reflexivity | discriminate].
    + destruct (isExpired now fileCached); simpl; [reflexivity | discriminate].
  - destruct (memoryCache st !! key) as [memCached|]; [|reflexivity].
    destruct (isExpired now memCached); simpl; [reflexivity | discriminate].
Qed.

Lemma get_miss_changes_nothing_witness :
  snd (get 500 "old" stale_cache) = stale_cache.
Proof.
  apply (get_miss_changes_nothing 500 "old" stale_cache). vm_compute. reflexivity.
Defined.

(** X11. A key found only in the cache directory, unexpired, is returned
    as a hit and copied into memory; from then on it is served from memory
    until it expires, even when the directory has gone. *)
Theorem get_promotes_file_entry (now later : Z) (key : string) (st : CacheManager)
        (c : CachedLogo) :
  memoryCache st !! key = None ->
  getFromFile key st = Some c ->
  now <= expiresAt c ->
  later <= expiresAt c ->
  let st' := snd (get now key st) in
  fst (get now key st) = Some (as_hit c) /\
  memoryCache st' !! key = Some c /\
  cacheDir st' = cacheDir st /\
  fst (get later key (with_dir None st')) = Some (as_hit c).
Proof.
  intros Hmem Hfile Hnow Hlater.
  assert (Hfresh : forall t, t <= expiresAt c -> isExpired t c = false).
  { intros t Ht. unfold isExpired. destruct (Z.gtb_spec t (expiresAt c)); [lia|reflexivity]. }
  unfold get at 1 2. rewrite Hmem, Hfile, (Hfresh now Hnow). cbn [negb fst snd].
  split; [reflexivity|]. split; [apply lookup_insert_eq|]. split; [reflexivity|].
  unfold get. cbn [with_dir with_memory memoryCache].
  rewrite lookup_insert_eq, (Hfresh later Hlater). reflexivity.
Qed.

Definition disk_cache : CacheManager := mkManager ∅ (Some stale_dir) 1000 1048576.

Lemma get_promotes_file_entry_witness :
  fst (get 500 "new" disk_cache) = Some (mkCached stale_logo 900 true) /\
  fst (get 900 "new" (with_dir None (snd (get 500 "new" disk_cache))))
  = Some (mkCached stale_logo 900 true).
Proof.
  destruct (get_promotes_file_entry 500 900 "new" disk_cache
              (mkCached stale_logo 900 false)) as [H1 [_ [_ H2]]].
  - reflexivity.
  - reflexivity.
  - simpl. lia.
  - simpl. lia.
  - split; [exact H1 | exact H2].
Defined.

Lemma write_file_names (f : DirEntry) (l : list DirEntry) :
  map name (write_file f l)
  = if existsb (fun e => String.eqb (name e) (name f)) l then map name l
    else (map name l ++ [name f])%list.
Proof.
  induction l as [|x rest IH]; simpl; [reflexivity|].
  destruct (String.eqb_spec (name x) (name f)) as [Heq|Hne]; simpl.
  - now rewrite Heq.
  - rewrite IH. now destruct (existsb _ rest).
Qed.

Lemma write_file_nodup (f : DirEntry) (l : list DirEntry) :
  List.NoDup (map name l) -> List.NoDup (map name (write_file f l)).
Proof.
  intros Hnd. rewrite write_file_names.
  destruct (existsb (fun e => String.eqb (name e) (name f)) l) eqn:Hex; [exact Hnd|].
  apply List.NoDup_app; [exact Hnd | repeat constructor; simpl; tauto |].
  intros n Hin [<-|[]]. apply in_map_iff in Hin. destruct Hin as [e [He Hin]].
  assert (Hc : existsb (fun e => String.eqb (name e) (name f)) l = true).
  { apply existsb_exists. exists e. split; [exact Hin|]. now apply String.eqb_eq. }
  congruence.
Qed.

Definition listing (st : CacheManager) : list DirEntry :=
  match cacheDir st with
  | Some entries => entries
  | None => []
  end.

Lemma cleanup_nodup (now : Z) (st : CacheManager) :
  List.NoDup (map name (listing st)) ->
  List.NoDup (map name (listing (cleanup now st))).
Proof.
  unfold listing. intros Hnd. destruct (cacheDir st) as [entries|] eqn:Hdir.
  - rewrite (cleanup_unfold now st entries Hdir). simpl. now apply dir_after_nodup.
  - unfold cleanup. now rewrite Hdir, Hdir.
Qed.

(** X12. Distinct names in the cache directory are an invariant of the
    cache manager: [set] (which overwrites the file of a key already
    there, and may run a cleanup), [get], [cleanup] and [clear] all keep
    them distinct. *)
Theorem names_stay_distinct (json_size : CachedLogo -> Z) (now : Z) (r : Q)
        (write_ok : bool) (key : string) (result : LogoResult) (st : CacheManager) :
  List.NoDup (map name (listing st)) ->
  List.NoDup (map name (listing (set json_size now r write_ok key result st))) /\
  List.NoDup (map name (listing (snd (get now key st)))) /\
  List.NoDup (map name (listing (cleanup now st))) /\
  List.NoDup (map name (listing (clear st))).
Proof.
  intros Hnd. split; [|split; [|split]].
  - unfold set.
    set (cached := mkCached result (now + ttl st) false).
    set (st1 := with_memory (<[key := cached]> (memoryCache st)) st).
    assert (H2 : List.NoDup (map name (listing (saveToFile json_size now write_ok key
                                                           cached st1)))).
    { unfold saveToFile. destruct write_ok; [|exact Hnd].
      unfold listing. simpl. apply write_file_nodup. exact Hnd. }
    destruct (Qlt_le_dec r (1 # 10)); [now apply cleanup_nodup | exact H2].
  - unfold get.
    destruct (getFromFile key st) as [fileCached|];
      destruct (memoryCache st !! key) as [memCached|];
      repeat match goal with
             | |- context [isExpired ?t ?c] => destruct (isExpired t c)
             end; exact Hnd.
  - now apply cleanup_nodup.
  - unfold listing. rewrite clear_dir. unfold listing in Hnd.
    destruct (cacheDir st) as [entries|]; simpl; [|constructor].
    unfold cleared. now apply CleanupFacts.nodup_names_filter.
Qed.

Lemma names_stay_distinct_witness :
  List.NoDup
    (map name (listing (set (fun _ => 512) 600 (1 # 20) true "new" stale_logo
                            disk_cache))).
Proof.
  destruct (names_stay_distinct (fun _ => 512) 600 (1 # 20) true "new" stale_logo
              disk_cache) as [H _].
  - repeat constructor; simpl; intuition discriminate.
  - exact H.
Defined.

End CacheInvariants.

(** ** The generator: API calls, early failures, cost, variations *)

Module GeneratorRuns.
Import Types Generator.

(** A measure of the operation's state that every invocation raises by one
    counts the invocations. *)
Lemma loop_measure {S T : Type} (op : S -> (Retry.JsError + T) * S)
      (random : nat -> Q) (maxRetries : Z) (mu : S -> nat) :
  (forall s, mu (snd (op s)) = Datatypes.S (mu s)) ->
  forall remaining attempt lastError st,
    let run := snd (Retry.loop op random maxRetries remaining attempt lastError st) in
    (mu (Retry.op_state run) + Retry.invocations (Retry.trace st)
     = mu (Retry.op_state st) + Retry.invocations (Retry.trace run))%nat.
Proof.
  intros Hmu. induction remaining as [|n IH]; intros attempt lastError st;
    cbn [Retry.loop]; [cbn; lia|].
  pose proof (Hmu (Retry.op_state st)) as Hs.
  destruct (op (Retry.op_state st)) as [[error|v] s']; cbn [snd] in Hs.
  - destruct (RetryBounds.invoked s' st) as [Hi _].
    set (st1 := Retry.mkRun s' (Retry.draws st) (Retry.trace st ++ [Retry.Invoke])) in *.
    assert (Hretry : forall warn,
               warn = Retry.WarnRateLimited \/ warn = Retry.WarnTemporary ->
               let run := snd (Retry.loop op random maxRetries n (attempt + 1)
                                          (Some error)
                                          (Retry.backoff random maxRetries warn attempt st1)) in
               (mu (Retry.op_state run) + Retry.invocations (Retry.trace st)
                = mu (Retry.op_state st) + Retry.invocations (Retry.trace run))%nat).
    { intros warn Hwarn.
      destruct (RetryBounds.invocations_backoff random maxRetries warn attempt st1 Hwarn)
        as [Bi [_ [_ Bo]]].
      pose proof (IH (attempt + 1)%Z (Some error)
                     (Retry.backoff random maxRetries warn attempt st1)) as Hk.
      cbn zeta in Hk. cbn zeta. rewrite Bo, Bi, Hi in Hk.
      change (Retry.op_state st1) with s' in Hk. lia. }
    destruct (Retry.isRateLimitError error); [apply Hretry; now left|].
    destruct (Retry.isRetryableError error && (attempt <? maxRetries)%Z);
      [apply Hretry; now right|].
    cbn [snd]. change (Retry.op_state st1) with s'. lia.
  - destruct (RetryBounds.invoked s' st) as [Hi _]. cbn [snd Retry.op_state].
    cbn [Retry.trace] in *. lia.
Qed.

Definition well_formed_call (options : GenerationOptions) (c : ApiParams) : Prop :=
  p_model c = "gpt-image-1" /\ p_n c = 1%Z /\ p_background c = "transparent" /\
  p_response_format c = "url" /\ p_stream c = false /\
  p_size c = Js.str_or (o_size options) "1024x1024" /\
  (o_quality options = Some "hd" -> p_quality c = "high") /\
  (o_quality options = None \/ o_quality options = Some "" \/
   o_quality options = Some "standard" -> p_quality c = "medium").

Lemma buildAPIParams_well_formed (p : string) (options : GenerationOptions) :
  well_formed_call options (buildAPIParams p options).
Proof.
  unfold well_formed_call, buildAPIParams. cbn.
  do 6 (split; [reflexivity|]). split.
  - intros ->. reflexivity.
  - intros [-> | [-> | ->]]; reflexivity.
Qed.

Lemma operation_calls (client : Client) (id : string) (now : Z)
      (request : LogoRequest) (options : GenerationOptions) (p : string)
      (calls : list ApiParams) :
  snd (operation client id now request options p calls)
  = (calls ++ [buildAPIParams p options])%list.
Proof.
  unfold operation.
  destruct (client (List.length calls) (buildAPIParams p options))
    as [e|[[|img data]|]]; try reflexivity.
  destruct (Js.opt_truthy (d_url img)); reflexivity.
Qed.

Lemma operation_length (client : Client) (id : string) (now : Z)
      (request : LogoRequest) (options : GenerationOptions) (p : string)
      (calls : list ApiParams) :
  List.length (snd (operation client id now request options p calls))
  = Datatypes.S (List.length calls).
Proof. rewrite operation_calls, length_app. cbn. lia. Qed.

Lemma execute_calls
  (client : Client) (random : nat -> Q) (id : string) (now : Z)
  (request : LogoRequest) (options : GenerationOptions) (p : string) :
  List.length
    (Retry.op_state
       (snd (Retry.execute (operation client id now request options p) random 3 [])))
  = Retry.invocations
      (Retry.trace
         (snd (Retry.execute (operation client id now request options p) random 3 []))).
Proof.
  pose proof (loop_measure (operation client id now request options p) random 3
                (fun calls => List.length calls)
                (operation_length client id now request options p)
                (Z.to_nat 3) 1%Z None (Retry.mkRun [] 0%nat [])) as Hmu.
  cbn beta zeta in Hmu. unfold Retry.execute.
  change (Retry.invocations (Retry.trace (Retry.mkRun (@nil ApiParams) 0%nat [])))
    with 0%nat in Hmu.
  change (List.length (Retry.op_state (Retry.mkRun (@nil ApiParams) 0%nat [])))
    with 0%nat in Hmu.
  lia.
Qed.

Lemma generate_calls_well_formed
  (client : Client) (random : nat -> Q) (id : string) (now : Z)
  (request : LogoRequest) (options : GenerationOptions) :
  Forall (well_formed_call options)
         (Retry.op_state (snd (generate client random id now request options))).
Proof.
  unfold generate.
  destruct (if Js.opt_truthy (o_template options)
            then Professional.optimizePrompt request options
            else inr (Prompts.optimize request options)) as [e|p]; [constructor|].
  unfold Retry.execute.
  apply (RetryFacts.loop_state_invariant _ _ _
           (fun calls => Forall (well_formed_call options) calls)).
  - intros calls Hcalls. rewrite operation_calls. apply Forall_app.
    split; [exact Hcalls|].
    constructor; [apply buildAPIParams_well_formed | constructor].
  - constructor.
Qed.

(** X13. Whatever the API answers, one [generate] makes at most three API
    calls, one per invocation of the retried operation; every call asks
    [gpt-image-1] for one image on a transparent background, by URL and
    not streamed, in the size and quality that the options alone fix:
    ["high"] for the option ["hd"], ["medium"] for ["standard"] and for a
    missing or empty option. The request's own [size] and [quality] do
    not reach the API. *)
Theorem generate_api_calls
  (client : Client) (random : nat -> Q) (id : string) (now : Z)
  (request : LogoRequest) (options : GenerationOptions) :
  let run := snd (generate client random id now request options) in
  (List.length (Retry.op_state run) <= 3)%nat /\
  List.length (Retry.op_state run) = Retry.invocations (Retry.trace run) /\
  Forall (well_formed_call options) (Retry.op_state run).
Proof.
  cbn zeta. split; [|split; [|apply generate_calls_well_formed]].
  - unfold generate.
    destruct (if Js.opt_truthy (o_template options)
              then Professional.optimizePrompt request options
              else inr (Prompts.optimize request options)) as [e|p]; [cbn; lia|].
    rewrite (execute_calls client random id now request options p).
    apply (RetryBounds.execute_at_most
             (operation client id now request options p) random 3 []).
  - unfold generate.
    destruct (if Js.opt_truthy (o_template options)
              then Professional.optimizePrompt request options
              else inr (Prompts.optimize request options)) as [e|p]; [reflexivity|].
    apply execute_calls.
Qed.

Lemma execute_first_throw {S T : Type} (op : S -> (Retry.JsError + T) * S)
      (random : nat -> Q) (maxRetries : Z) (s s' : S) (e : Retry.JsError) :
  op s = (inl e, s') ->
  Retry.isRateLimitError e = false -> Retry.isRetryableError e = false ->
  (0 < maxRetries)%Z ->
  Retry.execute op random maxRetries s
  = (Retry.Threw e, Retry.mkRun s' 0%nat [Retry.Invoke]).
Proof.
  intros Hop Hrl Hrt Hpos. unfold Retry.execute.
  destruct (Z.to_nat maxRetries) as [|n] eqn:Hn; [lia|].
  cbn [Retry.loop Retry.op_state]. now rewrite Hop, Hrl, Hrt.
Qed.

Lemma execute_first_return {S T : Type} (op : S -> (Retry.JsError + T) * S)
      (random : nat -> Q) (maxRetries : Z) (s s' : S) (v : T) :
  (0 < maxRetries)%Z ->
  op s = (inr v, s') ->
  Retry.execute op random maxRetries s
  = (Retry.Returned v, Retry.mkRun s' 0%nat [Retry.Invoke]).
Proof.
  intros Hpos Hop. unfold Retry.execute.
  destruct (Z.to_nat maxRetries) as [|n] eqn:Hn; [lia|].
  cbn [Retry.loop Retry.op_state]. now rewrite Hop.
Qed.

Definition no_image : Retry.JsError := js_error "No image generated from OpenAI".
Definition no_url : Retry.JsError :=
  js_error "No URL returned from OpenAI API. Please try again.".

(** X14. When the first answer of the API is a response, it decides the
    run. A response without image data makes [generate] throw "No image
    generated from OpenAI", one whose first image has no URL makes it
    throw "No URL returned ...": neither error is retried, so exactly one
    call is made and nothing is slept. A first image with a URL is
    returned at once. *)
Theorem first_response_decides
  (client : Client) (random : nat -> Q) (id : string) (now : Z)
  (request : LogoRequest) (options : GenerationOptions) :
  Js.opt_truthy (o_template options) = false ->
  let p := Prompts.optimize request options in
  let out := generate client random id now request options in
  match client 0%nat (buildAPIParams p options) with
  | ApiThrows _ => True
  | ApiResponse None | ApiResponse (Some []) =>
      fst out = Retry.Threw no_image /\
      Retry.op_state (snd out) = [buildAPIParams p options] /\
      Retry.sleeps (Retry.trace (snd out)) = []
  | ApiResponse (Some (imageData :: _)) =>
      match d_url imageData with
      | Some u =>
          if Js.truthy u then
            fst out = Retry.Returned
                        (mkResult u (d_revised_prompt imageData)
                                  (createMetadata id now request p options) None) /\
            Retry.op_state (snd out) = [buildAPIParams p options]
          else
            fst out = Retry.Threw no_url /\
            Retry.op_state (snd out) = [buildAPIParams p options] /\
            Retry.sleeps (Retry.trace (snd out)) = []
      | None =>
          fst out = Retry.Threw no_url /\
          Retry.op_state (snd out) = [buildAPIParams p options] /\
          Retry.sleeps (Retry.trace (snd out)) = []
      end
  end.
Proof.
  intros Htemplate p out.
  assert (Hout : out = Retry.execute (operation client id now request options p)
                                     random 3 []).
  { unfold out, generate. now rewrite Htemplate. }
  assert (Hthrow : forall e,
             operation client id now request options p []
             = (inl e, [buildAPIParams p options]) ->
             Retry.isRateLimitError e = false -> Retry.isRetryableError e = false ->
             fst out = Retry.Threw e /\
             Retry.op_state (snd out) = [buildAPIParams p options] /\
             Retry.sleeps (Retry.trace (snd out)) = []).
  { intros e Hop Hrl Hrt.
    rewrite Hout, (execute_first_throw _ random 3 [] _ e Hop Hrl Hrt); [|lia].
    repeat split. }
  unfold operation in Hthrow. cbn [List.length app] in Hthrow.
  destruct (client 0%nat (buildAPIParams p options)) as [e|[[|img data]|]] eqn:Ha.
  - exact I.
  - now apply Hthrow.
  - destruct (d_url img) as [u|] eqn:Hu; cbn [Js.opt_truthy] in Hthrow.
    + destruct (Js.truthy u) eqn:Ht.
      * rewrite Hout.
        rewrite (execute_first_return (operation client id now request options p)
                   random 3 [] [buildAPIParams p options]
                   (mkResult u (d_revised_prompt img)
                             (createMetadata id now request p options) None)); [|lia|].
        -- split; reflexivity.
        -- unfold operation. cbn [List.length app]. rewrite Ha, Hu. cbn. now rewrite Ht.
      * now apply Hthrow.
    + now apply Hthrow.
  - now apply Hthrow.
Qed.

Definition acme_hd : LogoRequest :=
  mkRequest "Acme" "bold new idea" None None None None (Some "hd").

(** An API that answers every call with an empty [data] list. *)
Definition empty_client : Client := fun _ _ => ApiResponse (Some []).

Lemma first_response_decides_witness :
  fst (generate empty_client (fun _ => 0%Q) "logo_1" 0 acme_hd no_options)
  = Retry.Threw no_image /\
  List.length (Retry.op_state
                 (snd (generate empty_client (fun _ => 0%Q) "logo_1" 0 acme_hd no_options)))
  = 1%nat.
Proof.
  pose proof (first_response_decides empty_client (fun _ => 0%Q) "logo_1" 0 acme_hd
                no_options eq_refl) as H.
  cbn zeta in H. unfold empty_client at 1 in H. destruct H as [H1 [H2 _]].
  split; [exact H1|]. rewrite H2. reflexivity.
Defined.

Lemma operation_result (client : Client) (id : string) (now : Z)
      (request : LogoRequest) (options : GenerationOptions) (p : string)
      (calls : list ApiParams) (result : LogoResult) :
  fst (operation client id now request options p calls) = inr result ->
  metadata result = createMetadata id now request p options /\
  localPath result = None /\ url result <> "".
Proof.
  unfold operation.
  destruct (client (List.length calls) (buildAPIParams p options))
    as [e|[[|img data]|]]; cbn; try discriminate.
  destruct (d_url img) as [u|]; cbn; [|discriminate].
  destruct (Js.truthy u) eqn:Hu; cbn; [|discriminate].
  intros [= <-]. cbn. repeat split.
  now apply JsFacts.truthy_nonempty.
Qed.

(** X15. The recorded cost and the quality sent to the API follow
    [options.quality] only, while the recorded quality label falls back
    on the request: a request of quality ["hd"] generated with options
    that leave the quality out is labelled ["hd"] but is generated at
    ["medium"] and costed 0.07. *)
Theorem cost_ignores_request_quality
  (client : Client) (random : nat -> Q) (id : string) (now : Z)
  (request : LogoRequest) (options : GenerationOptions) (result : LogoResult) :
  fst (generate client random id now request options) = Retry.Returned result ->
  o_quality options = None ->
  m_cost (metadata result) = 7 # 100 /\
  m_quality (metadata result) = Js.str_or (quality request) "standard" /\
  Forall (fun c => p_quality c = "medium")
         (Retry.op_state (snd (generate client random id now request options))) /\
  m_id (metadata result) = id /\ m_timestamp (metadata result) = now /\
  url result <> "".
Proof.
  intros Hres Hq.
  pose proof (generate_calls_well_formed client random id now request options) as Hcalls.
  assert (Hmedium : Forall (fun c => p_quality c = "medium")
                      (Retry.op_state (snd (generate client random id now request options)))).
  { eapply Forall_impl; [exact Hcalls|]. intros c Hc. cbn beta.
    destruct Hc as [_ [_ [_ [_ [_ [_ [_ Hm]]]]]]]. apply Hm. now left. }
  unfold generate in Hres.
  destruct (if Js.opt_truthy (o_template options)
            then Professional.optimizePrompt request options
            else inr (Prompts.optimize request options)) as [e|p]; [discriminate|].
  unfold Retry.execute in Hres.
  pose proof (RetryFacts.loop_returned
                (operation client id now request options p) random 3
                (fun r => metadata r = createMetadata id now request p options /\
                          localPath r = None /\ url r <> "")
                (fun calls v => operation_result client id now request options p calls v)
                (Z.to_nat 3) 1%Z None (Retry.mkRun [] 0%nat []) result Hres)
    as [Hmeta [_ Hurl]].
  rewrite Hmeta. unfold createMetadata. cbn. rewrite Hq. cbn.
  repeat split; try assumption.
Qed.

(** An API that answers every call with one image. *)
Definition steady_client : Client :=
  fun _ _ => ApiResponse (Some [mkImage (Some "https://img.example/a.png") None]).

Lemma cost_ignores_request_quality_witness :
  exists result,
    fst (generate steady_client (fun _ => 0%Q) "logo_1" 0 acme_hd no_options)
    = Retry.Returned result /\
    m_cost (metadata result) = 7 # 100 /\ m_quality (metadata result) = "hd".
Proof.
  eexists. split; [reflexivity|].
  destruct (cost_ignores_request_quality steady_client (fun _ => 0%Q) "logo_1" 0 acme_hd
              no_options _ eq_refl eq_refl) as [Hc [Hq _]].
  split; [exact Hc | exact Hq].
Defined.

Section Loop.
Context {R : Type}.
Variable call : nat -> LogoRequest -> Retry.Outcome LogoResult * R.

Lemma variations_loop_all (f : nat -> LogoRequest -> LogoResult)
      (request : LogoRequest) (basePrompt : string) :
  (forall j req, fst (call j req) = Retry.Returned (f j req)) ->
  forall remaining i results runs,
    let out := variations_loop call remaining i request basePrompt results runs in
    fst out
    = Retry.Returned
        (results ++
         map (fun j => f j (with_prompt request (createVariationPrompt basePrompt j)))
             (seq i remaining))%list /\
    List.length (snd out) = (List.length runs + remaining)%nat.
Proof.
  intros Hcall. induction remaining as [|n IH]; intros i results runs;
    cbn [variations_loop seq map].
  - cbn. rewrite app_nil_r. split; [reflexivity | lia].
  - pose proof (Hcall i (with_prompt request (createVariationPrompt basePrompt i))) as Hi.
    destruct (call i (with_prompt request (createVariationPrompt basePrompt i)))
      as [[v|e|] run]; cbn in Hi; try discriminate.
    injection Hi as ->.
    destruct (IH (Datatypes.S i)
                 (results ++ [f i (with_prompt request (createVariationPrompt basePrompt i))])%list
                 (runs ++ [run])%list) as [H1 H2].
    cbn zeta. rewrite H1, H2, <- app_assoc, length_app. cbn. split; [reflexivity | lia].
Qed.

Lemma variations_loop_abort (f : nat -> LogoRequest -> LogoResult)
      (request : LogoRequest) (basePrompt : string) (k : nat) (e : Retry.JsError) :
  (forall j req, (j < k)%nat -> fst (call j req) = Retry.Returned (f j req)) ->
  (forall req, fst (call k req) = Retry.Threw e) ->
  forall remaining i results runs,
    (i <= k < i + remaining)%nat ->
    let out := variations_loop call remaining i request basePrompt results runs in
    fst out = Retry.Threw e /\
    (List.length (snd out) + i = List.length runs + Datatypes.S k)%nat.
Proof.
  intros Hbefore Hk. induction remaining as [|n IH]; intros i results runs Hrange;
    [lia|]. cbn [variations_loop].
  destruct (Nat.eq_dec i k) as [->|Hne].
  - pose proof (Hk (with_prompt request (createVariationPrompt basePrompt k))) as Hi.
    destruct (call k (with_prompt request (createVariationPrompt basePrompt k)))
      as [[v|e'|] run]; cbn in Hi; try discriminate.
    injection Hi as ->. cbn. rewrite length_app. cbn. split; [reflexivity | lia].
  - pose proof (Hbefore i (with_prompt request (createVariationPrompt basePrompt i))) as Hi.
    destruct (call i (with_prompt request (createVariationPrompt basePrompt i)))
      as [[v|e'|] run]; cbn in Hi; try (discriminate Hi; lia);
      try (assert (Hlt : (i < k)%nat) by lia; specialize (Hi Hlt); discriminate).
    destruct (IH (Datatypes.S i) (results ++ [v])%list (runs ++ [run])%list) as [H1 H2];
      [lia|].
    cbn zeta. split; [exact H1|]. rewrite length_app in H2. cbn in H2. lia.
Qed.
End Loop.

(** X16. When every call of [generate] succeeds, [generateVariations]
    makes [max(count, 1)] calls and returns their results in order: the
    first for the request as given, the [i]-th of the others ([i] from 1)
    for the request whose prompt is the base prompt (the revised prompt of
    the first result, or else the request's prompt) followed by modifier
    number [i mod 5]. *)
Theorem variations_in_order
  (clients : nat -> Client) (randoms : nat -> nat -> Q) (ids : nat -> string)
  (nows : nat -> Z) (request : LogoRequest) (count : Z) (options : GenerationOptions)
  (f : nat -> LogoRequest -> LogoResult) :
  (forall j req,
      fst (generate (clients j) (randoms j) (ids j) (nows j) req options)
      = Retry.Returned (f j req)) ->
  let basePrompt := Js.str_or (revisedPrompt (f 0%nat request)) (prompt request) in
  let out := generateVariations clients randoms ids nows request count options in
  fst out
  = Retry.Returned
      (f 0%nat request ::
       map (fun i => f i (with_prompt request (createVariationPrompt basePrompt i)))
           (seq 1 (Z.to_nat (count - 1)))) /\
  List.length (snd out) = Datatypes.S (Z.to_nat (count - 1)).
Proof.
  intros Hall basePrompt out. unfold out, generateVariations, variations_with.
  pose proof (Hall 0%nat request) as H0.
  destruct (generate (clients 0%nat) (randoms 0%nat) (ids 0%nat) (nows 0%nat) request options)
    as [[v|e|] run]; cbn in H0; try discriminate.
  injection H0 as ->.
  destruct (variations_loop_all
              (fun j req => generate (clients j) (randoms j) (ids j) (nows j) req options)
              f request basePrompt Hall (Z.to_nat (count - 1)) 1%nat
              [f 0%nat request] [run]) as [H1 H2].
  fold basePrompt. split; [exact H1|]. rewrite H2. reflexivity.
Qed.

Lemma steady_generate (j : nat) (req : LogoRequest) :
  fst (generate steady_client (fun _ => 0%Q) "logo_1" 0 req no_options)
  = Retry.Returned
      (mkResult "https://img.example/a.png" None
                (createMetadata "logo_1" 0 req (Prompts.optimize req no_options) no_options)
                None).
Proof. reflexivity. Qed.

Lemma variations_in_order_witness :
  exists r0 r1 r2,
    fst (generateVariations (fun _ => steady_client) (fun _ _ => 0%Q)
                            (fun _ => "logo_1") (fun _ => 0%Z) acme_hd 3 no_options)
    = Retry.Returned [r0; r1; r2] /\
    m_originalPrompt (metadata r1) = "bold new idea, using different color scheme" /\
    m_originalPrompt (metadata r2) = "bold new idea, with varied typography treatment".
Proof.
  destruct (variations_in_order (fun _ => steady_client) (fun _ _ => 0%Q)
              (fun _ => "logo_1") (fun _ => 0%Z) acme_hd 3 no_options
              (fun _ req =>
                 mkResult "https://img.example/a.png" None
                          (createMetadata "logo_1" 0 req (Prompts.optimize req no_options)
                                          no_options)
                          None)
              steady_generate) as [H _].
  do 3 eexists. split; [exact H|]. split; reflexivity.
Defined.

(** X17. [generateVariations] stops at the first call of [generate] that
    throws: it throws the same error, makes no further call, and the
    results of the calls that had succeeded are not returned. *)
Theorem variations_abort_on_failure
  (clients : nat -> Client) (randoms : nat -> nat -> Q) (ids : nat -> string)
  (nows : nat -> Z) (request : LogoRequest) (count : Z) (options : GenerationOptions)
  (f : nat -> LogoRequest -> LogoResult) (k : nat) (e : Retry.JsError) :
  (forall j req, (j < k)%nat ->
      fst (generate (clients j) (randoms j) (ids j) (nows j) req options)
      = Retry.Returned (f j req)) ->
  (forall req,
      fst (generate (clients k) (randoms k) (ids k) (nows k) req options)
      = Retry.Threw e) ->
  (k <= Z.to_nat (count - 1))%nat ->
  let out := generateVariations clients randoms ids nows request count options in
  fst out = Retry.Threw e /\ List.length (snd out) = Datatypes.S k.
Proof.
  intros Hbefore Hk Hrange out. unfold out, generateVariations, variations_with.
  destruct k as [|k].
  - pose proof (Hk request) as H0.
    destruct (generate (clients 0%nat) (randoms 0%nat) (ids 0%nat) (nows 0%nat) request
                       options) as [[v|e'|] run]; cbn in H0; try discriminate.
    injection H0 as ->. split; reflexivity.
  - pose proof (Hbefore 0%nat request (Nat.lt_0_succ k)) as H0.
    destruct (generate (clients 0%nat) (randoms 0%nat) (ids 0%nat) (nows 0%nat) request
                       options) as [[v|e'|] run]; cbn in H0; try discriminate.
    destruct (variations_loop_abort
                (fun j req => generate (clients j) (randoms j) (ids j) (nows j) req options)
                f request (Js.str_or (revisedPrompt v) (prompt request))
                (Datatypes.S k) e Hbefore Hk (Z.to_nat (count - 1)) 1%nat [v] [run])
      as [H1 H2]; [lia|].
    split; [exact H1|]. cbn in H2. lia.
Qed.

Definition bad_key : Retry.JsError := js_error "Invalid API key".

(** The API of the third call of [generate] rejects the key. *)
Definition failing_third (j : nat) : Client :=
  if Nat.eqb j 2 then (fun _ _ => ApiThrows bad_key) else steady_client.

Lemma variations_abort_on_failure_witness :
  fst (generateVariations failing_third (fun _ _ => 0%Q) (fun _ => "logo_1")
                          (fun _ => 0%Z) acme_hd 5 no_options)
  = Retry.Threw bad_key /\
  List.length (snd (generateVariations failing_third (fun _ _ => 0%Q) (fun _ => "logo_1")
                                       (fun _ => 0%Z) acme_hd 5 no_options))
  = 3%nat.
Proof.
  apply (variations_abort_on_failure failing_third (fun _ _ => 0%Q) (fun _ => "logo_1")
           (fun _ => 0%Z) acme_hd 5 no_options
           (fun _ req =>
              mkResult "https://img.example/a.png" None
                       (createMetadata "logo_1" 0 req (Prompts.optimize req no_options)
                                       no_options)
                       None)
           2%nat bad_key).
  - intros j req Hj. destruct j as [|[|j]]; [reflexivity | reflexivity | lia].
  - intros req. reflexivity.
  - simpl. lia.
Defined.

End GeneratorRuns.

(** ** Prompt engines: styles without modifier, the template catalog *)

Module PromptChoices.
Import Types Js JsFacts.

(** X18. When the effective style (the option's, else the request's, else
    ["modern"]) has no entry in the style-modifier table of
    [PromptEngine], [optimize] still adds the separator of the style
    clause: the prompt of the request is followed by [", , "], an empty
    clause. *)
Theorem unknown_style_leaves_empty_clause
  (request : LogoRequest) (options : GenerationOptions) :
  let style := str_or (opt_or (o_style options) (style request)) "modern" in
  Prompts.styleModifiers !! style = None ->
  exists rest,
    Prompts.optimize request options
    = Prompts.buildBasePrompt request style
        (opt_or (o_industry options) (industry request))
      +:+ ", , " +:+ rest.
Proof.
  intros style0 Hnone.
  unfold Prompts.optimize, Prompts.addQualityModifiers, Prompts.addStyleElements.
  fold style0. rewrite Hnone. cbn [str_or].
  set (bp := Prompts.buildBasePrompt request style0 _).
  unfold Prompts.addColorGuidance.
  destruct (Prompts.colors_or (o_colors options) (colors request)) as [[|c [|c' cs]]|];
    eexists; rewrite !append_assoc; cbn [String.append]; reflexivity.
Qed.

Definition emblem_request : LogoRequest :=
  mkRequest "Acme" "bold new idea" (Some "emblem") None None None None.

Lemma unknown_style_leaves_empty_clause_witness :
  exists rest,
    Prompts.optimize emblem_request no_options
    = "emblem professional logo for Acme: bold new idea, , " +:+ rest.
Proof.
  destruct (unknown_style_leaves_empty_clause emblem_request no_options) as [rest H].
  - vm_compute. reflexivity.
  - exists rest. exact H.
Defined.

Lemma fold_insert_lookup (ts : list Professional.ProfessionalTemplate) :
  forall (m : gmap string Professional.ProfessionalTemplate) i t,
    fold_left (fun m t => <[Professional.id t := t]> m) ts m !! i = Some t ->
    (In t ts /\ Professional.id t = i) \/ m !! i = Some t.
Proof.
  induction ts as [|x rest IH]; intros m i t; cbn [fold_left]; [now right|].
  intros H. destruct (IH _ _ _ H) as [[Hin Hid]|Hm].
  - left. split; [now right | exact Hid].
  - destruct (String.eqb_spec (Professional.id x) i) as [Heq|Hne].
    + rewrite <- Heq, lookup_insert_eq in Hm. injection Hm as <-.
      left. split; [now left | exact Heq].
    + rewrite lookup_insert_ne in Hm by exact Hne. now right.
Qed.

Lemma getTemplate_in_catalog (i : string) (t : Professional.ProfessionalTemplate) :
  Professional.getTemplate i = Some t ->
  In t Professional.catalog /\ Professional.id t = i.
Proof.
  intros H. unfold Professional.getTemplate, Professional.templates in H.
  apply fold_insert_lookup in H. destruct H as [H|H]; [exact H|].
  rewrite lookup_empty in H. discriminate.
Qed.

(** The template catalog is indexed without loss: the 26 ids are
    pairwise distinct, so [getTemplate] finds every template of the
    catalog under its own id and finds nothing else. *)
Theorem getTemplate_indexes_catalog
  (i : string) (t : Professional.ProfessionalTemplate) :
  List.NoDup (map Professional.id Professional.catalog) /\
  (Professional.getTemplate i = Some t <->
   In t Professional.catalog /\ Professional.id t = i).
Proof.
  split.
  - apply NoDup_ListNoDup. apply (bool_decide_unpack _). vm_compute. exact I.
  - split.
    + apply getTemplate_in_catalog.
    + intros [Hin <-]. unfold Professional.getTemplate.
      unfold Professional.catalog in Hin. cbn [In] in Hin.
      repeat (destruct Hin as [<-|Hin]; [vm_compute; reflexivity|]).
      destruct Hin.
Qed.

(** [getTemplatesForIndustry] never comes back empty: a template of
    the catalog that lists no industry is offered for every industry, and
    for an industry that no template lists these are all that is offered.
    In the catalog they are the five templates of the category
    [minimal]. *)
Theorem industry_agnostic_templates (industry : string) :
  (forall t, In t Professional.catalog -> Professional.industryFit t = [] ->
             In t (Professional.getTemplatesForIndustry industry)) /\
  List.filter (fun t => Nat.eqb (List.length (Professional.industryFit t)) 0)
              Professional.catalog
  = Professional.getTemplatesByCategory Professional.Minimal /\
  List.length (Professional.getTemplatesByCategory Professional.Minimal) = 5%nat /\
  (existsb (fun t => existsb (String.eqb industry) (Professional.industryFit t))
           Professional.catalog = false ->
   Professional.getTemplatesForIndustry industry
   = Professional.getTemplatesByCategory Professional.Minimal).
Proof.
  split; [|split; [|split]].
  - intros t Hin Hfit. unfold Professional.getTemplatesForIndustry. apply filter_In.
    split; [exact Hin|]. rewrite Hfit. apply orb_true_r.
  - vm_compute. reflexivity.
  - vm_compute. reflexivity.
  - intros Hnone.
    transitivity (List.filter
                    (fun t => Nat.eqb (List.length (Professional.industryFit t)) 0)
                    Professional.catalog); [|vm_compute; reflexivity].
    unfold Professional.getTemplatesForIndustry.
    apply List.filter_ext_in. intros t Hin.
    assert (Hfit : existsb (String.eqb industry) (Professional.industryFit t) = false).
    { destruct (existsb (String.eqb industry) (Professional.industryFit t)) eqn:He;
        [|reflexivity].
      assert (Hc : existsb
                     (fun t => existsb (String.eqb industry) (Professional.industryFit t))
                     Professional.catalog = true).
      { apply existsb_exists. exists t. split; [exact Hin | exact He]. }
      congruence. }
    now rewrite Hfit.
Qed.

Definition base_requirements : string :=
  "flat vector design, scalable, professional quality, high contrast".

Lemma join_cons (sep x : string) (xs : list string) :
  join sep (x :: xs)
  = x +:+ match xs with [] => "" | _ => sep +:+ join sep xs end.
Proof. destruct xs; cbn [join]; [now rewrite append_nil_r | reflexivity]. Qed.

Lemma join_app_cons (sep : string) (xs : list string) (y : string) (ys : list string) :
  xs <> [] ->
  join sep (xs ++ y :: ys) = join sep xs +:+ sep +:+ join sep (y :: ys).
Proof.
  induction xs as [|x [|x' rest] IH]; intros Hne; [contradiction | reflexivity |].
  change (join sep ((x :: x' :: rest) ++ y :: ys))
    with (x +:+ sep +:+ join sep ((x' :: rest) ++ y :: ys)).
  rewrite IH by discriminate.
  change (join sep (x :: x' :: rest)) with (x +:+ sep +:+ join sep (x' :: rest)).
  now rewrite !append_assoc.
Qed.

Lemma technical_requirements_start (options : GenerationOptions) :
  exists rest,
    Professional.getTechnicalRequirements options = base_requirements +:+ rest.
Proof.
  unfold Professional.getTechnicalRequirements.
  set (base := ["flat vector design"; "scalable"; "professional quality"; "high contrast"]).
  assert (Hbase : join ", " base = base_requirements) by reflexivity.
  assert (Hext : forall extra, exists rest,
               join ", " (base ++ extra) = base_requirements +:+ rest).
  { intros [|y ys].
    - exists "". now rewrite app_nil_r, append_nil_r.
    - exists (", " +:+ join ", " (y :: ys)).
      rewrite join_app_cons by discriminate. now rewrite Hbase. }
  destruct (o_colors options) as [[|c cs]|]; destruct (o_customElements options) as [els|];
    rewrite <- ?app_assoc; apply Hext.
Qed.

(** X19. For every template of the catalog, the template prompt is the
    interpolated template text immediately followed, with no separator, by
    the technical requirements (which start with "flat vector design"),
    and then by the negative prompts of the template and of the options,
    each introduced by [" --"]: no template has an empty list of
    negatives. *)
Theorem template_prompt_shape
  (request : LogoRequest) (options : GenerationOptions) (tid : string)
  (t : Professional.ProfessionalTemplate) :
  o_template options = Some tid ->
  Professional.getTemplate tid = Some t ->
  exists rest,
    Professional.optimizePrompt request options
    = inr (Professional.interpolateTemplate (Professional.basePrompt t) request options
           +:+ base_requirements +:+ rest
           +:+ " --" +:+ join " --" (Professional.negativePrompts t
                                    ++ default [] (o_negativePrompts options))%list).
Proof.
  intros Ho Ht.
  assert (Hin : In t Professional.catalog /\ Professional.id t = tid).
  { now apply getTemplate_in_catalog. }
  assert (Htruthy : truthy tid = true).
  { destruct Hin as [Hin <-]. unfold Professional.catalog in Hin. cbn [In] in Hin.
    repeat (destruct Hin as [<-|Hin]; [reflexivity|]). destruct Hin. }
  assert (Hneg : Professional.negativePrompts t <> []).
  { destruct Hin as [Hin _]. unfold Professional.catalog in Hin. cbn [In] in Hin.
    repeat (destruct Hin as [<-|Hin]; [discriminate|]). destruct Hin. }
  destruct (technical_requirements_start options) as [rest Hrest].
  exists rest.
  unfold Professional.optimizePrompt, Professional.generateFromTemplate.
  rewrite Ho. cbn [opt_truthy]. rewrite Htruthy.
  unfold Professional.getTemplate in Ht. rewrite Ht, Hrest.
  destruct (Professional.negativePrompts t) as [|n ns] eqn:Hn; [contradiction|].
  f_equal. destruct (o_negativePrompts options); cbn [default app];
    now rewrite !append_assoc.
Qed.

Definition wordmark_options : GenerationOptions :=
  mkOptions None None None None None (Some "minimal-wordmark") None None.

Lemma template_prompt_shape_witness :
  exists rest,
    Professional.optimizePrompt emblem_request wordmark_options
    = inr ("Clean wordmark logo for Acme, minimal typography, [PRIMARY_COLOR] lettering, modern sans-serif style, simple and readable"
           +:+ base_requirements +:+ rest
           +:+ " --no decorative elements --no symbols --no complex styling").
Proof.
  destruct (Professional.getTemplate "minimal-wordmark") as [t|] eqn:Ht;
    [|vm_compute in Ht; discriminate].
  destruct (template_prompt_shape emblem_request wordmark_options "minimal-wordmark"
              t eq_refl Ht) as [rest H].
  exists rest. rewrite H. vm_compute in Ht. injection Ht as <-.
  vm_compute. reflexivity.
Defined.

End PromptChoices.

(** ** The generate command: what validation lets through *)

Module CliFacts.
Import Types Cli.

Lemma checked_valid (valid : string -> bool) (value : option string) (v : string) :
  checked valid value = Some v -> valid v = true /\ value = Some v.
Proof.
  unfold checked. destruct value as [w|]; [|discriminate].
  destruct (Js.truthy w); cbn; [|discriminate].
  destruct (valid w) eqn:Hv; [|discriminate]. intros [= <-]. now split.
Qed.

Lemma list_includes_In (xs : list string) (v : string) :
  list_includes xs v = true <-> In v xs.
Proof.
  unfold list_includes. rewrite existsb_exists. split.
  - intros [x [Hin Hx]]. apply String.eqb_eq in Hx. now subst.
  - intros Hin. exists v. split; [exact Hin | apply String.eqb_refl].
Qed.

Lemma quality_of_cases (o : CommandOptions) :
  quality_of o = "standard" \/ quality_of o = "hd".
Proof.
  unfold quality_of. destruct (checked isValidImageQuality (c_quality o)) as [v|] eqn:Hc;
    [|now left].
  apply checked_valid in Hc. destruct Hc as [Hv _]. unfold isValidImageQuality in Hv.
  apply orb_true_iff in Hv. destruct Hv as [Hv|Hv]; apply String.eqb_eq in Hv;
    subst v; [now left | now right].
Qed.

(** X20. The cost the command announces per image (0.04 for standard,
    0.16 for hd) is never the cost it records for the logo: the metadata
    of a logo generated from the command's request and options carries the
    validated quality, and a cost that is the announced one plus 0.03. *)
Theorem announced_cost_differs_from_recorded
  (o : CommandOptions) (id : string) (now : Z) (finalPrompt : string) :
  let m := Generator.createMetadata id now (request_of o) finalPrompt
                                    (generationOptions o) in
  m_quality m = quality_of o /\
  (quality_of o = "standard" \/ quality_of o = "hd") /\
  (m_cost m == costPerImage (quality_of o) + (3 # 100))%Q /\
  ~ (m_cost m == costPerImage (quality_of o))%Q.
Proof.
  cbn zeta. unfold Generator.createMetadata, request_of, generationOptions.
  cbn [m_quality m_cost o_quality quality].
  destruct (quality_of_cases o) as [-> | ->]; cbn;
    (split; [reflexivity|]); (split; [auto|]); split; [reflexivity|discriminate|reflexivity|discriminate].
Qed.

Definition no_modifier_styles : list string := [
  "geometric"; "abstract"; "wordmark"; "lettermark"; "pictorial"; "emblem";
  "combination"
].

Definition is_none {A : Type} (o : option A) : bool :=
  match o with
  | None => true
  | Some _ => false
  end.

Lemma style_of_valid (o : CommandOptions) : In (style_of o) validStyles.
Proof.
  unfold style_of. destruct (checked isValidLogoStyle (c_style o)) as [v|] eqn:Hc.
  - apply checked_valid in Hc. destruct Hc as [Hv _]. now apply list_includes_In.
  - cbn. now left.
Qed.

(** X21. The style the command passes on is always one of the fifteen it
    accepts: an accepted style is passed on as given, and ["modern"]
    stands in for a missing style and for every other value (["corporate"]
    included, although the template engine has keywords for it). Every
    accepted style has keywords in the template engine, but seven of them
    have no modifier in the free-form engine, the one the command uses
    when no template is given. *)
Theorem validated_style (o : CommandOptions) :
  In (style_of o) validStyles /\
  (c_style o = Some "corporate" -> style_of o = "modern") /\
  Professional.assoc "corporate" Professional.styleMap = Some "Professional corporate" /\
  Professional.assoc (style_of o) Professional.styleMap <> None /\
  (Prompts.styleModifiers !! style_of o = None <-> In (style_of o) no_modifier_styles) /\
  (forall s, c_style o = Some s -> In s validStyles -> style_of o = s) /\
  (forall s, c_style o = Some s -> ~ In s validStyles -> style_of o = "modern") /\
  (c_style o = None -> style_of o = "modern").
Proof.
  pose proof (style_of_valid o) as Hin.
  split; [exact Hin|]. split; [|split; [reflexivity|]].
  - intros Hc. unfold style_of. now rewrite Hc.
  - assert (Hrest : (forall s, c_style o = Some s -> In s validStyles -> style_of o = s) /\
                     (forall s, c_style o = Some s -> ~ In s validStyles ->
                                style_of o = "modern") /\
                     (c_style o = None -> style_of o = "modern")).
    { unfold style_of, checked, isValidLogoStyle. split; [|split].
      - intros s -> Hs. apply list_includes_In in Hs as Hv. rewrite Hv.
        assert (Ht : Js.truthy s = true).
        { apply JsFacts.truthy_nonempty. intros ->. vm_compute in Hv. discriminate. }
        now rewrite Ht.
      - intros s -> Hs.
        destruct (list_includes validStyles s) eqn:Hv.
        + apply list_includes_In in Hv. contradiction.
        + now rewrite andb_false_r.
      - now intros ->. }
    assert (Hall : forallb
                     (fun s =>
                        negb (is_none (Professional.assoc s Professional.styleMap))
                        && Bool.eqb (is_none (Prompts.styleModifiers !! s))
                                    (list_includes no_modifier_styles s))
                     validStyles = true) by (vm_compute; reflexivity).
    rewrite forallb_forall in Hall. specialize (Hall (style_of o) Hin).
    apply andb_true_iff in Hall. destruct Hall as [Hk Hm].
    apply Bool.eqb_prop in Hm.
    split; [|split; [|exact Hrest]].
    + destruct (Professional.assoc (style_of o) Professional.styleMap);
        [discriminate | discriminate Hk].
    + rewrite <- list_includes_In, <- Hm.
      destruct (Prompts.styleModifiers !! style_of o); cbn; split; congruence.
Qed.

End CliFacts.

(** ** The batch runner: downloads, the manifest, the options it builds *)

Module BatchOutputs.
Import Types Batch.

Lemma opt_or_same (a : option string) : Js.opt_or a a = a.
Proof. unfold Js.opt_or. now destruct (Js.opt_truthy a). Qed.

Lemma optimize_request_options (request : LogoRequest) :
  Prompts.optimize request (request_options request)
  = Prompts.optimize request no_options.
Proof.
  unfold Prompts.optimize, request_options, no_options.
  cbn [o_style o_industry o_colors]. rewrite opt_or_same.
  replace (Prompts.colors_or (colors request) (colors request)) with (colors request)
    by (now destruct (colors request)).
  reflexivity.
Qed.

(** X22. The options the batch runner builds for a request copy its
    style, colours, size and quality and never name a template or an
    industry. So a logo generated in a batch always has the free-form
    prompt, the one the request alone would give; the size sent to the
    API and the recorded cost follow the request (0.19 for a request of
    quality ["hd"], 0.07 for ["standard"] or none). *)
Theorem batch_generation_follows_request
  (client : Generator.Client) (random : nat -> Q) (id : string) (now : Z)
  (request : LogoRequest) (result : LogoResult) :
  let out := Generator.generate client random id now request (request_options request) in
  fst out = Retry.Returned result ->
  m_finalPrompt (metadata result) = Prompts.optimize request no_options /\
  (quality request = Some "hd" -> m_cost (metadata result) = 19 # 100) /\
  (quality request = None \/ quality request = Some "standard" ->
   m_cost (metadata result) = 7 # 100) /\
  Forall (fun c => Generator.p_prompt c = Prompts.optimize request no_options /\
                   Generator.p_size c = Js.str_or (size request) "1024x1024")
         (Retry.op_state (snd out)).
Proof.
  intros out Hres.
  pose proof (GeneratorRuns.generate_calls_well_formed client random id now request
                (request_options request)) as Hcalls.
  fold out in Hcalls. unfold out in *. clear out. unfold Generator.generate in *.
  change (Js.opt_truthy (o_template (request_options request))) with false in *.
  cbn iota in *.
  rewrite optimize_request_options in *.
  set (p := Prompts.optimize request no_options) in *.
  pose proof (GeneratorFacts.operation_prompt client id now request
                (request_options request) p random 3) as [Hprompts Hfinal].
  split; [now apply Hfinal|].
  assert (Hcost : (quality request = Some "hd" -> m_cost (metadata result) = 19 # 100) /\
                  (quality request = None \/ quality request = Some "standard" ->
                   m_cost (metadata result) = 7 # 100)).
  { unfold Retry.execute in Hres.
    pose proof (RetryFacts.loop_returned
                  (Generator.operation client id now request (request_options request) p)
                  random 3
                  (fun r => metadata r
                            = Generator.createMetadata id now request p
                                                       (request_options request) /\
                            localPath r = None /\ url r <> "")
                  (fun calls v =>
                     GeneratorRuns.operation_result client id now request
                       (request_options request) p calls v)
                  (Z.to_nat 3) 1%Z None (Retry.mkRun [] 0%nat []) result Hres)
      as [Hmeta _].
    rewrite Hmeta. unfold Generator.createMetadata, request_options.
    cbn [m_cost o_quality].
    split; [intros -> | intros [-> | ->]]; reflexivity. }
  destruct Hcost as [Hhd Hstd]. split; [exact Hhd|]. split; [exact Hstd|].
  apply Forall_forall. intros c Hc.
  rewrite Forall_forall in Hprompts, Hcalls.
  split; [now apply Hprompts|].
  destruct (Hcalls c Hc) as [_ [_ [_ [_ [_ [Hsize _]]]]]]. exact Hsize.
Qed.

Definition globex : LogoRequest :=
  mkRequest "Globex" "global reach" None None None (Some "1792x1024") (Some "hd").

Lemma batch_generation_follows_request_witness :
  exists result,
    fst (Generator.generate GeneratorRuns.steady_client (fun _ => 0%Q) "logo_2" 0 globex
                            (request_options globex))
    = Retry.Returned result /\
    m_cost (metadata result) = 19 # 100.
Proof.
  eexists. split; [reflexivity|].
  destruct (batch_generation_follows_request GeneratorRuns.steady_client (fun _ => 0%Q)
              "logo_2" 0 globex _ eq_refl) as [_ [Hc _]].
  apply Hc. reflexivity.
Defined.

Section Run.
Variable generate : nat -> LogoRequest -> GenerationOptions
                    -> Retry.JsError + LogoResult.
Variable download : nat -> LogoResult -> string -> option Z
                    -> Retry.JsError + string.
Variable createIterationManifest :
  string -> Z -> string -> list LogoResult -> option Retry.JsError.
Variable pLimit : Z -> option Retry.JsError.
Variable batch : BatchRequest.

Definition bound : Z :=
  if z_truthy (concurrency batch) then default 3%Z (concurrency batch) else 3%Z.

Definition settled (completion : list nat) : BatchResult :=
  run_tasks generate download batch completion
    (mkBatchResult [] []
       (mkStats (Z.of_nat (List.length (requests batch))) 0 0 0%Q 0)).

Lemma run_tasks_duration (completion : list nat) :
  forall results0,
    duration (stats (run_tasks generate download batch completion results0))
    = duration (stats results0).
Proof.
  unfold run_tasks. induction completion as [|i rest IH]; intros results0;
    cbn [fold_left]; [reflexivity|].
  rewrite IH. destruct (nth_error (requests batch) i) as [request|]; [|reflexivity].
  unfold settle. now destruct (attempt generate download batch i request).
Qed.

Lemma settled_spec (completion : list nat) :
  successful (settled completion)
  = omap (BatchFacts.success_of generate download batch) completion /\
  failed (settled completion)
  = omap (BatchFacts.failure_of generate download batch) completion /\
  duration (stats (settled completion)) = 0%Z.
Proof.
  unfold settled.
  destruct (BatchFacts.run_tasks_spec generate download batch completion
              (mkBatchResult [] []
                 (mkStats (Z.of_nat (List.length (requests batch))) 0 0 0%Q 0)))
    as [H1 [H2 _]].
  split; [exact H1|]. split; [exact H2|]. now rewrite run_tasks_duration.
Qed.

Lemma processBatch_returned (completion : list nat) (results : BatchResult) :
  processBatch generate download createIterationManifest pLimit batch completion
  = inr results ->
  results = settled completion.
Proof.
  unfold processBatch. fold bound. destruct (pLimit bound); [discriminate|].
  fold (settled completion).
  destruct (z_truthy (iteration batch) && Js.opt_truthy (outputDir batch)
            && negb (Nat.eqb (List.length (successful (settled completion))) 0)).
  - destruct (createIterationManifest _ _ _ _); [discriminate|]. now intros [= <-].
  - now intros [= <-].
Qed.

(** X23. In the result of a batch run with an output directory, the
    successful logos are exactly the generated logos whose download
    succeeded, each with the path that [download] returned for it as its
    [localPath] and otherwise as generated; a request whose logo was
    generated but could not be downloaded is listed as failed, with the
    error of the download. The [duration] of the stats is never set: it
    is 0 in every result. *)
Theorem batch_downloads (completion : list nat) (results : BatchResult)
        (dir : string) :
  processBatch generate download createIterationManifest pLimit batch completion
  = inr results ->
  outputDir batch = Some dir -> Js.truthy dir = true ->
  Forall (fun r => exists path, localPath r = Some path) (successful results) /\
  (forall r,
      In r (successful results) <->
      exists i request logo path,
        In i completion /\
        nth_error (requests batch) i = Some request /\
        generate i request (request_options request) = inr logo /\
        download i logo dir (iteration batch) = inr path /\
        r = mkResult (url logo) (revisedPrompt logo) (metadata logo) (Some path)) /\
  (forall i request logo e,
      In i completion ->
      nth_error (requests batch) i = Some request ->
      generate i request (request_options request) = inr logo ->
      download i logo dir (iteration batch) = inl e ->
      In (request, e) (failed results)) /\
  duration (stats results) = 0%Z.
Proof.
  intros Hrun Hdir Htruthy. apply processBatch_returned in Hrun. subst results.
  destruct (settled_spec completion) as [Hs [Hf Hd]].
  assert (Hsaved : forall r,
             In r (successful (settled completion)) <->
             exists i request logo path,
               In i completion /\
               nth_error (requests batch) i = Some request /\
               generate i request (request_options request) = inr logo /\
               download i logo dir (iteration batch) = inr path /\
               r = mkResult (url logo) (revisedPrompt logo) (metadata logo)
                            (Some path)).
  { intros r. rewrite Hs, <- list_elem_of_In, list_elem_of_omap. split.
    - intros [i [Hin Hi]]. apply list_elem_of_In in Hin.
      unfold BatchFacts.success_of, BatchFacts.outcome in Hi.
      destruct (nth_error (requests batch) i) as [request|] eqn:Hnth; [|discriminate].
      unfold attempt in Hi. rewrite Hdir, Htruthy in Hi.
      destruct (generate i request (request_options request)) as [e|logo] eqn:Hgen;
        [discriminate|].
      destruct (download i logo dir (iteration batch)) as [e|path] eqn:Hdl;
        [discriminate|].
      injection Hi as <-. now exists i, request, logo, path.
    - intros [i [request [logo [path [Hin [Hnth [Hgen [Hdl ->]]]]]]]].
      exists i. split; [now apply list_elem_of_In|].
      unfold BatchFacts.success_of, BatchFacts.outcome. rewrite Hnth.
      unfold attempt. now rewrite Hgen, Hdir, Htruthy, Hdl. }
  split; [|split; [exact Hsaved|split; [|exact Hd]]].
  - apply Forall_forall. intros r Hr. apply list_elem_of_In, Hsaved in Hr.
    destruct Hr as [i [request [logo [path [_ [_ [_ [_ ->]]]]]]]]. now exists path.
  - intros i request logo e Hin Hnth Hgen Hdl. rewrite Hf.
    apply list_elem_of_In, list_elem_of_omap. exists i.
    split; [now apply list_elem_of_In|].
    unfold BatchFacts.failure_of, BatchFacts.outcome. rewrite Hnth.
    unfold attempt. now rewrite Hgen, Hdir, Htruthy, Hdl.
Qed.

(** X24. The manifest is written after all tasks have settled, and only
    for a batch with an iteration number, an output directory and at least
    one success. When that write fails the whole batch is rejected with
    its error, although the logos were generated; when no task succeeded
    the manifest is not attempted and the batch returns its result, and
    so it does, whatever the manifest writer would answer, for a batch
    without iteration number (or with iteration 0) and for a batch
    without output directory (or with an empty one). *)
Theorem manifest_failure_rejects_batch (completion : list nat) (e : Retry.JsError) :
  pLimit bound = None ->
  (z_truthy (iteration batch) = true ->
   Js.opt_truthy (outputDir batch) = true ->
   (forall dir it description rs,
       createIterationManifest dir it description rs = Some e) ->
   ((exists i logo,
        In i completion /\ BatchFacts.success_of generate download batch i = Some logo) ->
    processBatch generate download createIterationManifest pLimit batch completion
    = inl e) /\
   ((forall i, In i completion ->
               BatchFacts.success_of generate download batch i = None) ->
    processBatch generate download createIterationManifest pLimit batch completion
    = inr (settled completion))) /\
  (z_truthy (iteration batch) = false \/ Js.opt_truthy (outputDir batch) = false ->
   processBatch generate download createIterationManifest pLimit batch completion
   = inr (settled completion)).
Proof.
  intros Hlimit. split; cycle 1.
  { unfold processBatch. fold bound. rewrite Hlimit. fold (settled completion).
    intros [-> | ->]; [reflexivity | now rewrite andb_false_r]. }
  intros Hit Hdir Hmanifest.
  destruct (settled_spec completion) as [Hs _].
  unfold processBatch. fold bound. rewrite Hlimit. fold (settled completion).
  rewrite Hit, Hdir. cbn [andb]. split.
  - intros [i [logo [Hin Hlogo]]].
    assert (Hne : Nat.eqb (List.length (successful (settled completion))) 0 = false).
    { rewrite Hs. apply Nat.eqb_neq. intros Hlen.
      assert (Hel : logo ∈ omap (BatchFacts.success_of generate download batch) completion).
      { apply list_elem_of_omap. exists i. split; [now apply list_elem_of_In | exact Hlogo]. }
      apply list_elem_of_In in Hel. 
      destruct (omap (BatchFacts.success_of generate download batch) completion);
        [destruct Hel | discriminate]. }
    rewrite Hne. cbn [negb]. now rewrite Hmanifest.
  - intros Hnone.
    assert (Hnil : successful (settled completion) = []).
    { rewrite Hs. clear Hs. induction completion as [|i rest IH]; [reflexivity|].
      cbn [omap list_omap]. rewrite (Hnone i (or_introl eq_refl)).
      apply IH. intros j Hj. apply Hnone. now right. }
    now rewrite Hnil.
Qed.
End Run.

Definition demo_batch : BatchRequest :=
  mkBatch [GeneratorRuns.acme_hd; globex] None (Some "out") (Some 2%Z) None.

(** Generation succeeds for every request. *)
Definition demo_generate (i : nat) (request : LogoRequest)
           (options : GenerationOptions) : Retry.JsError + LogoResult :=
  inr (mkResult "https://img.example/logo.png" None
         (Generator.createMetadata "logo_1" 0 request "final prompt" options) None).

(** The download of the second logo fails. *)
Definition demo_download (i : nat) (logo : LogoResult) (dir : string)
           (iteration : option Z) : Retry.JsError + string :=
  if Nat.eqb i 1 then inl (Retry.mkError false (Some "Failed to download image: 404"))
  else inr "out/iteration-2/acme.png".

Definition disk_full : Retry.JsError := Retry.mkError false (Some "No space left on device").

Lemma batch_downloads_witness :
  exists results,
    processBatch demo_generate demo_download (fun _ _ _ _ => None) (fun _ => None)
                 demo_batch [0; 1]%nat
    = inr results /\
    Forall (fun r => exists path, localPath r = Some path) (successful results) /\
    (forall r, In r (successful results) -> localPath r = Some "out/iteration-2/acme.png") /\
    duration (stats results) = 0%Z.
Proof.
  eexists. split; [reflexivity|].
  destruct (batch_downloads demo_generate demo_download (fun _ _ _ _ => None)
              (fun _ => None) demo_batch [0; 1]%nat _ "out" eq_refl eq_refl eq_refl)
    as [H1 [H2 [_ H3]]].
  split; [exact H1 | split; [|exact H3]].
  intros r Hr. apply H2 in Hr.
  destruct Hr as [i [request [logo [path [Hin [_ [_ [Hdl ->]]]]]]]].
  cbn [localPath]. destruct Hin as [<- | [<- | []]]; [|discriminate Hdl].
  now injection Hdl as <-.
Defined.

Lemma manifest_failure_rejects_batch_witness :
  processBatch demo_generate demo_download (fun _ _ _ _ => Some disk_full)
               (fun _ => None) demo_batch [0; 1]%nat
  = inl disk_full.
Proof.
  destruct (manifest_failure_rejects_batch demo_generate demo_download
              (fun _ _ _ _ => Some disk_full) (fun _ => None) demo_batch [0; 1]%nat
              disk_full eq_refl) as [H _].
  destruct (H eq_refl eq_refl (fun _ _ _ _ => eq_refl)) as [Hsome _].
  apply Hsome. eexists 0%nat, _. split; [now left | reflexivity].
Defined.

End BatchOutputs.

(** ** Sanitised names and identifiers *)

Module SlugFacts.
Import Slug.

Definition slug_char (c : ascii) : bool := is_alnum c || is_dash c.

Fixpoint all_chars (p : ascii -> bool) (s : string) : bool :=
  match s with
  | EmptyString => true
  | String c s' => p c && all_chars p s'
  end.

Fixpoint no_double_dash (s : string) : bool :=
  match s with
  | String c ((String d _) as s') => negb (is_dash c && is_dash d) && no_double_dash s'
  | _ => true
  end.

Definition starts_with_dash (s : string) : bool :=
  match s with
  | String c _ => is_dash c
  | EmptyString => false
  end.

Fixpoint ends_with_dash (s : string) : bool :=
  match s with
  | EmptyString => false
  | String c EmptyString => is_dash c
  | String _ s' => ends_with_dash s'
  end.

Lemma is_dash_eq (c : ascii) : is_dash c = true -> c = "-"%char.
Proof. unfold is_dash. apply Ascii.eqb_eq. Qed.

Lemma dashify_chars (s : string) : all_chars slug_char (dashify s) = true.
Proof.
  induction s as [|c s IH]; cbn [dashify all_chars]; [reflexivity|].
  rewrite IH, andb_true_r. unfold slug_char.
  destruct (is_alnum c) eqn:Hc; [now rewrite Hc | reflexivity].
Qed.

Lemma collapse_cons (c : ascii) (s : string) :
  collapse (String c s)
  = if is_dash c && starts_with_dash s then collapse s else String c (collapse s).
Proof.
  cbn [collapse]. destruct (is_dash c); [|reflexivity].
  destruct s as [|d r]; [reflexivity|]. cbn [starts_with_dash andb].
  now destruct (is_dash d).
Qed.

Lemma collapse_chars (p : ascii -> bool) (s : string) :
  all_chars p s = true -> all_chars p (collapse s) = true.
Proof.
  induction s as [|c s IH]; [reflexivity|]. rewrite collapse_cons.
  cbn [all_chars]. intros H. apply andb_prop in H. destruct H as [Hc Hs].
  destruct (is_dash c && starts_with_dash s); [now apply IH|].
  cbn [all_chars]. now rewrite Hc, IH.
Qed.

Lemma collapse_start (s : string) :
  starts_with_dash (collapse s) = starts_with_dash s.
Proof.
  induction s as [|c s IH]; [reflexivity|]. rewrite collapse_cons.
  cbn [starts_with_dash].
  destruct (is_dash c) eqn:Hc; cbn [andb].
  - destruct (starts_with_dash s) eqn:Hs; [exact IH | cbn; exact Hc].
  - cbn. exact Hc.
Qed.

Lemma no_double_cons (c : ascii) (s : string) :
  no_double_dash (String c s)
  = negb (is_dash c && starts_with_dash s) && no_double_dash s.
Proof.
  destruct s as [|d r]; [|reflexivity].
  cbn. now rewrite andb_false_r.
Qed.

Lemma collapse_no_double (s : string) : no_double_dash (collapse s) = true.
Proof.
  induction s as [|c s IH]; [reflexivity|]. rewrite collapse_cons.
  destruct (is_dash c && starts_with_dash s) eqn:Hcs; [exact IH|].
  now rewrite no_double_cons, collapse_start, Hcs, IH.
Qed.

Lemma strip_trailing_cons (c : ascii) (s : string) :
  strip_trailing_dash (String c s)
  = match s with
    | EmptyString => if is_dash c then EmptyString else String c EmptyString
    | _ => String c (strip_trailing_dash s)
    end.
Proof. now destruct s. Qed.

Lemma strip_trailing_chars (p : ascii -> bool) (s : string) :
  all_chars p s = true -> all_chars p (strip_trailing_dash s) = true.
Proof.
  induction s as [|c s IH]; [reflexivity|]. rewrite strip_trailing_cons.
  cbn [all_chars]. intros H. apply andb_prop in H. destruct H as [Hc Hs].
  destruct s as [|d r].
  - destruct (is_dash c); cbn [all_chars]; [reflexivity | now rewrite Hc].
  - cbn [all_chars]. rewrite Hc. now apply IH.
Qed.

Lemma strip_trailing_start (s : string) :
  starts_with_dash s = false -> starts_with_dash (strip_trailing_dash s) = false.
Proof.
  destruct s as [|c s]; [reflexivity|]. rewrite strip_trailing_cons.
  cbn [starts_with_dash]. intros Hc. destruct s; [now rewrite Hc | exact Hc].
Qed.

Lemma strip_trailing_start_le (s : string) :
  starts_with_dash (strip_trailing_dash s) = true -> starts_with_dash s = true.
Proof.
  destruct (starts_with_dash s) eqn:Hs; [reflexivity|].
  now rewrite strip_trailing_start.
Qed.

Lemma strip_trailing_no_double (s : string) :
  no_double_dash s = true -> no_double_dash (strip_trailing_dash s) = true.
Proof.
  induction s as [|c s IH]; [reflexivity|]. rewrite strip_trailing_cons, no_double_cons.
  intros H. apply andb_prop in H. destruct H as [Hc Hs].
  destruct s as [|d r]; [now destruct (is_dash c)|].
  rewrite no_double_cons, IH by exact Hs. rewrite andb_true_r.
  destruct (is_dash c) eqn:Hd; [|reflexivity]. cbn [andb] in *.
  destruct (starts_with_dash (strip_trailing_dash (String d r))) eqn:Hst; [|reflexivity].
  apply strip_trailing_start_le in Hst. now rewrite Hst in Hc.
Qed.

Lemma strip_trailing_end (s : string) :
  no_double_dash s = true -> ends_with_dash (strip_trailing_dash s) = false.
Proof.
  induction s as [|c s IH]; [reflexivity|]. rewrite strip_trailing_cons, no_double_cons.
  intros H. apply andb_prop in H. destruct H as [Hc Hs].
  destruct s as [|d r].
  - destruct (is_dash c) eqn:Hd; cbn [ends_with_dash]; [reflexivity | exact Hd].
  - specialize (IH Hs).
    destruct (strip_trailing_dash (String d r)) as [|d' r'] eqn:Hst.
    + (* the tail was a single dash, now gone: [c] is last and is no dash *)
      cbn [ends_with_dash].
      destruct r as [|d2 r2]; [|now rewrite strip_trailing_cons in Hst].
      rewrite strip_trailing_cons in Hst. destruct (is_dash d) eqn:Hd; [|discriminate].
      cbn [starts_with_dash] in Hc. rewrite Hd, andb_true_r in Hc.
      now apply negb_true_iff in Hc.
    + exact IH.
Qed.

Lemma strip_dashes_cases (s : string) :
  strip_dashes s
  = if starts_with_dash s
    then strip_trailing_dash (match s with String _ s' => s' | EmptyString => "" end)
    else strip_trailing_dash s.
Proof. destruct s as [|c s]; [reflexivity|]. cbn. now destruct (is_dash c). Qed.

Lemma no_double_tail (c : ascii) (s : string) :
  no_double_dash (String c s) = true -> no_double_dash s = true.
Proof. rewrite no_double_cons. intros H. now apply andb_prop in H. Qed.

Lemma lower_slug_char (c : ascii) : slug_char c = true -> Js.lower_ascii c = c.
Proof.
  unfold slug_char, is_alnum, Js.lower_ascii. cbv zeta. intros H.
  destruct ((65 <=? nat_of_ascii c)%nat && (nat_of_ascii c <=? 90)%nat) eqn:Hup;
    [|reflexivity].
  apply andb_prop in Hup. destruct Hup as [H65 H90].
  apply Nat.leb_le in H65, H90.
  apply orb_prop in H. destruct H as [H|H].
  - apply orb_prop in H. destruct H as [H|H]; apply andb_prop in H; destruct H as [Ha Hb];
      apply Nat.leb_le in Ha, Hb; exfalso; lia.
  - apply is_dash_eq in H. subst c. vm_compute in H65. exfalso. lia.
Qed.

Lemma toLowerCase_ascii (c : ascii) (s : string) :
  (nat_of_ascii c < 128)%nat ->
  Js.toLowerCase (String c s) = String (Js.lower_ascii c) (Js.toLowerCase s).
Proof.
  intros Hc. cbn [Js.toLowerCase]. unfold Js.is_byte.
  destruct (Nat.eqb_spec (nat_of_ascii c) 196) as [E|_]; [exfalso; lia|].
  destruct (Nat.eqb_spec (nat_of_ascii c) 226) as [E|_]; [exfalso; lia|].
  cbn [andb]. destruct s as [|d [|e s]]; reflexivity.
Qed.

Lemma slug_char_ascii (c : ascii) : slug_char c = true -> (nat_of_ascii c < 128)%nat.
Proof.
  unfold slug_char, is_alnum. cbv zeta. intros H.
  apply orb_prop in H. destruct H as [H|H].
  - apply orb_prop in H. destruct H as [H|H]; apply andb_prop in H; destruct H as [_ Hb];
      apply Nat.leb_le in Hb; lia.
  - apply is_dash_eq in H. subst c. vm_compute. lia.
Qed.

Lemma toLowerCase_slug (s : string) :
  all_chars slug_char s = true -> Js.toLowerCase s = s.
Proof.
  induction s as [|c s IH]; [reflexivity|]. cbn [all_chars].
  intros H. apply andb_prop in H. destruct H as [Hc Hs].
  rewrite (toLowerCase_ascii c s (slug_char_ascii c Hc)).
  now rewrite (lower_slug_char c Hc), IH.
Qed.

Lemma dashify_slug (s : string) : all_chars slug_char s = true -> dashify s = s.
Proof.
  induction s as [|c s IH]; [reflexivity|]. cbn [all_chars dashify].
  intros H. apply andb_prop in H. destruct H as [Hc Hs]. rewrite (IH Hs).
  unfold slug_char in Hc. destruct (is_alnum c); [reflexivity|].
  cbn in Hc. now rewrite (is_dash_eq c Hc).
Qed.

Lemma collapse_id (s : string) : no_double_dash s = true -> collapse s = s.
Proof.
  induction s as [|c s IH]; [reflexivity|]. rewrite collapse_cons, no_double_cons.
  intros H. apply andb_prop in H. destruct H as [Hc Hs].
  apply negb_true_iff in Hc. now rewrite Hc, IH.
Qed.

Lemma strip_trailing_id (s : string) :
  ends_with_dash s = false -> strip_trailing_dash s = s.
Proof.
  induction s as [|c s IH]; [reflexivity|]. rewrite strip_trailing_cons.
  destruct s as [|d r].
  - cbn [ends_with_dash]. now intros ->.
  - intros H. now rewrite IH.
Qed.

(** X25. The sanitised name that [generateTemplateId] and the file names
    of [generateFilename] use consists of lower-case letters, digits and
    single dashes only, and neither starts nor ends with a dash; running
    the sanitiser on its own output changes nothing. *)
Theorem sanitised_name_shape (name : string) :
  let s := generateTemplateId name in
  all_chars slug_char s = true /\
  no_double_dash s = true /\
  starts_with_dash s = false /\
  ends_with_dash s = false /\
  generateTemplateId s = s.
Proof.
  cbn zeta.
  change (generateTemplateId name)
    with (strip_dashes (collapse (dashify (Js.toLowerCase name)))).
  set (d := collapse (dashify (Js.toLowerCase name))).
  assert (Hchars : all_chars slug_char d = true).
  { unfold d. apply collapse_chars, dashify_chars. }
  assert (Hnd : no_double_dash d = true) by apply collapse_no_double.
  assert (H1 : all_chars slug_char (strip_dashes d) = true).
  { rewrite strip_dashes_cases. destruct (starts_with_dash d).
    - apply strip_trailing_chars. destruct d as [|c r]; [reflexivity|].
      cbn [all_chars] in Hchars. now apply andb_prop in Hchars.
    - now apply strip_trailing_chars. }
  assert (H2 : no_double_dash (strip_dashes d) = true).
  { rewrite strip_dashes_cases. destruct (starts_with_dash d).
    - apply strip_trailing_no_double. destruct d as [|c r]; [reflexivity|].
      now apply (no_double_tail c).
    - now apply strip_trailing_no_double. }
  assert (H3 : starts_with_dash (strip_dashes d) = false).
  { rewrite strip_dashes_cases. destruct (starts_with_dash d) eqn:Hs.
    - apply strip_trailing_start. destruct d as [|c r]; [reflexivity|].
      rewrite no_double_cons in Hnd. cbn [starts_with_dash] in Hs. rewrite Hs in Hnd.
      cbn [andb] in Hnd. apply andb_prop in Hnd. destruct Hnd as [Hr _].
      now apply negb_true_iff in Hr.
    - now apply strip_trailing_start. }
  assert (H4 : ends_with_dash (strip_dashes d) = false).
  { rewrite strip_dashes_cases. destruct (starts_with_dash d).
    - apply strip_trailing_end. destruct d as [|c r]; [reflexivity|].
      now apply (no_double_tail c).
    - now apply strip_trailing_end. }
  split; [exact H1|]. split; [exact H2|]. split; [exact H3|]. split; [exact H4|].
  unfold generateTemplateId.
  rewrite (toLowerCase_slug _ H1), (dashify_slug _ H1), (collapse_id _ H2).
  rewrite strip_dashes_cases, H3. now apply strip_trailing_id.
Qed.

Example sanitised_name_sample :
  generateTemplateId "  Acme & Sons, Ltd. " = "acme-sons-ltd".
Proof. vm_compute. reflexivity. Qed.

End SlugFacts.

Module IdFacts.
Import Id.
Local Open Scope Z_scope.

Lemma take_encodeHex (k : nat) :
  forall bytes,
    Js.take (2 * k) (Sha256.encodeHex bytes) = Sha256.encodeHex (firstn k bytes).
Proof.
  induction k as [|k IH]; intros bytes; [reflexivity|].
  replace (2 * Datatypes.S k)%nat with (Datatypes.S (Datatypes.S (2 * k))) by lia.
  destruct bytes as [|b rest]; [reflexivity|].
  cbn [Sha256.encodeHex Js.take firstn]. now rewrite IH.
Qed.

Lemma hex_digit_code (d : Z) :
  0 <= d < 16 ->
  Z.of_nat (nat_of_ascii (Sha256.hex_digit d)) = if d <? 10 then 48 + d else 87 + d.
Proof.
  intros Hd. unfold Sha256.hex_digit.
  destruct (Z.ltb_spec d 10); rewrite nat_ascii_embedding; lia.
Qed.

Lemma hex_digit_inj (d d' : Z) :
  0 <= d < 16 -> 0 <= d' < 16 ->
  Sha256.hex_digit d = Sha256.hex_digit d' -> d = d'.
Proof.
  intros Hd Hd' Heq.
  pose proof (hex_digit_code d Hd) as H1. pose proof (hex_digit_code d' Hd') as H2.
  rewrite Heq in H1. rewrite H1 in H2.
  destruct (Z.ltb_spec d 10), (Z.ltb_spec d' 10); lia.
Qed.

Lemma encodeHex_inj (bytes : list Z) :
  forall bytes',
    Forall (fun b => 0 <= b < 256) bytes -> Forall (fun b => 0 <= b < 256) bytes' ->
    List.length bytes = List.length bytes' ->
    Sha256.encodeHex bytes = Sha256.encodeHex bytes' -> bytes = bytes'.
Proof.
  induction bytes as [|b rest IH]; intros [|b' rest'] Hr Hr' Hlen Heq;
    try discriminate; [reflexivity|].
  cbn [Sha256.encodeHex] in Heq. injection Heq as Hhi Hlo Hrest.
  apply Forall_cons_1 in Hr, Hr'. destruct Hr as [Hb Hr], Hr' as [Hb' Hr'].
  apply hex_digit_inj in Hhi, Hlo;
    try (apply Z.mod_pos_bound; lia);
    try (split; [apply Z.div_pos; lia | apply Z.div_lt_upper_bound; lia]).
  f_equal.
  - rewrite (Z.div_mod b 16), (Z.div_mod b' 16) by lia. now rewrite Hhi, Hlo.
  - apply IH; try assumption. cbn in Hlen. lia.
Qed.

Lemma append_inv_head (p x y : string) : p +:+ x = p +:+ y -> x = y.
Proof.
  induction p as [|c p IH]; cbn [String.append]; [tauto|]. intros [= H]. now apply IH.
Qed.

Lemma firstn_range (k : nat) :
  forall bytes,
    Forall (fun b => 0 <= b < 256) bytes ->
    Forall (fun b => 0 <= b < 256) (firstn k bytes).
Proof.
  induction k as [|k IH]; intros [|b rest] H; cbn [firstn]; try constructor.
  - exact (Forall_inv H).
  - apply IH. exact (Forall_inv_tail H).
Qed.

(** X26. Of the eight random bytes [generateId] draws, only the first four
    reach the identifier: its random part is their eight hexadecimal
    digits. Two identifiers made in the same millisecond are equal
    exactly when those four bytes agree. *)
Theorem generateId_uses_four_bytes (now : Z) (bytes bytes' : list Z) :
  List.length bytes = 8%nat -> List.length bytes' = 8%nat ->
  Forall (fun b => 0 <= b < 256) bytes -> Forall (fun b => 0 <= b < 256) bytes' ->
  generateId now bytes
  = "logo_" +:+ toString36 now +:+ "_" +:+ Sha256.encodeHex (firstn 4 bytes) /\
  String.length (Sha256.encodeHex (firstn 4 bytes)) = 8%nat /\
  KeyFacts.all_hex (Sha256.encodeHex (firstn 4 bytes)) = true /\
  (generateId now bytes = generateId now bytes' <-> firstn 4 bytes = firstn 4 bytes').
Proof.
  intros Hlen Hlen' Hr Hr'.
  assert (Hid : forall bs, generateId now bs
                           = "logo_" +:+ toString36 now +:+ "_"
                                     +:+ Sha256.encodeHex (firstn 4 bs)).
  { intros bs. unfold generateId. now rewrite (take_encodeHex 4). }
  split; [apply Hid|]. split; [|split].
  - rewrite KeyFacts.length_encodeHex, length_firstn, Hlen. reflexivity.
  - apply KeyFacts.encodeHex_all_hex, firstn_range, Hr.
  - rewrite !Hid. split.
    + intros H. apply append_inv_head, append_inv_head, append_inv_head in H.
      apply encodeHex_inj in H; [exact H | | |].
      * now apply firstn_range.
      * now apply firstn_range.
      * rewrite !length_firstn, Hlen, Hlen'. reflexivity.
    + now intros ->.
Qed.

Lemma generateId_uses_four_bytes_witness :
  generateId 1700000000000 [222; 173; 190; 239; 1; 2; 3; 4]
  = generateId 1700000000000 [222; 173; 190; 239; 250; 251; 252; 253].
Proof.
  apply (generateId_uses_four_bytes 1700000000000
           [222; 173; 190; 239; 1; 2; 3; 4]
           [222; 173; 190; 239; 250; 251; 252; 253]).
  - reflexivity.
  - reflexivity.
  - repeat constructor; lia.
  - repeat constructor; lia.
  - reflexivity.
Defined.

Example generateId_sample :
  generateId 1700000000000 [222; 173; 190; 239; 1; 2; 3; 4] = "logo_loyw3v28_deadbeef".
Proof. vm_compute. reflexivity. Qed.

End IdFacts.

(** ** Image downloader: what a download leaves behind *)

Module DownloaderFacts.
Import Types Downloader.

Section Paths.
Variable join : list string -> string.
Variable toISOString : Z -> Retry.JsError + string.
Variable env : Env.

(** What [download] returns does not depend on the files already there. *)
Lemma download_value (result : LogoResult) (outputDir : string)
      (iteration : option Z) (fs fs' : gmap string FileData) :
  fst (download join toISOString env result outputDir iteration fs)
  = fst (download join toISOString env result outputDir iteration fs').
Proof.
  unfold download, saveMetadata.
  destruct (ensureDir_error env (final_dir join outputDir iteration)); [reflexivity|].
  destruct (generateFilename toISOString (metadata result)) as [e|filename];
    [reflexivity|].
  destruct (fetch env (url result)) as [e|[|] statusText [e|body]]; try reflexivity.
  destruct (write_error env _); [reflexivity|].
  destruct (ensureDir_error env _); [reflexivity|].
  destruct (write_error env _); reflexivity.
Qed.

(** X27. When the server answers with a status that is not OK, [download]
    throws an error whose message names the failure twice ("Failed to
    download image: Failed to download image: " and the status text),
    since the error thrown inside the [try] is wrapped again by the
    [catch]; no file is written. *)
Theorem download_http_error
  (result : LogoResult) (outputDir : string) (iteration : option Z)
  (fs : gmap string FileData) (filename statusText : string)
  (body : Retry.JsError + string) :
  ensureDir_error env (final_dir join outputDir iteration) = None ->
  generateFilename toISOString (metadata result) = inr filename ->
  fetch env (url result) = FetchResponse false statusText body ->
  download join toISOString env result outputDir iteration fs
  = (inl (Retry.mkError false
            (Some ("Failed to download image: Failed to download image: "
                     +:+ statusText))),
     fs).
Proof.
  intros Hdir Hname Hfetch. unfold download. now rewrite Hdir, Hname, Hfetch.
Qed.

(** X28. A download whose steps all succeed returns the path of the image
    inside the final directory, which is the output directory itself when
    no iteration (or iteration 0) is given. It writes the image and then
    the metadata, which [loadMetadata] reads back for that directory and
    the id of the logo; every other path is left as it was. *)
Theorem download_then_loadMetadata
  (result : LogoResult) (outputDir : string) (iteration : option Z)
  (fs : gmap string FileData) (filename body : string) (statusText : string) :
  let dir := final_dir join outputDir iteration in
  let filepath := join [dir; filename] in
  let metadataPath := metadata_path join dir (m_id (metadata result)) in
  ensureDir_error env dir = None ->
  generateFilename toISOString (metadata result) = inr filename ->
  fetch env (url result) = FetchResponse true statusText (inr body) ->
  write_error env filepath = None ->
  ensureDir_error env (join [dir; ".metadata"]) = None ->
  write_error env metadataPath = None ->
  let out := download join toISOString env result outputDir iteration fs in
  fst out = inr filepath /\
  snd out = <[metadataPath := MetadataJson (metadata result)]>
              (<[filepath := Binary body]> fs) /\
  loadMetadata join (m_id (metadata result)) dir (snd out)
  = Some (MetadataJson (metadata result)) /\
  (forall p, p <> filepath -> p <> metadataPath -> snd out !! p = fs !! p) /\
  (iteration = None \/ iteration = Some 0%Z -> dir = outputDir).
Proof.
  intros dir filepath metadataPath Hdir Hname Hfetch Hwrite Hmdir Hmeta out.
  assert (Hout : out = (inr filepath,
                        <[metadataPath := MetadataJson (metadata result)]>
                          (<[filepath := Binary body]> fs))).
  { unfold out, download, saveMetadata. fold dir. rewrite Hdir, Hname, Hfetch.
    fold filepath. rewrite Hwrite, Hmdir. fold metadataPath. now rewrite Hmeta. }
  rewrite Hout. cbn [fst snd]. split; [reflexivity|]. split; [reflexivity|].
  split; [|split].
  - unfold loadMetadata. fold metadataPath. now rewrite lookup_insert_eq.
  - intros p Hp Hm. now rewrite !lookup_insert_ne by congruence.
  - unfold dir, final_dir. now intros [-> | ->].
Qed.

(** [download] is not atomic: when the image has been written and
    saving the metadata fails, the call throws (the error wrapped as a
    download failure) but the image file stays in place, without
    metadata. *)
Theorem download_leaves_image_behind
  (result : LogoResult) (outputDir : string) (iteration : option Z)
  (fs : gmap string FileData) (filename body statusText : string)
  (e : Retry.JsError) :
  let dir := final_dir join outputDir iteration in
  let filepath := join [dir; filename] in
  ensureDir_error env dir = None ->
  generateFilename toISOString (metadata result) = inr filename ->
  fetch env (url result) = FetchResponse true statusText (inr body) ->
  write_error env filepath = None ->
  saveMetadata join env (metadata result) dir (<[filepath := Binary body]> fs) = inl e ->
  download join toISOString env result outputDir iteration fs
  = (inl (download_failed (error_message e)), <[filepath := Binary body]> fs).
Proof.
  intros dir filepath Hdir Hname Hfetch Hwrite Hsave.
  unfold download. fold dir. rewrite Hdir, Hname, Hfetch. fold filepath.
  now rewrite Hwrite, Hsave.
Qed.

(** The path a result is saved under, when its download succeeds. *)
Definition saved_path (outputDir : string) (iteration : option Z)
           (result : LogoResult) : option string :=
  match fst (download join toISOString env result outputDir iteration ∅) with
  | inr filepath => Some filepath
  | inl _ => None
  end.

(** X29. [downloadBatch] treats each result on its own: it returns, in
    order, the paths of the results whose download succeeds, whatever
    happens to the others, and never throws. *)
Theorem downloadBatch_isolates_failures
  (results : list LogoResult) (outputDir : string) (iteration : option Z)
  (fs : gmap string FileData) :
  fst (downloadBatch join toISOString env results outputDir iteration [] fs)
  = omap (saved_path outputDir iteration) results.
Proof.
  assert (H : forall filepaths fs0,
             fst (downloadBatch join toISOString env results outputDir iteration
                                filepaths fs0)
             = (filepaths ++ omap (saved_path outputDir iteration) results)%list).
  { induction results as [|r rest IH]; intros filepaths fs0; cbn [downloadBatch].
    - cbn. now rewrite app_nil_r.
    - cbn [omap list_omap]. unfold saved_path at 1.
      rewrite (download_value r outputDir iteration ∅ fs0).
      destruct (download join toISOString env r outputDir iteration fs0)
        as [[e|filepath] fs1]; cbn [fst].
      + apply IH.
      + rewrite IH, <- app_assoc. reflexivity. }
  apply H.
Qed.

Definition manifest_path (outputDir : string) : string :=
  join [outputDir; "iterations.json"].

(** The iterations a manifest file holds for [createIterationManifest]:
    none when the file is missing or does not parse, or when the object
    has no [iterations]. *)
Definition recorded (outputDir : string) (fs : gmap string FileData)
  : list IterationData :=
  match fs !! manifest_path outputDir with
  | Some (ManifestJson (Some iterations)) => iterations
  | _ => []
  end.

Definition entry (now iteration : Z) (description : string)
           (results : list LogoResult) : IterationData :=
  mkIteration iteration now description (List.length results) (total_cost results)
              (map summary results).

Lemma manifest_step (now : Z) (outputDir : string) (iteration : Z)
      (description : string) (results : list LogoResult) (fs : gmap string FileData) :
  write_error env (manifest_path outputDir) = None ->
  createIterationManifest join env now outputDir iteration description results fs
  = (None,
     <[manifest_path outputDir :=
         ManifestJson (Some (recorded outputDir fs
                               ++ [entry now iteration description results])%list)]> fs).
Proof.
  intros Hwrite. unfold createIterationManifest, recorded. fold (manifest_path outputDir).
  rewrite Hwrite. fold (entry now iteration description results).
  destruct (fs !! manifest_path outputDir) as [[body|m|[its|]]|]; reflexivity.
Qed.

(** X30. The manifest only grows: when its file can be written,
    [createIterationManifest] appends one entry to the iterations already
    recorded (none if the file is missing or unreadable) and touches no
    other file. Two calls leave both entries, in call order, even when
    they carry the same iteration number. *)
Theorem manifest_appends
  (now1 now2 : Z) (outputDir : string) (it1 it2 : Z) (d1 d2 : string)
  (rs1 rs2 : list LogoResult) (fs : gmap string FileData) :
  write_error env (manifest_path outputDir) = None ->
  let fs1 := snd (createIterationManifest join env now1 outputDir it1 d1 rs1 fs) in
  let fs2 := snd (createIterationManifest join env now2 outputDir it2 d2 rs2 fs1) in
  recorded outputDir fs1 = (recorded outputDir fs ++ [entry now1 it1 d1 rs1])%list /\
  recorded outputDir fs2
  = (recorded outputDir fs ++ [entry now1 it1 d1 rs1; entry now2 it2 d2 rs2])%list /\
  (forall p, p <> manifest_path outputDir -> fs2 !! p = fs !! p).
Proof.
  intros Hwrite fs1 fs2. unfold fs2, fs1. rewrite !manifest_step by exact Hwrite.
  cbn [snd].
  assert (Hrec : forall its m,
             recorded outputDir (<[manifest_path outputDir := ManifestJson (Some its)]> m)
             = its).
  { intros its m. unfold recorded. now rewrite lookup_insert_eq. }
  rewrite !Hrec. split; [reflexivity|]. split.
  - now rewrite <- app_assoc.
  - intros p Hp. now rewrite !lookup_insert_ne by congruence.
Qed.
End Paths.

(** A path library that joins with ["/"], a clock that prints one fixed
    date, a server that knows one URL and a disk that takes every
    write. *)
Definition slash_join (parts : list string) : string := Js.join "/" parts.

Definition fixed_date (t : Z) : Retry.JsError + string := inr "2024-01-02T03:04:05.000Z".

Definition one_url_env : Env :=
  mkEnv (fun u => if String.eqb u "https://img.example/a.png"
                  then FetchResponse true "OK" (inr "PNG")
                  else FetchResponse false "Not Found" (inr ""))
        (fun _ => None) (fun _ => None).

Definition logo_at (u : string) : LogoResult :=
  mkResult u None
    (mkMetadata "logo_abc_123456" 0 "Acme & Sons" "bold new idea" "final prompt"
                "modern" None "1024x1024" "standard" (7 # 100))
    None.

Lemma download_http_error_witness :
  fst (download slash_join fixed_date one_url_env (logo_at "https://img.example/b.png")
                "out" None ∅)
  = inl (Retry.mkError false
           (Some "Failed to download image: Failed to download image: Not Found")).
Proof.
  rewrite (download_http_error slash_join fixed_date one_url_env
             (logo_at "https://img.example/b.png") "out" None ∅
             "acme-sons-modern-2024-01-02-123456.png" "Not Found" (inr ""));
    reflexivity.
Defined.

Lemma download_then_loadMetadata_witness :
  fst (download slash_join fixed_date one_url_env (logo_at "https://img.example/a.png")
                "out" (Some 2%Z) ∅)
  = inr "out/iteration-2/acme-sons-modern-2024-01-02-123456.png" /\
  loadMetadata slash_join "logo_abc_123456" "out/iteration-2"
    (snd (download slash_join fixed_date one_url_env
                   (logo_at "https://img.example/a.png") "out" (Some 2%Z) ∅))
  = Some (MetadataJson (metadata (logo_at "https://img.example/a.png"))).
Proof.
  destruct (download_then_loadMetadata slash_join fixed_date one_url_env
              (logo_at "https://img.example/a.png") "out" (Some 2%Z) ∅
              "acme-sons-modern-2024-01-02-123456.png" "PNG" "OK")
    as [H1 [_ [H3 _]]]; try reflexivity.
  split; [exact H1 | exact H3].
Defined.

(** A disk that refuses to create the metadata directory. *)
Definition no_metadata_env : Env :=
  mkEnv (fetch one_url_env)
        (fun d => if Js.endsWith ".metadata" d
                  then Some (Retry.mkError false (Some "Permission denied"))
                  else None)
        (fun _ => None).

Lemma download_leaves_image_behind_witness :
  download slash_join fixed_date no_metadata_env (logo_at "https://img.example/a.png")
           "out" None ∅
  = (inl (Retry.mkError false (Some "Failed to download image: Permission denied")),
     <["out/acme-sons-modern-2024-01-02-123456.png" := Binary "PNG"]> ∅).
Proof.
  rewrite (download_leaves_image_behind slash_join fixed_date no_metadata_env
             (logo_at "https://img.example/a.png") "out" None ∅
             "acme-sons-modern-2024-01-02-123456.png" "PNG" "OK"
             (Retry.mkError false (Some "Permission denied")));
    reflexivity.
Defined.

Lemma manifest_appends_witness :
  recorded slash_join "out"
    (snd (createIterationManifest slash_join one_url_env 20 "out" 1 "second run" []
            (snd (createIterationManifest slash_join one_url_env 10 "out" 1 "first run"
                    [logo_at "https://img.example/a.png"] ∅))))
  = [entry 10 1 "first run" [logo_at "https://img.example/a.png"];
     entry 20 1 "second run" []].
Proof.
  destruct (manifest_appends slash_join one_url_env 10 20 "out" 1 1 "first run"
              "second run" [logo_at "https://img.example/a.png"] [] ∅ eq_refl)
    as [_ [H _]].
  exact H.
Defined.

End DownloaderFacts.
